(** * staticScript: unwrapped-phrase scanner

    A shallow embedding of [src/index.js] and of its later revision
    [src/unnamed/part_000] (the revision that also blanks HTML-like tags),
    together with the part of the JavaScript runtime the two files rely on:
    strings as sequences of UTF-16 code units, backtracking regular
    expressions with [lastIndex], [String.prototype.replace], insertion
    ordered [Set] and [Map], and the console. *)

From Stdlib Require Import String Ascii DecimalString.
From Stdlib Require Import List NArith Arith Bool Lia Sorted Permutation.
Import ListNotations.

Set Implicit Arguments.

(** ** Strings *)

(** A JavaScript string is a sequence of 16-bit code units. *)
Definition char := N.
Definition str := list char.

Definition ch (a : ascii) : char := N_of_ascii a.
Definition codeUnits (s : string) : str := map N_of_ascii (list_ascii_of_string s).

(** [s.substring(a, b)] for [a <= b]. *)
Definition slice (s : str) (a b : nat) : str := firstn (b - a) (skipn a s).

Definition strEqb (a b : str) : bool :=
  if list_eq_dec N.eq_dec a b then true else false.

Definition isLineTerminator (c : char) : bool :=
  ((c =? 10) || (c =? 13) || (c =? 8232) || (c =? 8233))%N.

(** The 63 word characters of [\b], [\w]: letters, digits and underscore. *)
Definition isWordChar (c : char) : bool :=
  (((97 <=? c) && (c <=? 122)) || ((65 <=? c) && (c <=? 90))
   || ((48 <=? c) && (c <=? 57)) || (c =? 95))%N.

(** The characters that [escapeRegExp] escapes; they are exactly the
    SyntaxCharacters of the pattern grammar. *)
Definition syntaxCharacters : str := codeUnits ".*+?^${}()|[]\".

Definition isSyntaxCharacter (c : char) : bool := existsb (N.eqb c) syntaxCharacters.

Definition asciiUpper (c : char) : char :=
  (if (97 <=? c) && (c <=? 122) then c - 32 else c)%N.

(** ** Regular expressions *)

Inductive regex : Type :=
| Empty : regex
| Chr : char -> regex                    (* a pattern character or an identity escape *)
| Dot : regex                            (* .      *)
| Class : bool -> list char -> regex     (* [...] and, with [true], [^...] *)
| WordBoundary : regex                   (* \b     *)
| Seq : regex -> regex -> regex
| Alt : regex -> regex -> regex          (* r1|r2  *)
| Group : nat -> regex -> regex          (* the n-th capturing parentheses *)
| LazyStar : regex -> regex              (* r*?    *)
| LazyPlus : regex -> regex.             (* r+?    *)

Definition seqs (rs : list regex) : regex := fold_right Seq Empty rs.

Definition lit (s : string) : regex := seqs (map Chr (codeUnits s)).

Fixpoint groupsOf (r : regex) : list nat :=
  match r with
  | Seq a b | Alt a b => groupsOf a ++ groupsOf b
  | Group n a => n :: groupsOf a
  | LazyStar a | LazyPlus a => groupsOf a
  | _ => []
  end.

(** A RegExp object of this program: every one carries the [g] flag, some
    also [i]. *)
Record RegExp : Type := mkRegExp { pattern : regex; ignoreCase : bool }.

Record MatchState : Type := mkState {
  endIndex : nat;
  captures : list (nat * (nat * nat))
}.

Definition Continuation := MatchState -> option MatchState.
Definition Matcher := Continuation -> MatchState -> option MatchState.

Definition advance (x : MatchState) : MatchState :=
  mkState (S (endIndex x)) (captures x).

Definition setCapture (n a b : nat) (x : MatchState) : MatchState :=
  mkState (endIndex x) ((n, (a, b)) :: captures x).

Definition clearCaptures (ns : list nat) (x : MatchState) : MatchState :=
  mkState (endIndex x)
          (filter (fun p => negb (existsb (Nat.eqb (fst p)) ns)) (captures x)).

Definition getCapture (n : nat) (x : MatchState) : option (nat * nat) :=
  match find (fun p => Nat.eqb (fst p) n) (captures x) with
  | Some p => Some (snd p)
  | None => None
  end.

(** RepeatMatcher with min = 0, max = infinity, not greedy: try the
    continuation first, then one more iteration; an iteration that consumes
    nothing is rejected.  [fuel] bounds the iterations by the input that is
    left. *)
Fixpoint lazyRepeat (m : Matcher) (ns : list nat) (fuel : nat)
                    (c : Continuation) (x : MatchState) : option MatchState :=
  match c x with
  | Some z => Some z
  | None =>
      match fuel with
      | O => None
      | S fuel' =>
          m (fun y => if endIndex y =? endIndex x then None
                      else lazyRepeat m ns fuel' c y)
            (clearCaptures ns x)
      end
  end.

(** ** Set and Map, in insertion order *)

Definition PhraseSet := list str.
Definition Occurrences := list (str * list nat).

Definition setHas (s : PhraseSet) (x : str) : bool := existsb (strEqb x) s.

Definition setAdd (s : PhraseSet) (x : str) : PhraseSet :=
  if setHas s x then s else s ++ [x].

Fixpoint mapGet (m : Occurrences) (k : str) : option (list nat) :=
  match m with
  | [] => None
  | (k', v) :: m' => if strEqb k k' then Some v else mapGet m' k
  end.

Definition mapHas (m : Occurrences) (k : str) : bool :=
  match mapGet m k with Some _ => true | None => false end.

Fixpoint mapSet (m : Occurrences) (k : str) (v : list nat) : Occurrences :=
  match m with
  | [] => [(k, v)]
  | (k', v') :: m' =>
      if strEqb k k' then (k', v) :: m' else (k', v') :: mapSet m' k v
  end.

Definition mapKeys (m : Occurrences) : list str := map fst m.

(** [a[a.length - 1]], which is [undefined] on the empty array. *)
Definition lastElement (a : list nat) : option nat :=
  match rev a with
  | [] => None
  | x :: _ => Some x
  end.

(** ** The process: console, exit and exceptions *)

Inductive Channel : Type := Stdout | Stderr.

Definition Console := list (Channel * str).

Inductive Completion (A : Type) : Type :=
| Normal : A -> Completion A
| Throw : str -> Completion A          (* an exception with this message *)
| Exit : nat -> Completion A.          (* process.exit(code) *)

Arguments Normal {A} _.
Arguments Throw {A} _.
Arguments Exit {A} _.

(** A computation writes to the console and completes; [None] stands for
    a computation that is still running when the fuel is used up. *)
Definition Proc (A : Type) : Type := Console -> option (Console * Completion A).

Definition ret (A : Type) (a : A) : Proc A := fun k => Some (k, Normal a).

Definition bind (A B : Type) (p : Proc A) (f : A -> Proc B) : Proc B :=
  fun k =>
    match p k with
    | None => None
    | Some (k', Normal a) => f a k'
    | Some (k', Throw msg) => Some (k', Throw msg)
    | Some (k', Exit code) => Some (k', Exit code)
    end.

Definition consoleLog (msg : str) : Proc unit :=
  fun k => Some (k ++ [(Stdout, msg)], Normal tt).

Definition consoleError (msg : str) : Proc unit :=
  fun k => Some (k ++ [(Stderr, msg)], Normal tt).

Definition processExit (A : Type) (code : nat) : Proc A :=
  fun k => Some (k, Exit code).

Definition throw (A : Type) (msg : str) : Proc A :=
  fun k => Some (k, Throw msg).

Definition tryCatch (A : Type) (p : Proc A) (handler : str -> Proc A) : Proc A :=
  fun k =>
    match p k with
    | Some (k', Throw msg) => handler msg k'
    | other => other
    end.

(** A computation without console output that may not end. *)
Definition lift (A : Type) (o : option A) : Proc A :=
  fun k => match o with Some a => Some (k, Normal a) | None => None end.

Notation "x <- p ;; k" := (bind p (fun x => k))
  (at level 61, p at next level, right associativity).
Notation "p ;; k" := (bind p (fun _ => k))
  (at level 61, right associativity).

Section Runtime.

(** The case table of the runtime for code units from 128 on:
    [unicodeUpper c] is the code unit of [c.toUpperCase()] when that string
    has length one, and [c] otherwise. *)
Variable unicodeUpper : char -> char.

(** Canonicalize of the pattern semantics, without the [u] flag. *)
Definition Canonicalize (c : char) : char :=
  (if c <? 128 then asciiUpper c
   else let cu := unicodeUpper c in if cu <? 128 then c else cu)%N.

Section Matching.
Variable icase : bool.
Variable input : str.

Definition canon (c : char) : char := if icase then Canonicalize c else c.

Definition wordCharAt (e : nat) : bool :=
  match nth_error input e with
  | Some c => isWordChar c
  | None => false
  end.

Definition wordCharBefore (e : nat) : bool :=
  match e with
  | O => false
  | S e' => wordCharAt e'
  end.

Definition atWordBoundary (e : nat) : bool :=
  xorb (wordCharBefore e) (wordCharAt e).

Definition step (accept : char -> bool) (c : Continuation) (x : MatchState)
  : option MatchState :=
  match nth_error input (endIndex x) with
  | Some cc => if accept cc then c (advance x) else None
  | None => None
  end.

Fixpoint matcher (r : regex) (c : Continuation) (x : MatchState)
  : option MatchState :=
  match r with
  | Empty => c x
  | Chr a => step (fun cc => (canon cc =? canon a)%N) c x
  | Dot => step (fun cc => negb (isLineTerminator cc)) c x
  | Class invert cs =>
      step (fun cc => xorb invert
                        (existsb (fun a => (canon a =? canon cc)%N) cs)) c x
  | WordBoundary => if atWordBoundary (endIndex x) then c x else None
  | Seq r1 r2 => matcher r1 (matcher r2 c) x
  | Alt r1 r2 =>
      match matcher r1 c x with
      | Some z => Some z
      | None => matcher r2 c x
      end
  | Group n r1 =>
      matcher r1 (fun y => c (setCapture n (endIndex x) (endIndex y) y)) x
  | LazyStar r1 =>
      lazyRepeat (matcher r1) (groupsOf r1)
                 (length input - endIndex x) c x
  | LazyPlus r1 =>
      matcher r1
              (fun y => lazyRepeat (matcher r1) (groupsOf r1)
                                   (length input - endIndex y) c y)
              (clearCaptures (groupsOf r1) x)
  end.

End Matching.

(** One attempt of the pattern at index [i]. *)
Definition matchAt (re : RegExp) (s : str) (i : nat) : option MatchState :=
  matcher (ignoreCase re) s (pattern re) Some (mkState i []).

Fixpoint searchFrom (re : RegExp) (s : str) (n i : nat)
  : option (nat * MatchState) :=
  match matchAt re s i with
  | Some y => Some (i, y)
  | None =>
      match n with
      | O => None
      | S n' => searchFrom re s n' (S i)
      end
  end.

(** RegExpBuiltinExec for a global, non-sticky pattern: the first index
    from [lastIndex] on at which the pattern matches.  On success the
    object's [lastIndex] becomes the end of the match, on failure 0. *)
Definition exec (re : RegExp) (s : str) (lastIndex : nat)
  : option (nat * MatchState) :=
  if length s <? lastIndex then None
  else searchFrom re s (length s - lastIndex) lastIndex.

(** [while ((match = re.exec(s)) !== null) body], entered with the given
    [lastIndex].  The loop has no bound in the source, so the model takes
    fuel and answers [None] when it runs out. *)
Fixpoint execLoop (A : Type) (fuel : nat) (re : RegExp) (s : str)
         (lastIndex : nat) (body : nat * MatchState -> A -> A) (acc : A)
  : option A :=
  match fuel with
  | O => None
  | S fuel' =>
      match exec re s lastIndex with
      | None => Some acc
      | Some m => execLoop fuel' re s (endIndex (snd m)) body (body m acc)
      end
  end.

(** GetSubstitution for the replacement templates of this program: [$$]
    and [$&] are expanded, every other character is copied. *)
Fixpoint GetSubstitution (matched replacement : str) : str :=
  match replacement with
  | [] => []
  | c :: rest =>
      if (c =? ch "$")%N then
        match rest with
        | d :: rest' =>
            if (d =? ch "$")%N then ch "$" :: GetSubstitution matched rest'
            else if (d =? ch "&")%N then matched ++ GetSubstitution matched rest'
            else c :: GetSubstitution matched rest
        | [] => [c]
        end
      else c :: GetSubstitution matched rest
  end.

(** The loop of RegExp.prototype[Symbol.replace] for a global pattern:
    after an empty match [lastIndex] is advanced by one.  The result is
    built while the matches are found. *)
Fixpoint replaceLoop (re : RegExp) (s replacement : str)
         (fuel lastIndex nextSourcePosition : nat) : str :=
  match fuel with
  | O => skipn nextSourcePosition s
  | S fuel' =>
      match exec re s lastIndex with
      | None => skipn nextSourcePosition s
      | Some (i, y) =>
          let e := endIndex y in
          let nextIndex := if e =? i then S e else e in
          if i <? nextSourcePosition then
            replaceLoop re s replacement fuel' nextIndex nextSourcePosition
          else
            slice s nextSourcePosition i
              ++ GetSubstitution (slice s i e) replacement
              ++ replaceLoop re s replacement fuel' nextIndex e
      end
  end.

(** [s.replace(re, replacement)]; [lastIndex] starts at 0 and grows with
    every round, so [length s + 1] rounds are enough. *)
Definition replace (s : str) (re : RegExp) (replacement : str) : str :=
  replaceLoop re s replacement (S (length s)) 0 0.

(** ** The patterns of the program *)

(** [/@\[(?:static|static-header)#(.*?)\]/gi] *)
Definition WRAPPED_PHRASE_EXTRACTION_PATTERN : RegExp :=
  mkRegExp (seqs [Chr (ch "@"); Chr (ch "[");
                  Alt (lit "static") (lit "static-header");
                  Chr (ch "#"); Group 1 (LazyStar Dot); Chr (ch "]")])
           true.

(** [/@\[(?:static|static-header)#.*?\]/gi] *)
Definition WRAPPED_PATTERN_REMOVAL_PATTERN : RegExp :=
  mkRegExp (seqs [Chr (ch "@"); Chr (ch "[");
                  Alt (lit "static") (lit "static-header");
                  Chr (ch "#"); LazyStar Dot; Chr (ch "]")])
           true.

(** [/<[^>]+?>/g], only in the later revision. *)
Definition HTML_TAG_PATTERN : RegExp :=
  mkRegExp (seqs [Chr (ch "<"); LazyPlus (Class true [ch ">"]); Chr (ch ">")])
           false.

(** [/[.*+?^${}()|[\]\\]/g] *)
Definition SPECIAL_CHARACTERS : RegExp :=
  mkRegExp (Class false syntaxCharacters) false.

Definition escapeRegExp (s : str) : str :=
  replace s SPECIAL_CHARACTERS (codeUnits "\$&").

(** [new RegExp(source, "gi")] on the pattern sources this program builds:
    a sequence of pattern characters, escaped syntax characters and [\b].
    Any other source is outside the fragment and gives [None]. *)
Fixpoint parseTerms (source : str) : option (list regex) :=
  match source with
  | [] => Some []
  | c :: rest =>
      if (c =? ch "\")%N then
        match rest with
        | [] => None
        | e :: rest' =>
            if (e =? ch "b")%N then
              option_map (cons WordBoundary) (parseTerms rest')
            else if isSyntaxCharacter e then
              option_map (cons (Chr e)) (parseTerms rest')
            else None
        end
      else if isSyntaxCharacter c then None
      else option_map (cons (Chr c)) (parseTerms rest)
  end.

Definition newRegExp (source : str) (icase : bool) : option RegExp :=
  option_map (fun ts => mkRegExp (seqs ts) icase) (parseTerms source).

(** [new RegExp(`\\b${escapedPhrase}\\b`, "gi")] *)
Definition barePhrasePattern (phrase : str) : option RegExp :=
  newRegExp (codeUnits "\b" ++ escapeRegExp phrase ++ codeUnits "\b") true.

(** ** The scanner *)

(** The two revisions of the program in the repository. *)
Inductive Revision : Type :=
| IndexJs      (* src/index.js *)
| Part000.     (* src/unnamed/part_000 *)

Definition cleanLine (rev : Revision) (line : str) : str :=
  let cleanedLine := replace line WRAPPED_PATTERN_REMOVAL_PATTERN [] in
  match rev with
  | IndexJs => cleanedLine
  | Part000 => replace cleanedLine HTML_TAG_PATTERN (codeUnits " ")
  end.

(** [match[1]] *)
Definition capture1 (line : str) (m : nat * MatchState) : str :=
  match getCapture 1 (snd m) with
  | Some (a, b) => slice line a b
  | None => []
  end.

(** The body of the first [for await]: every payload of the line goes
    into the set. *)
Definition collectLine (fuel : nat) (line : str) (known : PhraseSet)
  : option PhraseSet :=
  execLoop fuel WRAPPED_PHRASE_EXTRACTION_PATTERN line 0
           (fun m known => setAdd known (capture1 line m)) known.

(** The body of the inner [while]: make sure the phrase has an array and
    push the line number unless it is the last element already. *)
Definition recordMatch (phrase : str) (lineNumber : nat)
           (unwrappedOccurrences : Occurrences) : Occurrences :=
  let occ := if mapHas unwrappedOccurrences phrase then unwrappedOccurrences
             else mapSet unwrappedOccurrences phrase [] in
  match mapGet occ phrase with
  | Some existingLineNumbers =>
      match lastElement existingLineNumbers with
      | Some n =>
          if n =? lineNumber then occ
          else mapSet occ phrase (existingLineNumbers ++ [lineNumber])
      | None => mapSet occ phrase (existingLineNumbers ++ [lineNumber])
      end
  | None => occ
  end.

Definition searchPhrase (fuel : nat) (cleanedLine : str) (lineNumber : nat)
           (phrase : str) (occ : Occurrences) : Proc Occurrences :=
  match barePhrasePattern phrase with
  | None => throw Occurrences (codeUnits "Invalid regular expression")
  | Some re =>
      lift (execLoop fuel re cleanedLine 0
                     (fun _ => recordMatch phrase lineNumber) occ)
  end.

(** [for (const x of xs) body] over a state of type [St]. *)
Fixpoint forOf (A St : Type) (xs : list A) (body : A -> St -> Proc St) (s : St)
  : Proc St :=
  match xs with
  | [] => ret s
  | x :: xs' => s' <- body x s ;; forOf xs' body s'
  end.

(** What a read stream delivers to [readline]: its lines, and then the
    error it ends with, if any. *)
Record ReadStream : Type := mkStream {
  streamLines : list str;
  streamError : option str
}.

Definition forAwait (St : Type) (rl : ReadStream) (body : str -> St -> Proc St)
           (s : St) : Proc St :=
  s' <- forOf (streamLines rl) body s ;;
  match streamError rl with
  | Some msg => throw St msg
  | None => ret s'
  end.

(** The file system as the program sees it; the second argument of
    [createReadStream] counts the streams opened before. *)
Record FileSystem : Type := mkFs {
  existsSync : str -> bool;
  createReadStream : str -> nat -> ReadStream
}.

Definition dquote : char := 34%N.
Definition newline : char := 10%N.

Definition decimal (n : nat) : str :=
  codeUnits (NilZero.string_of_uint (Nat.to_uint n)).

Definition pass2Announcement (rev : Revision) : str :=
  match rev with
  | IndexJs => newline :: codeUnits "Pass 2: Searching for unwrapped instances..."
  | Part000 =>
      newline :: codeUnits
        "Pass 2: Searching for unwrapped instances (ignoring HTML tags)..."
  end.

Definition scanLine (rev : Revision) (fuel : nat) (known : PhraseSet)
           (line : str) (st : nat * Occurrences) : Proc (nat * Occurrences) :=
  let lineNumber := S (fst st) in
  let cleanedLine := cleanLine rev line in
  occ <- forOf known (searchPhrase fuel cleanedLine lineNumber) (snd st) ;;
  ret (lineNumber, occ).

(** Pass 1: the first [for await] loop. *)
Definition collectKnownPhrases (fuel : nat) (rl1 : ReadStream) : Proc PhraseSet :=
  forAwait rl1 (fun line known => lift (collectLine fuel line known)) [].

(** Pass 2: the second [for await] loop, started with [lineNumber = 0] and
    the empty map. *)
Definition searchUnwrapped (rev : Revision) (fuel : nat) (known : PhraseSet)
           (rl2 : ReadStream) : Proc Occurrences :=
  st <- forAwait rl2 (scanLine rev fuel known) (0, []) ;;
  ret (snd st).

Definition msgNotFound (filepath : str) : str :=
  codeUnits "Error: The file at '" ++ filepath ++ codeUnits "' does not exist.".

Definition msgPass1 : str :=
  codeUnits "Pass 1: Collecting phrases from wrapped patterns...".

Definition msgFound (size : nat) : str :=
  codeUnits "Found " ++ decimal size
    ++ codeUnits " unique phrases in wrapped patterns.".

Definition msgNothingToMonitor : str :=
  codeUnits "No wrapped phrases found to monitor for unwrapped instances.".

Definition msgUnexpected (filepath message : str) : str :=
  codeUnits "An unexpected error occurred while processing '" ++ filepath
    ++ codeUnits "': " ++ message.

Definition findUnwrappedPhraseOccurrences (rev : Revision) (fuel : nat)
           (fs : FileSystem) (filepath : str) : Proc Occurrences :=
  tryCatch
    ((if negb (existsSync fs filepath) then
        consoleError (msgNotFound filepath) ;;
        processExit unit 1
      else ret tt) ;;
     consoleLog msgPass1 ;;
     knownWrappedPhrases <-
       collectKnownPhrases fuel (createReadStream fs filepath 0) ;;
     consoleLog (msgFound (length knownWrappedPhrases)) ;;
     if length knownWrappedPhrases =? 0 then
       consoleLog msgNothingToMonitor ;;
       ret []
     else
       consoleLog (pass2Announcement rev) ;;
       searchUnwrapped rev fuel knownWrappedPhrases
                       (createReadStream fs filepath 1))
    (fun message =>
       consoleError (msgUnexpected filepath message) ;;
       processExit Occurrences 1).

(** ** The reporter *)

(** [a < b] on strings: code unit by code unit. *)
Fixpoint strLtb (a b : str) : bool :=
  match a, b with
  | _, [] => false
  | [], _ :: _ => true
  | x :: a', y :: b' =>
      if (x <? y)%N then true
      else if (y <? x)%N then false
      else strLtb a' b'
  end.

Fixpoint insertSorted (x : str) (l : list str) : list str :=
  match l with
  | [] => [x]
  | y :: l' => if strLtb x y then x :: l else y :: insertSorted x l'
  end.

(** [Array.prototype.sort()] without a comparator, on strings. *)
Definition sort (l : list str) : list str := fold_right insertSorted [] l.

Fixpoint join (sep : str) (l : list str) : str :=
  match l with
  | [] => []
  | [x] => x
  | x :: l' => x ++ sep ++ join sep l'
  end.

Definition reportLine (phrase : str) (lineNumbers : list nat) : str :=
  codeUnits "Phrase " ++ [dquote] ++ phrase ++ [dquote]
    ++ codeUnits " found unwrapped at lines: "
    ++ join (codeUnits ", ") (map decimal lineNumbers).

Definition msgReportHeader : str :=
  newline :: codeUnits "--- Unwrapped Phrase Occurrences Found ---".

Definition msgReportFooter : str :=
  codeUnits "----------------------------------------".

Definition msgNoneFound : str :=
  codeUnits "No unwrapped instances of known phrases found.".

(** The map is handed over by reference; the value returned here is the
    map as the function leaves it. *)
Definition processResults (unwrappedOccurrencesMap : Occurrences)
  : Proc Occurrences :=
  (if 0 <? length unwrappedOccurrencesMap then
     consoleLog msgReportHeader ;;
     let sortedPhrases := sort (mapKeys unwrappedOccurrencesMap) in
     forOf sortedPhrases
           (fun phrase _ =>
              match mapGet unwrappedOccurrencesMap phrase with
              | Some lineNumbers =>
                  if 0 <? length lineNumbers then
                    consoleLog (reportLine phrase lineNumbers)
                  else ret tt
              | None => ret tt
              end) tt ;;
     consoleLog msgReportFooter
   else
     consoleLog msgNoneFound) ;;
  ret unwrappedOccurrencesMap.

(** ** The entry point *)

Definition usageLine (rev : Revision) : str :=
  match rev with
  | IndexJs => codeUnits "Usage: node findPhrases.js <path_to_your_text_file>"
  | Part000 => codeUnits "Usage: node index.js <path_to_your_text_file>"
  end.

Definition msgPleaseProvide : str :=
  newline :: codeUnits "Please provide a file path as a command-line argument.".

Definition msgSearching (filePath : str) : str :=
  codeUnits "Searching for unwrapped phrases in: '" ++ filePath
    ++ codeUnits "'" ++ [newline].

(** [process.argv[2]] is [undefined] or a string; [!filePath] holds for
    [undefined] and for the empty string. *)
Definition main (rev : Revision) (fuel : nat) (argv2 : option str)
           (fs : FileSystem) : Proc unit :=
  match argv2 with
  | None | Some [] =>
      consoleLog (usageLine rev) ;;
      consoleLog msgPleaseProvide ;;
      processExit unit 1
  | Some filePath =>
      consoleLog (msgSearching filePath) ;;
      foundUnwrappedOccurrences <-
        findUnwrappedPhraseOccurrences rev fuel fs filePath ;;
      processResults foundUnwrappedOccurrences ;;
      ret tt
  end.

(** What the operating system sees of a run: the console and the exit
    status.  A run that ends normally exits with 0; an exception that
    nothing catches ends the process with 1. *)
Definition runProcess (rev : Revision) (fuel : nat) (argv2 : option str)
           (fs : FileSystem) : option (Console * nat) :=
  match main rev fuel argv2 fs [] with
  | None => None
  | Some (k, Normal _) => Some (k, 0)
  | Some (k, Throw _) => Some (k, 1)
  | Some (k, Exit code) => Some (k, code)
  end.

(** ** Documents *)

(** What a computation completes with, the console left aside. *)
Definition result (A : Type) (p : Proc A) : option (Completion A) :=
  option_map snd (p []).

(** A document is the sequence of lines [readline] delivers; its file
    exists and both passes read these lines without an error. *)
Definition documentStream (doc : list str) : ReadStream := mkStream doc None.

Definition documentFile (doc : list str) : FileSystem :=
  mkFs (fun _ => true) (fun _ _ => documentStream doc).

Definition documentPath : str := codeUnits "document.txt".

(** The Known Phrase set of pass 1 and the Occurrence Record of the scan. *)
Definition knownPhrases (fuel : nat) (doc : list str)
  : option (Completion PhraseSet) :=
  result (collectKnownPhrases fuel (documentStream doc)).

Definition scanDocument (rev : Revision) (fuel : nat) (doc : list str)
  : option (Completion Occurrences) :=
  result (findUnwrappedPhraseOccurrences rev fuel (documentFile doc) documentPath).

Definition homeLine1 : str := codeUnits "@[static#Home] is great.".
Definition homeLine2 : str := codeUnits "Click Home to continue.".
Definition homeLine3 : str :=
  codeUnits "<a href=" ++ [dquote] ++ codeUnits "Home" ++ [dquote]
    ++ codeUnits ">Home</a> link".
Definition homeDocument : list str := [homeLine1; homeLine2; homeLine3].

(** ** The notions of the specification *)

Definition lastChar (s : str) : option char :=
  match rev s with
  | [] => None
  | c :: _ => Some c
  end.

(** Two strings are equal when compared case-insensitively. *)
Definition ciEqual (a b : str) : Prop := map Canonicalize a = map Canonicalize b.

(** A string edge, or a character that is not a word constituent. *)
Definition edgeOrNonWord (c : option char) : Prop :=
  match c with
  | None => True
  | Some c => isWordChar c = false
  end.

(** Whole-word match: the phrase occurs in the line, compared
    case-insensitively, bounded on both sides by non-word-constituent
    characters or string edges. *)
Definition wholeWordOccurrence (phrase line : str) : Prop :=
  exists pre w post,
    line = pre ++ w ++ post /\ ciEqual w phrase
    /\ edgeOrNonWord (lastChar pre) /\ edgeOrNonWord (head post).

(** The line contains an annotation: the marker with one of the two tag
    keywords, compared case-insensitively, then a payload up to a closing
    bracket on the same line. *)
Definition containsAnnotation (line : str) : Prop :=
  exists pre marker payload post,
    line = pre ++ marker ++ payload ++ [ch "]"] ++ post
    /\ (ciEqual marker (codeUnits "@[static#")
        \/ ciEqual marker (codeUnits "@[static-header#"))
    /\ Forall (fun c => isLineTerminator c = false) payload.

(** The line contains an HTML-like tag span: [<], one or more characters
    other than [>], and [>]. *)
Definition hasTagSpan (line : str) : Prop :=
  exists pre body post,
    line = pre ++ [ch "<"] ++ body ++ [ch ">"] ++ post
    /\ body <> [] /\ Forall (fun c => c <> ch ">") body.

(** The phrase begins and ends with a word constituent. *)
Definition wordEdged (phrase : str) : bool :=
  match head phrase, lastChar phrase with
  | Some a, Some z => isWordChar a && isWordChar z
  | _, _ => false
  end.

(** Fuel that is enough for the loops over every line of a document. *)
Definition enoughFuel (fuel : nat) (doc : list str) : Prop :=
  Forall (fun line => length line < fuel) doc.

(** ** Auxiliary notions for the proofs *)

(** A matcher hands to its continuation a state that lies at or after the
    state it got, and inside the input. *)
Definition progressive (input : str) (m : Matcher) : Prop :=
  forall c x z, m c x = Some z ->
    exists y, c y = Some z /\ endIndex x <= endIndex y
              /\ (endIndex x <= length input -> endIndex y <= length input).

(** [stripped marker s t]: [t] is [s] without some spans that begin with
    [marker]. *)
Inductive stripped (marker : char) : str -> str -> Prop :=
| stripped_nil : stripped marker [] []
| stripped_keep : forall c s t,
    stripped marker s t -> stripped marker (c :: s) (c :: t)
| stripped_drop : forall u s t,
    stripped marker s t -> stripped marker (marker :: u ++ s) t.

(** The characters of [w] stand in [s] from index [i] on, up to [canon]. *)
Fixpoint litMatches (icase : bool) (s w : str) (i : nat) : bool :=
  match w with
  | [] => true
  | a :: w' =>
      match nth_error s i with
      | Some cc => (canon icase cc =? canon icase a)%N && litMatches icase s w' (S i)
      | None => false
      end
  end.

(** What [escapeRegExp] does to one character. *)
Definition escapeChar (c : char) : str :=
  if isSyntaxCharacter c then [ch "\"; c] else [c].

(** The pattern that [barePhrasePattern] builds: [\b], the characters of
    the phrase, [\b]. *)
Definition barePattern (phrase : str) : RegExp :=
  mkRegExp (seqs (WordBoundary :: map Chr phrase ++ [WordBoundary])) true.

(** The loops of the two passes write nothing to the console; these are
    the same loops as plain functions. *)
Fixpoint foldOption (A St : Type) (xs : list A) (body : A -> St -> option St)
         (s : St) : option St :=
  match xs with
  | [] => Some s
  | x :: xs' =>
      match body x s with
      | Some s' => foldOption xs' body s'
      | None => None
      end
  end.

Definition searchPhrasePure (fuel : nat) (cleanedLine : str) (lineNumber : nat)
           (phrase : str) (occ : Occurrences) : option Occurrences :=
  execLoop fuel (barePattern phrase) cleanedLine 0
           (fun _ => recordMatch phrase lineNumber) occ.

Definition scanLinePure (rev : Revision) (fuel : nat) (known : PhraseSet)
           (line : str) (st : nat * Occurrences) : option (nat * Occurrences) :=
  option_map (pair (S (fst st)))
             (foldOption known
                         (searchPhrasePure fuel (cleanLine rev line) (S (fst st)))
                         (snd st)).

Definition passOne (fuel : nat) (lines : list str) : option PhraseSet :=
  foldOption lines (collectLine fuel) [].

Definition passTwo (rev : Revision) (fuel : nat) (known : PhraseSet)
           (lines : list str) : option (nat * Occurrences) :=
  foldOption lines (scanLinePure rev fuel known) (0, []).

(** The state of the Occurrence Record when [n] lines have been read:
    distinct keys, all of them known phrases, each with a non-empty,
    strictly increasing sequence of line numbers between 1 and [n]. *)
Definition linesUpTo (n : nat) (ls : list nat) : Prop :=
  StronglySorted lt ls /\ Forall (fun x => 1 <= x <= n) ls /\ ls <> [].

Definition recordOk (known : PhraseSet) (n : nat) (occ : Occurrences) : Prop :=
  NoDup (mapKeys occ)
  /\ forall phrase ls, In (phrase, ls) occ -> In phrase known /\ linesUpTo n ls.

(** The part of the annotation pattern after the marker keyword: [#], the
    lazy payload in its group, and the closing bracket. *)
Definition payloadTail : list regex :=
  [Chr (ch "#"); Group 1 (LazyStar Dot); Chr (ch "]")].

(** A [<] followed by a character other than [>] and, somewhere later,
    a [>]. *)
Definition tagLike (t : str) : Prop :=
  exists pre c rest,
    t = pre ++ ch "<" :: c :: rest /\ c <> ch ">" /\ In (ch ">") rest.

(** ** The outcome of a run *)

Definition onlyStdout (k : Console) : Prop := Forall (fun e => fst e = Stdout) k.

(** Reading fails with [msg]: the first stream ends with this error, or
    pass 1 found phrases and the second stream ends with it. *)
Inductive readFailure (fuel : nat) (fs : FileSystem) (path msg : str) : Prop :=
| failsInPass1 :
    streamError (createReadStream fs path 0) = Some msg ->
    readFailure fuel fs path msg
| failsInPass2 : forall known,
    streamError (createReadStream fs path 0) = None ->
    passOne fuel (streamLines (createReadStream fs path 0)) = Some known ->
    known <> [] ->
    streamError (createReadStream fs path 1) = Some msg ->
    readFailure fuel fs path msg.

Definition linesOf (occ : Occurrences) (phrase : str) : list nat :=
  match mapGet occ phrase with
  | Some ls => ls
  | None => []
  end.

(** The phrases the reporter prints, in the order it prints them. *)
Definition reportedPhrases (occ : Occurrences) : list str :=
  filter (fun p => 0 <? length (linesOf occ p)) (sort (mapKeys occ)).

(** The report, as the lines it adds to the console. *)
Definition reportOf (occ : Occurrences) : Console :=
  if 0 <? length occ then
    [(Stdout, msgReportHeader)]
      ++ map (fun p => (Stdout, reportLine p (linesOf occ p))) (reportedPhrases occ)
      ++ [(Stdout, msgReportFooter)]
  else [(Stdout, msgNoneFound)].

(** Code points of a UTF-16 string: a high surrogate followed by a low
    surrogate stands for one supplementary code point. *)
Definition isHighSurrogate (c : char) : bool := ((55296 <=? c) && (c <=? 56319))%N.
Definition isLowSurrogate (c : char) : bool := ((56320 <=? c) && (c <=? 57343))%N.

Fixpoint codePoints (s : str) : list N :=
  match s with
  | [] => []
  | h :: rest =>
      match rest with
      | l :: rest' =>
          if isHighSurrogate h && isLowSurrogate l
          then (65536 + (h - 55296) * 1024 + (l - 56320))%N :: codePoints rest'
          else h :: codePoints rest
      | [] => [h]
      end
  end.

(** Lexicographic order by code point. *)
Definition codePointLtb (a b : str) : bool := strLtb (codePoints a) (codePoints b).

(** ** Sample inputs *)

(** A case table that is exact on the code units below 256 and leaves
    the others alone. *)
Definition latin1Upper (c : char) : char :=
  (if (224 <=? c) && (c <=? 254) && negb (c =? 247) then c - 32
   else if c =? 255 then 376
   else if c =? 181 then 924
   else c)%N.

Definition emptyPayloadDocument : list str :=
  [codeUnits "@[static#]"; codeUnits "a"].

Definition plainDocument : list str :=
  [codeUnits "Nothing is wrapped here."; codeUnits "[static#Home] lacks the at sign."].

Definition taglessDocument : list str := [homeLine1; homeLine2].

Definition catDocument : list str :=
  [codeUnits "@[static#cat]"; codeUnits "category"; codeUnits "the cat sat"].

Definition cppDocument : list str :=
  [codeUnits "@[static#C++]"; codeUnits "C++ rocks"].

(** U+1F600 as its surrogate pair, and U+FF5E. *)
Definition grinningFace : str := [55357; 56832]%N.
Definition fullwidthTilde : str := [65374]%N.

Definition astralDocument : list str :=
  [codeUnits "@[static#" ++ fullwidthTilde ++ codeUnits "] @[static#"
     ++ grinningFace ++ codeUnits "]";
   codeUnits "a" ++ fullwidthTilde ++ codeUnits "a a" ++ grinningFace
     ++ codeUnits "a"].

Definition astralRecord : Occurrences :=
  [(fullwidthTilde, [2]); (grinningFace, [2])].

(** A file whose second stream breaks off with an error. *)
Definition brokenFile : FileSystem :=
  mkFs (fun _ => true)
       (fun _ n => match n with
                   | O => documentStream homeDocument
                   | S _ => mkStream [homeLine1] (Some (codeUnits "EIO: i/o error"))
                   end).

Definition missingFile : FileSystem :=
  mkFs (fun _ => false) (fun _ _ => documentStream []).

(** Two continuations agree on the states from index [e] on. *)
Definition agreeFrom (input : str) (e : nat) (c1 c2 : Continuation) : Prop :=
  forall y, e <= endIndex y -> endIndex y <= length input -> c1 y = c2 y.

(** The inner [while] of pass 2 is entered at least once. *)
Definition hasMatch (phrase cleanedLine : str) : bool :=
  match exec (barePattern phrase) cleanedLine 0 with
  | Some _ => true
  | None => false
  end.

(** The numbers, counted from [n], of the lines on which the phrase has a
    match after cleaning. *)
Fixpoint matchingLines (rev : Revision) (phrase : str) (doc : list str) (n : nat)
  : list nat :=
  match doc with
  | [] => []
  | line :: rest =>
      if hasMatch phrase (cleanLine rev line)
      then n :: matchingLines rev phrase rest (S n)
      else matchingLines rev phrase rest (S n)
  end.

(** The pattern without its capturing parentheses. *)
Fixpoint stripGroups (r : regex) : regex :=
  match r with
  | Seq a b => Seq (stripGroups a) (stripGroups b)
  | Alt a b => Alt (stripGroups a) (stripGroups b)
  | Group _ a => stripGroups a
  | LazyStar a => LazyStar (stripGroups a)
  | LazyPlus a => LazyPlus (stripGroups a)
  | other => other
  end.

(** Two attempts both fail or end at the same index. *)
Definition sameEnd (a b : option MatchState) : Prop :=
  match a, b with
  | Some x, Some y => endIndex x = endIndex y
  | None, None => True
  | _, _ => False
  end.

(** Two searches both fail or find the same span. *)
Definition sameSpan (a b : option (nat * MatchState)) : Prop :=
  match a, b with
  | Some (i, x), Some (j, y) => i = j /\ endIndex x = endIndex y
  | None, None => True
  | _, _ => False
  end.

(** [payload] is what an annotation of [line] wraps: the marker, the
    payload without a closing bracket or a line terminator, and the closing
    bracket. *)
Definition annotates (line payload : str) : Prop :=
  exists pre marker post,
    line = pre ++ marker ++ payload ++ [ch "]"] ++ post
    /\ (ciEqual marker (codeUnits "@[static#")
        \/ ciEqual marker (codeUnits "@[static-header#"))
    /\ Forall (fun c => isLineTerminator c = false /\ c <> ch "]") payload.

(** The assertion [\b] between two adjacent parts of a line: exactly one
    of the characters on the two sides of the position is a word
    constituent; a string edge counts as none. *)
Definition wordOpt (c : option char) : bool :=
  match c with
  | Some c => isWordChar c
  | None => false
  end.

Definition boundaryBetween (before after : str) : bool :=
  xorb (wordOpt (lastChar before)) (wordOpt (head after)).

(** The phrase stands in the line, compared case-insensitively, with a
    word boundary at its start and at its end. *)
Definition boundedOccurrence (phrase line : str) : Prop :=
  exists pre w post,
    line = pre ++ w ++ post /\ ciEqual w phrase
    /\ boundaryBetween pre (w ++ post) = true
    /\ boundaryBetween (pre ++ w) post = true.

(** A tag span begins at index [j] of [t]. *)
Definition tagAt (t : str) (j : nat) : Prop :=
  nth_error t j = Some (ch "<")
  /\ (exists c, nth_error t (S j) = Some c /\ c <> ch ">")
  /\ exists e, S j < e /\ nth_error t e = Some (ch ">").

(** A phrase that ends with characters that are no word constituents, and
    a line on which it is followed by a letter. *)
Definition plusDocument : list str :=
  [codeUnits "@[static#C++]"; codeUnits "C++x"].

(** The same phrase wrapped twice, in two spellings. *)
Definition caseDocument : list str :=
  [codeUnits "@[static#Home] @[static#HOME]"; codeUnits "go home"].

(** The pattern has no assertion that looks at the text before the
    current position. *)
Fixpoint lookbehindFree (r : regex) : bool :=
  match r with
  | WordBoundary => false
  | Seq a b | Alt a b => lookbehindFree a && lookbehindFree b
  | Group _ a | LazyStar a | LazyPlus a => lookbehindFree a
  | _ => true
  end.

(** An attempt on a string and an attempt on its suffix from index [n] on
    both fail or end at the same place. *)
Definition shiftedEnd (n : nat) (a b : option MatchState) : Prop :=
  match a, b with
  | Some x, Some y => endIndex x = n + endIndex y
  | None, None => True
  | _, _ => False
  end.

Definition shiftedSpan (n : nat) (a b : option (nat * MatchState)) : Prop :=
  match a, b with
  | Some (i, x), Some (j, y) => i = n + j /\ endIndex x = n + endIndex y
  | None, None => True
  | _, _ => False
  end.

(** * Properties of the runtime *)

Unset Implicit Arguments.

Lemma step_inv (input : str) (accept : char -> bool) c x z :
  step input accept c x = Some z ->
  exists cc, nth_error input (endIndex x) = Some cc /\ accept cc = true
             /\ c (advance x) = Some z.
Proof.
  unfold step. destruct (nth_error input (endIndex x)) as [cc|]; [|discriminate].
  destruct (accept cc) eqn:E; [|discriminate]. intros H. now exists cc.
Qed.

Lemma step_progressive (input : str) accept : progressive input (step input accept).
Proof.
  intros c x z H. apply step_inv in H as (cc & Hn & _ & Hc).
  exists (advance x). split; [exact Hc|]. simpl. split; [lia|].
  intros _. apply nth_error_Some. congruence.
Qed.

Lemma lazyRepeat_progressive (input : str) m ns fuel :
  progressive input m -> progressive input (lazyRepeat m ns fuel).
Proof.
  intros Hm. induction fuel as [|fuel IH]; intros c x z H; simpl in H.
  - destruct (c x) eqn:E; [|discriminate]. exists x. rewrite E. auto.
  - destruct (c x) eqn:E.
    + exists x. rewrite E. auto.
    + apply Hm in H as (y & Hy & Hle & Hin). simpl in Hle, Hin.
      destruct (endIndex y =? endIndex x); [discriminate|].
      apply IH in Hy as (y' & Hy' & Hle' & Hin').
      exists y'. split; [exact Hy'|]. split; [lia|]. auto.
Qed.

Lemma matcher_progressive icase (input : str) r :
  progressive input (matcher icase input r).
Proof.
  induction r as [|a| |inv cs| |r1 IH1 r2 IH2|r1 IH1 r2 IH2|n r1 IH1|r1 IH1|r1 IH1];
    intros c x z H; simpl in H.
  - exists x. auto.
  - now apply step_progressive in H.
  - now apply step_progressive in H.
  - now apply step_progressive in H.
  - destruct (atWordBoundary input (endIndex x)); [|discriminate]. exists x. auto.
  - apply IH1 in H as (y1 & H1 & Hle1 & Hin1).
    apply IH2 in H1 as (y2 & H2 & Hle2 & Hin2).
    exists y2. split; [exact H2|]. split; [lia|]. auto.
  - destruct (matcher icase input r1 c x) eqn:E.
    + injection H as <-. now apply IH1 in E.
    + now apply IH2 in H.
  - apply IH1 in H as (y & Hy & Hle & Hin).
    exists (setCapture n (endIndex x) (endIndex y) y). simpl. auto.
  - now apply (lazyRepeat_progressive input _ (groupsOf r1) _ IH1) in H.
  - apply IH1 in H as (y & Hy & Hle & Hin). simpl in Hle, Hin.
    apply (lazyRepeat_progressive input _ (groupsOf r1) _ IH1) in Hy
      as (y' & Hy' & Hle' & Hin').
    exists y'. split; [exact Hy'|]. split; [lia|]. auto.
Qed.

Lemma matchAt_bounds re s i y :
  matchAt re s i = Some y ->
  i <= endIndex y /\ (i <= length s -> endIndex y <= length s).
Proof.
  intros H. apply matcher_progressive in H as (y' & Hy & Hle & Hin).
  injection Hy as ->. simpl in *. auto.
Qed.

Lemma searchFrom_some re s n : forall i j y,
  searchFrom re s n i = Some (j, y) ->
  i <= j <= i + n /\ matchAt re s j = Some y
  /\ forall k, i <= k < j -> matchAt re s k = None.
Proof.
  induction n as [|n IH]; intros i j y H; simpl in H.
  - destruct (matchAt re s i) eqn:E; [|discriminate].
    injection H as <- <-. split; [lia|]. split; [exact E|]. intros; lia.
  - destruct (matchAt re s i) eqn:E.
    + injection H as <- <-. split; [lia|]. split; [exact E|]. intros; lia.
    + apply IH in H as (Hb & Hm & Hnone). split; [lia|]. split; [exact Hm|].
      intros k Hk. destruct (Nat.eq_dec k i) as [->|]; [exact E|].
      apply Hnone. lia.
Qed.

Lemma searchFrom_none re s n : forall i,
  searchFrom re s n i = None ->
  forall k, i <= k <= i + n -> matchAt re s k = None.
Proof.
  induction n as [|n IH]; intros i H k Hk; simpl in H.
  - destruct (matchAt re s i) eqn:E; [discriminate|].
    replace k with i by lia. exact E.
  - destruct (matchAt re s i) eqn:E; [discriminate|].
    destruct (Nat.eq_dec k i) as [->|]; [exact E|].
    eapply IH; [exact H|lia].
Qed.

Lemma searchFrom_none_intro re s n : forall i,
  (forall k, i <= k <= i + n -> matchAt re s k = None) ->
  searchFrom re s n i = None.
Proof.
  induction n as [|n IH]; intros i H; simpl.
  - rewrite H by lia. reflexivity.
  - rewrite H by lia. apply IH. intros k Hk. apply H. lia.
Qed.

Lemma exec_some re s lastIndex j y :
  exec re s lastIndex = Some (j, y) ->
  lastIndex <= j <= length s /\ matchAt re s j = Some y
  /\ (forall k, lastIndex <= k < j -> matchAt re s k = None)
  /\ j <= endIndex y <= length s.
Proof.
  unfold exec. destruct (length s <? lastIndex) eqn:E; [discriminate|].
  apply Nat.ltb_ge in E. intros H.
  apply searchFrom_some in H as (Hb & Hm & Hnone).
  split; [lia|]. split; [exact Hm|]. split; [exact Hnone|].
  apply matchAt_bounds in Hm. lia.
Qed.

Lemma exec_none re s lastIndex :
  exec re s lastIndex = None <->
  forall k, lastIndex <= k <= length s -> matchAt re s k = None.
Proof.
  unfold exec. destruct (length s <? lastIndex) eqn:E.
  - apply Nat.ltb_lt in E. split; [intros _ k Hk; lia|reflexivity].
  - apply Nat.ltb_ge in E. split.
    + intros H k Hk. eapply searchFrom_none; [exact H|lia].
    + intros H. apply searchFrom_none_intro. intros k Hk. apply H. lia.
Qed.

(** ** Slices *)

Lemma slice_length (s : str) a b :
  a <= b -> b <= length s -> length (slice s a b) = b - a.
Proof.
  intros Hab Hb. unfold slice. rewrite length_firstn, length_skipn. lia.
Qed.

Lemma skipn_slice (s : str) a b :
  a <= b -> skipn a s = slice s a b ++ skipn b s.
Proof.
  intros Hab. unfold slice.
  replace (skipn b s) with (skipn (b - a) (skipn a s)).
  - symmetry. apply firstn_skipn.
  - rewrite skipn_skipn. f_equal. lia.
Qed.

Lemma skipn_nth (s : str) i c :
  nth_error s i = Some c -> skipn i s = c :: skipn (S i) s.
Proof.
  revert i. induction s as [|x s IH]; intros [|i] H; simpl in *; try discriminate.
  - congruence.
  - now apply IH.
Qed.

Lemma slice_nth (s : str) i e c :
  nth_error s i = Some c -> i < e -> slice s i e = c :: slice s (S i) e.
Proof.
  intros Hn Hlt. unfold slice. rewrite (skipn_nth _ _ _ Hn).
  replace (e - i) with (S (e - S i)) by lia. reflexivity.
Qed.

Lemma slice_empty (s : str) i : slice s i i = [].
Proof. unfold slice. now rewrite Nat.sub_diag. Qed.

Lemma in_skipn_nth (s : str) k c :
  In c (skipn k s) -> exists j, k <= j /\ nth_error s j = Some c.
Proof.
  revert k. induction s as [|x s IH]; intros k H.
  - rewrite skipn_nil in H. destruct H.
  - destruct k as [|k]; cbn [skipn] in H.
    + apply In_nth_error in H as [j Hj]. exists j. split; [lia|exact Hj].
    + apply IH in H as (j & Hj & Hn). exists (S j). split; [lia|exact Hn].
Qed.

Lemma in_slice_nth (s : str) a b c :
  In c (slice s a b) -> exists j, a <= j < b /\ nth_error s j = Some c.
Proof.
  unfold slice. intros H. apply In_nth_error in H as [j Hj].
  assert (Hlt : j < b - a).
  { assert (Hs : nth_error (firstn (b - a) (skipn a s)) j <> None) by congruence.
    apply nth_error_Some in Hs. rewrite length_firstn in Hs. lia. }
  rewrite nth_error_firstn in Hj.
  destruct (j <? b - a) eqn:E; [|apply Nat.ltb_ge in E; lia].
  rewrite nth_error_skipn in Hj. exists (a + j). split; [lia|exact Hj].
Qed.

(** ** [replace] *)

Lemma replace_no_match re (s repl : str) :
  exec re s 0 = None -> replace s re repl = s.
Proof. intros H. unfold replace. simpl. now rewrite H. Qed.

Lemma replaceLoop_length re (s repl : str) :
  (forall i y, matchAt re s i = Some y ->
     length (GetSubstitution (slice s i (endIndex y)) repl) <= endIndex y - i) ->
  forall fuel lastIndex nsp, nsp <= lastIndex ->
    length (replaceLoop re s repl fuel lastIndex nsp) <= length s - nsp.
Proof.
  intros Hsub. induction fuel as [|fuel IH]; intros lastIndex nsp Hle; simpl.
  - rewrite length_skipn. lia.
  - destruct (exec re s lastIndex) as [[i y]|] eqn:E.
    + apply exec_some in E as (Hi & Hm & _ & He).
      destruct (i <? nsp) eqn:Hlt; [apply Nat.ltb_lt in Hlt; lia|].
      rewrite !length_app. specialize (Hsub _ _ Hm).
      rewrite slice_length by lia.
      assert (Hnext : endIndex y <= (if endIndex y =? i then S (endIndex y) else endIndex y))
        by (destruct (endIndex y =? i); lia).
      specialize (IH _ _ Hnext). lia.
    + rewrite length_skipn. lia.
Qed.

Lemma replace_length re (s repl : str) :
  (forall i y, matchAt re s i = Some y ->
     length (GetSubstitution (slice s i (endIndex y)) repl) <= endIndex y - i) ->
  length (replace s re repl) <= length s.
Proof.
  intros H. unfold replace.
  pose proof (replaceLoop_length re s repl H (S (length s)) 0 0 (Nat.le_refl 0)). lia.
Qed.

Lemma stripped_refl marker s : stripped marker s s.
Proof. induction s; constructor; assumption. Qed.

Lemma stripped_app marker p s t :
  stripped marker s t -> stripped marker (p ++ s) (p ++ t).
Proof. intros H. induction p; simpl; [assumption|now constructor]. Qed.

Lemma stripped_In marker s t c : stripped marker s t -> In c t -> In c s.
Proof.
  induction 1 as [|x s t _ IH|u s t _ IH]; intros Hin.
  - exact Hin.
  - destruct Hin as [->|Hin]; [now left|right; auto].
  - right. apply in_or_app. right. auto.
Qed.

(** Removing the matches of a pattern whose matches all begin with
    [marker] strips spans that begin with [marker]. *)
Lemma replaceLoop_stripped re (s : str) marker :
  (forall i y, matchAt re s i = Some y ->
     nth_error s i = Some marker /\ i < endIndex y) ->
  forall fuel lastIndex nsp, nsp <= lastIndex ->
    stripped marker (skipn nsp s) (replaceLoop re s [] fuel lastIndex nsp).
Proof.
  intros Hm. induction fuel as [|fuel IH]; intros lastIndex nsp Hle; simpl.
  - apply stripped_refl.
  - destruct (exec re s lastIndex) as [[i y]|] eqn:E; [|apply stripped_refl].
    apply exec_some in E as (Hi & Hmatch & _ & He).
    destruct (Hm _ _ Hmatch) as [Hnth Hlt].
    destruct (i <? nsp) eqn:Hc; [apply Nat.ltb_lt in Hc; lia|].
    destruct (endIndex y =? i) eqn:Hz; [apply Nat.eqb_eq in Hz; lia|].
    simpl.
    rewrite (skipn_slice s nsp i) by lia. apply stripped_app.
    rewrite (skipn_slice s i (endIndex y)) by lia.
    rewrite (slice_nth _ _ _ _ Hnth Hlt). simpl.
    apply stripped_drop. apply IH. lia.
Qed.

(** ** The bounds of the loops inside the runtime are enough *)

Lemma lazyRepeat_ext_from (input : str) m ns fuel :
  (forall c1 c2 x, endIndex x <= length input ->
     agreeFrom input (endIndex x) c1 c2 -> m c1 x = m c2 x) ->
  forall c1 c2 x, endIndex x <= length input ->
    agreeFrom input (endIndex x) c1 c2 ->
    lazyRepeat m ns fuel c1 x = lazyRepeat m ns fuel c2 x.
Proof.
  intros Hm. induction fuel as [|fuel IH]; intros c1 c2 x Hx Hc; simpl;
    rewrite (Hc x (Nat.le_refl _) Hx).
  - reflexivity.
  - destruct (c2 x); [reflexivity|]. apply Hm; [exact Hx|].
    intros y Hy Hlen. simpl in Hy.
    destruct (endIndex y =? endIndex x); [reflexivity|].
    apply IH; [exact Hlen|]. intros z Hz Hzl. apply Hc; [lia|exact Hzl].
Qed.

Lemma matcher_ext_from icase (input : str) r : forall c1 c2 x,
  endIndex x <= length input -> agreeFrom input (endIndex x) c1 c2 ->
  matcher icase input r c1 x = matcher icase input r c2 x.
Proof.
  assert (Hstep : forall accept c1 c2 x,
            endIndex x <= length input -> agreeFrom input (endIndex x) c1 c2 ->
            step input accept c1 x = step input accept c2 x).
  { intros accept c1 c2 x Hx Hc. unfold step.
    destruct (nth_error input (endIndex x)) as [cc|] eqn:E; [|reflexivity].
    destruct (accept cc); [|reflexivity].
    assert (endIndex x < length input) by (apply nth_error_Some; congruence).
    apply Hc; simpl; lia. }
  induction r as [|a| |inv cs| |r1 IH1 r2 IH2|r1 IH1 r2 IH2|n r1 IH1|r1 IH1|r1 IH1];
    intros c1 c2 x Hx Hc; simpl.
  - apply Hc; [lia|exact Hx].
  - now apply Hstep.
  - now apply Hstep.
  - now apply Hstep.
  - rewrite (Hc x (Nat.le_refl _) Hx). reflexivity.
  - apply IH1; [exact Hx|]. intros y Hy Hyl. apply IH2; [exact Hyl|].
    intros z Hz Hzl. apply Hc; [lia|exact Hzl].
  - rewrite (IH1 c1 c2 x Hx Hc), (IH2 c1 c2 x Hx Hc). reflexivity.
  - apply IH1; [exact Hx|]. intros y Hy Hyl. apply Hc; simpl; assumption.
  - apply (lazyRepeat_ext_from input); assumption.
  - apply IH1; [exact Hx|]. intros y Hy Hyl. simpl in Hy.
    apply (lazyRepeat_ext_from input); [exact IH1|exact Hyl|].
    intros z Hz Hzl. apply Hc; [lia|exact Hzl].
Qed.

Lemma matcher_no_continuation icase (input : str) r x :
  matcher icase input r (fun _ => None) x = None.
Proof.
  destruct (matcher icase input r (fun _ => None) x) eqn:E; [|reflexivity].
  apply matcher_progressive in E as (y & Hy & _). discriminate.
Qed.

(** Past the input that is left, more fuel changes nothing: the bound that
    [matcher] gives to [lazyRepeat] is enough. *)
Lemma lazyRepeat_fuel_enough icase (input : str) r ns c : forall fuel1 fuel2 x,
  endIndex x <= length input ->
  length input - endIndex x <= fuel1 -> length input - endIndex x <= fuel2 ->
  lazyRepeat (matcher icase input r) ns fuel1 c x
  = lazyRepeat (matcher icase input r) ns fuel2 c x.
Proof.
  assert (Hend : forall fuel x,
            endIndex x = length input ->
            lazyRepeat (matcher icase input r) ns fuel c x = c x).
  { intros [|fuel] x Hx; simpl; destruct (c x) eqn:E; try reflexivity.
    transitivity (matcher icase input r (fun _ => None) (clearCaptures ns x));
      [|apply matcher_no_continuation].
    apply matcher_ext_from; [simpl; lia|].
    intros y Hy Hyl. simpl in Hy.
    destruct (Nat.eqb_spec (endIndex y) (endIndex x)); [reflexivity|lia]. }
  induction fuel1 as [|fuel1 IH]; intros fuel2 x Hx H1 H2.
  - rewrite !Hend by lia. reflexivity.
  - destruct fuel2 as [|fuel2]; [rewrite !Hend by lia; reflexivity|].
    simpl. destruct (c x); [reflexivity|].
    apply matcher_ext_from; [exact Hx|].
    intros y Hy Hyl. simpl in Hy.
    destruct (Nat.eqb_spec (endIndex y) (endIndex x)); [reflexivity|].
    apply IH; lia.
Qed.

(** Likewise for [replace]: once [lastIndex] plus the fuel is beyond the
    end of the string, the fuel does not matter. *)
Lemma replaceLoop_fuel_enough re (s repl : str) : forall fuel1 fuel2 lastIndex nsp,
  length s < fuel1 + lastIndex -> length s < fuel2 + lastIndex ->
  replaceLoop re s repl fuel1 lastIndex nsp
  = replaceLoop re s repl fuel2 lastIndex nsp.
Proof.
  assert (Hend : forall fuel lastIndex nsp,
            length s < lastIndex ->
            replaceLoop re s repl fuel lastIndex nsp = skipn nsp s).
  { intros [|fuel] lastIndex nsp Hl; simpl; [reflexivity|].
    unfold exec. apply Nat.ltb_lt in Hl. now rewrite Hl. }
  induction fuel1 as [|fuel1 IH]; intros fuel2 lastIndex nsp H1 H2.
  - rewrite !Hend by lia. reflexivity.
  - destruct fuel2 as [|fuel2]; [rewrite !Hend by lia; reflexivity|].
    simpl. destruct (exec re s lastIndex) as [[i y]|] eqn:E; [|reflexivity].
    apply exec_some in E as (Hi & _ & _ & He).
    assert (Hnext : lastIndex
                    < (if endIndex y =? i then S (endIndex y) else endIndex y)).
    { destruct (Nat.eqb_spec (endIndex y) i); lia. }
    destruct (i <? nsp); [apply IH; lia|].
    do 2 f_equal. apply IH; lia.
Qed.

(** ** Canonicalize *)

Ltac cases_N :=
  repeat match goal with
         | |- context [N.ltb ?a ?b] => destruct (N.ltb_spec a b)
         | |- context [N.leb ?a ?b] => destruct (N.leb_spec a b)
         | |- context [N.eqb ?a ?b] => destruct (N.eqb_spec a b)
         | H : context [N.ltb ?a ?b] |- _ => destruct (N.ltb_spec a b)
         | H : context [N.leb ?a ?b] |- _ => destruct (N.leb_spec a b)
         | H : context [N.eqb ?a ?b] |- _ => destruct (N.eqb_spec a b)
         end; simpl in *.

(** A character that is not an ASCII letter is matched by itself only,
    with or without the [i] flag. *)
Lemma canon_exact icase (c a : char) :
  (a < 65 \/ (90 < a /\ a < 97) \/ (122 < a /\ a < 128))%N ->
  canon icase c = canon icase a -> c = a.
Proof.
  intros Ha. unfold canon, Canonicalize, asciiUpper.
  destruct icase; [|auto]. cases_N; lia.
Qed.

Lemma isWordChar_true (c : char) :
  isWordChar c = true <->
  ((97 <= c /\ c <= 122) \/ (65 <= c /\ c <= 90) \/ (48 <= c /\ c <= 57)
   \/ c = 95)%N.
Proof.
  unfold isWordChar.
  rewrite !orb_true_iff, !andb_true_iff, !N.leb_le, N.eqb_eq. tauto.
Qed.

Lemma Canonicalize_word (c : char) : isWordChar (Canonicalize c) = isWordChar c.
Proof.
  apply eq_true_iff_eq. rewrite !isWordChar_true.
  unfold Canonicalize, asciiUpper.
  destruct (N.ltb_spec c 128).
  - destruct (N.leb_spec 97 c); destruct (N.leb_spec c 122); simpl; lia.
  - cbv zeta. destruct (N.ltb_spec (unicodeUpper c) 128); lia.
Qed.

Lemma matchAt_chr_first a r icase s i y :
  matchAt (mkRegExp (Seq (Chr a) r) icase) s i = Some y ->
  exists cc, nth_error s i = Some cc /\ canon icase cc = canon icase a
             /\ i < endIndex y.
Proof.
  unfold matchAt. simpl. intros H.
  apply step_inv in H as (cc & Hn & Hacc & Hk). simpl in Hn.
  apply matcher_progressive in Hk as (y' & Hy & Hle & _).
  injection Hy as ->. simpl in Hle.
  exists cc. split; [exact Hn|]. split; [now apply N.eqb_eq|lia].
Qed.

(** ** The cleaner *)

Lemma removal_match line i y :
  matchAt WRAPPED_PATTERN_REMOVAL_PATTERN line i = Some y ->
  nth_error line i = Some (ch "@") /\ i < endIndex y.
Proof.
  intros H. apply matchAt_chr_first in H as (cc & Hn & Hc & Hlt).
  apply canon_exact in Hc; [|vm_compute; left; reflexivity].
  subst cc. auto.
Qed.

Lemma html_match line i y :
  matchAt HTML_TAG_PATTERN line i = Some y ->
  nth_error line i = Some (ch "<") /\ i < endIndex y.
Proof.
  intros H. apply matchAt_chr_first in H as (cc & Hn & Hc & Hlt).
  simpl in Hc. subst cc. auto.
Qed.

Lemma cleanLine_length rev line : length (cleanLine rev line) <= length line.
Proof.
  assert (H1 : forall l, length (replace l WRAPPED_PATTERN_REMOVAL_PATTERN [])
                         <= length l).
  { intros l. apply replace_length. intros i y _. simpl. lia. }
  destruct rev; simpl; [apply H1|].
  etransitivity; [|apply H1].
  apply replace_length. intros i y H. apply html_match in H. simpl.
  change (length (GetSubstitution _ (codeUnits " "))) with 1. lia.
Qed.

(** ** Literal patterns *)

Lemma lazyRepeat_ext m ns fuel :
  (forall c1 c2 x, (forall y, c1 y = c2 y) -> m c1 x = m c2 x) ->
  forall c1 c2 x, (forall y, c1 y = c2 y) ->
    lazyRepeat m ns fuel c1 x = lazyRepeat m ns fuel c2 x.
Proof.
  intros Hm. induction fuel as [|fuel IH]; intros c1 c2 x Hc; simpl; rewrite Hc.
  - reflexivity.
  - destruct (c2 x); [reflexivity|]. apply Hm. intros y.
    destruct (endIndex y =? endIndex x); [reflexivity|]. now apply IH.
Qed.

Lemma matcher_ext icase s r : forall c1 c2 x,
  (forall y, c1 y = c2 y) -> matcher icase s r c1 x = matcher icase s r c2 x.
Proof.
  induction r as [|a| |inv cs| |r1 IH1 r2 IH2|r1 IH1 r2 IH2|n r1 IH1|r1 IH1|r1 IH1];
    intros c1 c2 x Hc; simpl; unfold step; try rewrite Hc; try reflexivity.
  - apply IH1. intros y. now apply IH2.
  - rewrite (IH1 c1 c2 x Hc), (IH2 c1 c2 x Hc). reflexivity.
  - apply IH1. intros y. apply Hc.
  - now apply lazyRepeat_ext.
  - apply IH1. intros y. now apply lazyRepeat_ext.
Qed.

Lemma matcher_seqs_app icase s a b c x :
  matcher icase s (seqs (a ++ b)) c x
  = matcher icase s (seqs a) (matcher icase s (seqs b) c) x.
Proof.
  revert c x. induction a as [|r a IH]; intros c x; simpl; [reflexivity|].
  apply matcher_ext. intros y. apply IH.
Qed.

Lemma matcher_lit icase s w : forall c x,
  matcher icase s (seqs (map Chr w)) c x
  = if litMatches icase s w (endIndex x)
    then c (mkState (endIndex x + length w) (captures x)) else None.
Proof.
  induction w as [|a w IH]; intros c x; simpl.
  - rewrite Nat.add_0_r. now destruct x.
  - unfold step. destruct (nth_error s (endIndex x)) as [cc|]; [|reflexivity].
    destruct (canon icase cc =? canon icase a)%N; [|reflexivity]. simpl.
    rewrite IH. simpl. now rewrite Nat.add_succ_r.
Qed.

Lemma litMatches_app icase s w1 w2 i :
  litMatches icase s (w1 ++ w2) i
  = litMatches icase s w1 i && litMatches icase s w2 (i + length w1).
Proof.
  revert i. induction w1 as [|a w1 IH]; intros i; simpl.
  - now rewrite Nat.add_0_r.
  - destruct (nth_error s i) as [cc|]; [|reflexivity].
    rewrite IH, andb_assoc. now rewrite Nat.add_succ_r.
Qed.

Lemma litMatches_bound icase s w i :
  litMatches icase s w i = true -> i + length w <= length s \/ w = [].
Proof.
  revert i. induction w as [|a w IH]; intros i H; [now right|left].
  simpl in H. destruct (nth_error s i) as [cc|] eqn:E; [|discriminate].
  apply andb_true_iff in H as [_ H]. simpl.
  assert (i < length s) by (apply nth_error_Some; congruence).
  destruct (IH _ H) as [Hle| ->]; simpl; lia.
Qed.

Lemma barePattern_match phrase s i :
  matchAt (barePattern phrase) s i
  = if atWordBoundary s i && litMatches true s phrase i
       && atWordBoundary s (i + length phrase)
    then Some (mkState (i + length phrase) []) else None.
Proof.
  unfold matchAt, barePattern. simpl.
  destruct (atWordBoundary s i); [|reflexivity]. simpl.
  rewrite matcher_seqs_app, matcher_lit. simpl.
  destruct (litMatches true s phrase i); reflexivity.
Qed.

(** ** [escapeRegExp] and [new RegExp] *)

Lemma existsb_eqb_sym (c : char) l :
  existsb (fun a => (a =? c)%N) l = existsb (N.eqb c) l.
Proof. induction l; simpl; [reflexivity|]. now rewrite IHl, N.eqb_sym. Qed.

Lemma special_match s i :
  matchAt SPECIAL_CHARACTERS s i
  = match nth_error s i with
    | Some c => if isSyntaxCharacter c then Some (mkState (S i) []) else None
    | None => None
    end.
Proof.
  unfold matchAt, SPECIAL_CHARACTERS, step. simpl pattern. simpl ignoreCase.
  cbn [matcher]. unfold step. simpl endIndex.
  destruct (nth_error s i) as [c|]; [|reflexivity].
  unfold canon. rewrite existsb_eqb_sym. fold (isSyntaxCharacter c).
  destruct (isSyntaxCharacter c); reflexivity.
Qed.

Lemma flat_map_escape_id l :
  (forall c, In c l -> isSyntaxCharacter c = false) -> flat_map escapeChar l = l.
Proof.
  induction l as [|c l IH]; intros H; simpl; [reflexivity|].
  unfold escapeChar at 1. rewrite (H c) by now left. simpl.
  f_equal. apply IH. intros; apply H. now right.
Qed.

Lemma escape_loop s : forall fuel k,
  length s < fuel + k ->
  replaceLoop SPECIAL_CHARACTERS s (codeUnits "\$&") fuel k k
  = flat_map escapeChar (skipn k s).
Proof.
  induction fuel as [|fuel IH]; intros k Hf; simpl.
  - rewrite skipn_all2 by lia. reflexivity.
  - destruct (exec SPECIAL_CHARACTERS s k) as [[j y]|] eqn:E.
    + apply exec_some in E as (Hj & Hm & Hnone & _).
      rewrite special_match in Hm.
      destruct (nth_error s j) as [c|] eqn:Hc; [|discriminate].
      destruct (isSyntaxCharacter c) eqn:Hs; [|discriminate].
      injection Hm as <-. simpl endIndex.
      destruct (S j =? j) eqn:Hz; [apply Nat.eqb_eq in Hz; lia|].
      destruct (j <? k) eqn:Hlt; [apply Nat.ltb_lt in Hlt; lia|].
      rewrite IH by lia.
      rewrite (skipn_slice s k j) by lia.
      rewrite (skipn_nth s j c Hc), flat_map_app.
      remember (skipn (S j) s) as tl. cbn [flat_map].
      rewrite (slice_nth s j (S j) c Hc) by lia. rewrite slice_empty.
      replace (escapeChar c) with [ch "\"; c]
        by (unfold escapeChar; now rewrite Hs).
      rewrite (flat_map_escape_id (slice s k j)); [reflexivity|].
      intros c' Hin. apply in_slice_nth in Hin as (idx & Hidx & Hn).
      specialize (Hnone idx Hidx). rewrite special_match, Hn in Hnone.
      now destruct (isSyntaxCharacter c').
    + symmetry. apply flat_map_escape_id. intros c Hin.
      apply in_skipn_nth in Hin as (j & Hj & Hn).
      assert (Hlen : j < length s) by (apply nth_error_Some; congruence).
      pose proof (proj1 (exec_none _ _ _) E j) as Hnone.
      rewrite special_match, Hn in Hnone.
      destruct (isSyntaxCharacter c); [|reflexivity].
      discriminate Hnone. lia.
Qed.

Lemma escapeRegExp_spec s : escapeRegExp s = flat_map escapeChar s.
Proof. unfold escapeRegExp, replace. now rewrite escape_loop by lia. Qed.

Lemma parseTerms_escaped phrase rest :
  parseTerms (flat_map escapeChar phrase ++ rest)
  = option_map (app (map Chr phrase)) (parseTerms rest).
Proof.
  induction phrase as [|c phrase IH]; simpl.
  - now destruct (parseTerms rest).
  - unfold escapeChar at 1. destruct (isSyntaxCharacter c) eqn:Hs.
    + cbn [app parseTerms]. rewrite N.eqb_refl.
      destruct (N.eqb_spec c (ch "b")) as [->|_]; [discriminate Hs|].
      rewrite Hs, IH. now destruct (parseTerms rest).
    + cbn [app parseTerms].
      destruct (N.eqb_spec c (ch "\")) as [->|_]; [discriminate Hs|].
      rewrite Hs, IH. now destruct (parseTerms rest).
Qed.

(** The phrase is never read as a pattern: whatever its characters, the
    pattern built from it is [\b], the literal phrase, [\b]. *)
Lemma barePhrasePattern_spec phrase :
  barePhrasePattern phrase = Some (barePattern phrase).
Proof.
  unfold barePhrasePattern, newRegExp. rewrite escapeRegExp_spec.
  change (codeUnits "\b" ++ flat_map escapeChar phrase ++ codeUnits "\b")
    with (ch "\" :: ch "b" :: (flat_map escapeChar phrase ++ codeUnits "\b")).
  cbn [parseTerms]. rewrite N.eqb_refl, N.eqb_refl.
  rewrite parseTerms_escaped. reflexivity.
Qed.

(** ** The loops *)

Lemma execLoop_terminates (A : Type) re s (body : nat * MatchState -> A -> A) :
  (forall i y, matchAt re s i = Some y -> i < endIndex y) ->
  forall fuel lastIndex acc, length s - lastIndex < fuel ->
    exists r, execLoop fuel re s lastIndex body acc = Some r.
Proof.
  intros Hne. induction fuel as [|fuel IH]; intros lastIndex acc Hf; [lia|].
  simpl. destruct (exec re s lastIndex) as [[j y]|] eqn:E; [|now exists acc].
  apply exec_some in E as (Hj & Hm & _ & He). apply Hne in Hm.
  apply IH. simpl. lia.
Qed.

Lemma execLoop_invariant (A : Type) (P : A -> Prop) re s
      (body : nat * MatchState -> A -> A) :
  (forall m a, P a -> P (body m a)) ->
  forall fuel lastIndex acc r,
    P acc -> execLoop fuel re s lastIndex body acc = Some r -> P r.
Proof.
  intros Hb. induction fuel as [|fuel IH]; intros lastIndex acc r Hacc H;
    simpl in H; [discriminate|].
  destruct (exec re s lastIndex) as [m|].
  - eapply IH; [|exact H]. now apply Hb.
  - now injection H as <-.
Qed.

(** A loop whose body does the same thing at every match, and nothing new
    the second time, amounts to one test. *)
Lemma execLoop_once (A : Type) re s (f : A -> A) :
  (forall i y, matchAt re s i = Some y -> i < endIndex y) ->
  (forall a, f (f a) = f a) ->
  forall fuel lastIndex acc, length s - lastIndex < fuel ->
    execLoop fuel re s lastIndex (fun _ => f) acc
    = Some (match exec re s lastIndex with Some _ => f acc | None => acc end).
Proof.
  intros Hne Hf. induction fuel as [|fuel IH]; intros lastIndex acc Hfuel; [lia|].
  simpl. destruct (exec re s lastIndex) as [[j y]|] eqn:E; [|reflexivity].
  apply exec_some in E as (Hj & Hm & _ & He). apply Hne in Hm. simpl.
  rewrite IH by lia. rewrite Hf. now destruct (exec re s (endIndex y)).
Qed.

Lemma foldOption_invariant (A St : Type) (P : St -> Prop)
      (body : A -> St -> option St) xs :
  (forall x s s', In x xs -> P s -> body x s = Some s' -> P s') ->
  forall s s', P s -> foldOption xs body s = Some s' -> P s'.
Proof.
  induction xs as [|x xs IH]; intros Hb s s' Hs H; simpl in H.
  - now injection H as <-.
  - destruct (body x s) as [s1|] eqn:E; [|discriminate].
    eapply IH; [| |exact H].
    + intros y t t' Hy. apply Hb. now right.
    + eapply Hb; [now left|exact Hs|exact E].
Qed.

Lemma foldOption_ext (A St : Type) (f g : A -> St -> option St) xs :
  (forall x s, In x xs -> f x s = g x s) ->
  forall s, foldOption xs f s = foldOption xs g s.
Proof.
  induction xs as [|x xs IH]; intros H s; simpl; [reflexivity|].
  rewrite (H x s) by now left. destruct (g x s); [|reflexivity].
  apply IH. intros y t Hy. apply H. now right.
Qed.

Lemma foldOption_total (A St : Type) (body : A -> St -> option St) xs :
  (forall x s, In x xs -> exists s', body x s = Some s') ->
  forall s, exists s', foldOption xs body s = Some s'.
Proof.
  induction xs as [|x xs IH]; intros H s; simpl; [now exists s|].
  destruct (H x s) as [s1 ->]; [now left|].
  apply IH. intros y t Hy. apply H. now right.
Qed.

Lemma forOf_ext (A St : Type) (f g : A -> St -> Proc St) xs :
  (forall x s k, f x s k = g x s k) ->
  forall s k, forOf xs f s k = forOf xs g s k.
Proof.
  intros H. induction xs as [|x xs IH]; intros s k; simpl; [reflexivity|].
  unfold bind. rewrite H. destruct (g x s k) as [[k' [s'| |]]|]; auto.
Qed.

Lemma forOf_lift (A St : Type) (body : A -> St -> option St) xs : forall s k,
  forOf xs (fun x s => lift (body x s)) s k = lift (foldOption xs body s) k.
Proof.
  induction xs as [|x xs IH]; intros s k; simpl; [reflexivity|].
  unfold bind, lift at 1. destruct (body x s) as [s'|]; [apply IH|reflexivity].
Qed.

Lemma forAwait_lift (St : Type) (body : str -> St -> option St) rl s k :
  forAwait rl (fun x s => lift (body x s)) s k
  = match foldOption (streamLines rl) body s with
    | None => None
    | Some s' =>
        match streamError rl with
        | Some msg => Some (k, Throw msg)
        | None => Some (k, Normal s')
        end
    end.
Proof.
  unfold forAwait, bind. rewrite forOf_lift. unfold lift.
  destruct (foldOption (streamLines rl) body s); [|reflexivity].
  now destruct (streamError rl).
Qed.

Lemma searchPhrase_pure fuel cleanedLine lineNumber phrase occ k :
  searchPhrase fuel cleanedLine lineNumber phrase occ k
  = lift (searchPhrasePure fuel cleanedLine lineNumber phrase occ) k.
Proof. unfold searchPhrase. now rewrite barePhrasePattern_spec. Qed.

Lemma scanLine_pure rev fuel known line st k :
  scanLine rev fuel known line st k = lift (scanLinePure rev fuel known line st) k.
Proof.
  unfold scanLine, scanLinePure, bind.
  rewrite (forOf_ext _ _ _ (fun p occ =>
             lift (searchPhrasePure fuel (cleanLine rev line) (S (fst st)) p occ)))
    by (intros; apply searchPhrase_pure).
  rewrite forOf_lift. unfold lift.
  now destruct (foldOption known _ (snd st)).
Qed.

Lemma collectKnownPhrases_spec fuel rl k :
  collectKnownPhrases fuel rl k
  = match passOne fuel (streamLines rl) with
    | None => None
    | Some known =>
        match streamError rl with
        | Some msg => Some (k, Throw msg)
        | None => Some (k, Normal known)
        end
    end.
Proof. unfold collectKnownPhrases. apply forAwait_lift. Qed.

Lemma searchUnwrapped_spec rev fuel known rl k :
  searchUnwrapped rev fuel known rl k
  = match passTwo rev fuel known (streamLines rl) with
    | None => None
    | Some st =>
        match streamError rl with
        | Some msg => Some (k, Throw msg)
        | None => Some (k, Normal (snd st))
        end
    end.
Proof.
  unfold searchUnwrapped, bind, forAwait, bind.
  rewrite (forOf_ext _ _ _ (fun line st => lift (scanLinePure rev fuel known line st)))
    by (intros; apply scanLine_pure).
  rewrite forOf_lift. unfold lift, passTwo.
  destruct (foldOption (streamLines rl) (scanLinePure rev fuel known) (0, []));
    [|reflexivity].
  now destruct (streamError rl).
Qed.

(** The whole of [findUnwrappedPhraseOccurrences] on a path that exists. *)
Lemma findUnwrapped_spec rev fuel fs path k :
  existsSync fs path = true ->
  findUnwrappedPhraseOccurrences rev fuel fs path k
  = let k1 := k ++ [(Stdout, msgPass1)] in
    match passOne fuel (streamLines (createReadStream fs path 0)) with
    | None => None
    | Some known =>
        match streamError (createReadStream fs path 0) with
        | Some msg => Some (k1 ++ [(Stderr, msgUnexpected path msg)], Exit 1)
        | None =>
            let k2 := k1 ++ [(Stdout, msgFound (length known))] in
            if length known =? 0 then
              Some (k2 ++ [(Stdout, msgNothingToMonitor)], Normal [])
            else
              let k3 := k2 ++ [(Stdout, pass2Announcement rev)] in
              match passTwo rev fuel known
                            (streamLines (createReadStream fs path 1)) with
              | None => None
              | Some st =>
                  match streamError (createReadStream fs path 1) with
                  | Some msg =>
                      Some (k3 ++ [(Stderr, msgUnexpected path msg)], Exit 1)
                  | None => Some (k3, Normal (snd st))
                  end
              end
        end
    end.
Proof.
  intros Hex. unfold findUnwrappedPhraseOccurrences, tryCatch, bind.
  rewrite Hex. cbn [negb]. unfold ret, consoleLog, consoleError, processExit.
  cbv beta iota. rewrite collectKnownPhrases_spec.
  destruct (passOne fuel _) as [known|]; [|reflexivity].
  destruct (streamError (createReadStream fs path 0)); [reflexivity|].
  destruct (length known =? 0); [reflexivity|].
  rewrite searchUnwrapped_spec.
  destruct (passTwo rev fuel known _) as [st|]; [|reflexivity].
  destruct (streamError (createReadStream fs path 1)); reflexivity.
Qed.

Lemma scanDocument_spec rev fuel doc :
  scanDocument rev fuel doc
  = match passOne fuel doc with
    | None => None
    | Some known =>
        if length known =? 0 then Some (Normal [])
        else option_map (fun st => Normal (snd st)) (passTwo rev fuel known doc)
    end.
Proof.
  unfold scanDocument, result. rewrite findUnwrapped_spec by reflexivity.
  simpl. destruct (passOne fuel doc) as [known|]; [|reflexivity].
  destruct (length known =? 0); [reflexivity|].
  now destruct (passTwo rev fuel known doc).
Qed.

Lemma knownPhrases_spec fuel doc :
  knownPhrases fuel doc = option_map Normal (passOne fuel doc).
Proof.
  unfold knownPhrases, result. rewrite collectKnownPhrases_spec. simpl.
  now destruct (passOne fuel doc).
Qed.

(** ** The map *)

Lemma strEqb_eq a b : strEqb a b = true <-> a = b.
Proof.
  unfold strEqb. destruct (list_eq_dec N.eq_dec a b); split; congruence.
Qed.

Lemma strEqb_refl a : strEqb a a = true.
Proof. now apply strEqb_eq. Qed.

Lemma mapGet_In m k v : mapGet m k = Some v -> In (k, v) m.
Proof.
  induction m as [|[k' v'] m IH]; simpl; [discriminate|].
  destruct (strEqb k k') eqn:E.
  - apply strEqb_eq in E as ->. intros [= ->]. now left.
  - intros H. right. auto.
Qed.

Lemma mapGet_None m k : mapGet m k = None -> ~ In k (mapKeys m).
Proof.
  induction m as [|[k' v'] m IH]; simpl; [tauto|].
  destruct (strEqb k k') eqn:E; [discriminate|].
  intros H [->|Hin]; [now rewrite strEqb_refl in E|now apply IH].
Qed.

Lemma mapSet_absent m k v : mapGet m k = None -> mapSet m k v = m ++ [(k, v)].
Proof.
  induction m as [|[k' v'] m IH]; simpl; [reflexivity|].
  destruct (strEqb k k'); [discriminate|]. intros H. now rewrite IH.
Qed.

Lemma mapSet_last m k w v :
  mapGet m k = None -> mapSet (m ++ [(k, w)]) k v = m ++ [(k, v)].
Proof.
  induction m as [|[k' v'] m IH]; simpl.
  - now rewrite strEqb_refl.
  - destruct (strEqb k k'); [discriminate|]. intros H. now rewrite IH.
Qed.

Lemma mapGet_last m k v : mapGet m k = None -> mapGet (m ++ [(k, v)]) k = Some v.
Proof.
  induction m as [|[k' v'] m IH]; simpl.
  - now rewrite strEqb_refl.
  - destruct (strEqb k k'); [discriminate|]. exact IH.
Qed.

Lemma mapGet_mapSet m k w v :
  mapGet m k = Some w -> mapGet (mapSet m k v) k = Some v.
Proof.
  induction m as [|[k' v'] m IH]; simpl; [discriminate|].
  destruct (strEqb k k') eqn:E; simpl; rewrite E; auto.
Qed.

Lemma mapKeys_mapSet m k w v :
  mapGet m k = Some w -> mapKeys (mapSet m k v) = mapKeys m.
Proof.
  induction m as [|[k' v'] m IH]; simpl; [discriminate|].
  destruct (strEqb k k') eqn:E; simpl; [reflexivity|].
  intros H. now rewrite IH.
Qed.

Lemma In_mapSet m k v p l :
  In (p, l) (mapSet m k v) -> (p = k /\ l = v) \/ In (p, l) m.
Proof.
  induction m as [|[k' v'] m IH]; simpl.
  - intros [[= <- <-]|[]]. now left.
  - destruct (strEqb k k') eqn:E; simpl.
    + apply strEqb_eq in E as <-. intros [[= <- <-]|H]; auto.
    + intros [H|H]; [auto|]. destruct (IH H); auto.
Qed.

Lemma lastElement_snoc l x : lastElement (l ++ [x]) = Some x.
Proof. unfold lastElement. now rewrite rev_unit. Qed.

Lemma lastElement_inv l x : lastElement l = Some x -> exists l', l = l' ++ [x].
Proof.
  unfold lastElement. destruct (rev l) as [|y r] eqn:E; [discriminate|].
  intros [= ->]. exists (rev r). rewrite <- (rev_involutive l), E. reflexivity.
Qed.

Lemma lastElement_None l : lastElement l = None -> l = [].
Proof.
  unfold lastElement. destruct (rev l) eqn:E; [|discriminate].
  intros _. rewrite <- (rev_involutive l), E. reflexivity.
Qed.

(** ** [recordMatch] *)

Lemma recordMatch_spec phrase n occ :
  recordMatch phrase n occ
  = match mapGet occ phrase with
    | None => occ ++ [(phrase, [n])]
    | Some existing =>
        match lastElement existing with
        | Some x => if x =? n then occ else mapSet occ phrase (existing ++ [n])
        | None => mapSet occ phrase (existing ++ [n])
        end
    end.
Proof.
  unfold recordMatch, mapHas. destruct (mapGet occ phrase) as [existing|] eqn:E.
  - rewrite E. reflexivity.
  - rewrite (mapSet_absent occ phrase [] E), (mapGet_last occ phrase [] E).
    simpl. apply mapSet_last, E.
Qed.

Lemma recordMatch_last phrase n occ :
  exists l, mapGet (recordMatch phrase n occ) phrase = Some l
            /\ lastElement l = Some n.
Proof.
  rewrite recordMatch_spec. destruct (mapGet occ phrase) as [existing|] eqn:E.
  - destruct (lastElement existing) as [x|] eqn:L.
    + destruct (Nat.eqb_spec x n) as [->|_].
      * now exists existing.
      * exists (existing ++ [n]).
        split; [eapply mapGet_mapSet, E|apply lastElement_snoc].
    + exists (existing ++ [n]).
      split; [eapply mapGet_mapSet, E|apply lastElement_snoc].
  - exists [n]. split; [now apply mapGet_last|reflexivity].
Qed.

Lemma recordMatch_idempotent phrase n occ :
  recordMatch phrase n (recordMatch phrase n occ) = recordMatch phrase n occ.
Proof.
  destruct (recordMatch_last phrase n occ) as (l & Hg & Hl).
  rewrite (recordMatch_spec phrase n (recordMatch phrase n occ)), Hg, Hl.
  now rewrite Nat.eqb_refl.
Qed.

Lemma sorted_snoc l n :
  StronglySorted lt l -> Forall (fun y => y < n) l -> StronglySorted lt (l ++ [n]).
Proof.
  induction 1 as [|a l Hs IH Ha]; intros Hf; simpl.
  - constructor; constructor.
  - inversion Hf as [|? ? Han Hf']; subst. constructor; [now apply IH|].
    apply Forall_app. split; [exact Ha|]. now constructor.
Qed.

Lemma sorted_snoc_inv l x :
  StronglySorted lt (l ++ [x]) -> Forall (fun y => y < x) l.
Proof.
  induction l as [|a l IH]; simpl; intros H; [constructor|].
  inversion H as [|? ? Hs Ha]; subst. constructor; [|now apply IH].
  apply Forall_app in Ha as [_ Ha]. now inversion Ha.
Qed.

Lemma sorted_NoDup l : StronglySorted lt l -> NoDup l.
Proof.
  induction 1 as [|a l Hs IH Ha]; constructor; [|exact IH].
  intros Hin. rewrite Forall_forall in Ha. specialize (Ha a Hin). lia.
Qed.

Lemma linesUpTo_weaken n m ls : n <= m -> linesUpTo n ls -> linesUpTo m ls.
Proof.
  intros Hle (Hs & Hb & Hne). repeat split; auto.
  eapply Forall_impl; [|exact Hb]. simpl. intros; lia.
Qed.

Lemma linesUpTo_push n existing :
  1 <= n -> linesUpTo n existing -> lastElement existing <> Some n ->
  linesUpTo n (existing ++ [n]).
Proof.
  intros Hn (Hs & Hb & Hne) Hlast.
  destruct (lastElement existing) as [x|] eqn:L;
    [|apply lastElement_None in L; contradiction].
  apply lastElement_inv in L as (l' & ->).
  assert (Hx : x < n).
  { apply Forall_app in Hb as [_ Hb]. inversion Hb; subst.
    assert (x <> n) by congruence. lia. }
  pose proof (sorted_snoc_inv _ _ Hs) as Hl'.
  repeat split.
  - apply sorted_snoc; [exact Hs|]. apply Forall_app. split.
    + eapply Forall_impl; [|exact Hl']. simpl. intros; lia.
    + now constructor.
  - apply Forall_app. split; [exact Hb|]. constructor; [lia|constructor].
  - now destruct (l' ++ [x]).
Qed.

Lemma recordMatch_ok known n phrase occ :
  In phrase known -> 1 <= n -> recordOk known n occ ->
  recordOk known n (recordMatch phrase n occ).
Proof.
  intros Hk Hn [Hnd Hall]. rewrite recordMatch_spec.
  destruct (mapGet occ phrase) as [existing|] eqn:E.
  - assert (Hex : linesUpTo n existing) by (apply (Hall phrase), mapGet_In, E).
    assert (Hpush : lastElement existing <> Some n ->
                    recordOk known n (mapSet occ phrase (existing ++ [n]))).
    { intros Hlast. split.
      - now rewrite (mapKeys_mapSet occ phrase existing).
      - intros p l Hin. apply In_mapSet in Hin as [[-> ->]|Hin]; [|auto].
        split; [exact Hk|]. now apply linesUpTo_push. }
    destruct (lastElement existing) as [x|] eqn:L.
    + destruct (Nat.eqb_spec x n) as [->|Hne]; [now split|].
      apply Hpush. congruence.
    + apply Hpush. discriminate.
  - split.
    + unfold mapKeys. rewrite map_app. simpl.
      apply NoDup_app; [exact Hnd| |].
      * constructor; [intros []|constructor].
      * intros x Hx [<-|[]]. now apply (mapGet_None occ phrase E).
    + intros p l Hin. apply in_app_or in Hin as [Hin|[[= <- <-]|[]]]; [auto|].
      split; [exact Hk|]. repeat split.
      * repeat constructor.
      * repeat constructor; lia.
      * discriminate.
Qed.

(** ** Pass 2 keeps the record in order *)

Lemma searchPhrasePure_ok known fuel cleaned n phrase occ occ' :
  In phrase known -> 1 <= n -> recordOk known n occ ->
  searchPhrasePure fuel cleaned n phrase occ = Some occ' ->
  recordOk known n occ'.
Proof.
  intros Hk Hn Hok H. unfold searchPhrasePure in H.
  eapply execLoop_invariant; [|exact Hok|exact H].
  intros m a Ha. now apply recordMatch_ok.
Qed.

Lemma scanLinePure_ok rev fuel known line n occ st' :
  recordOk known n occ ->
  scanLinePure rev fuel known line (n, occ) = Some st' ->
  fst st' = S n /\ recordOk known (S n) (snd st').
Proof.
  intros [Hnd Hall] H. unfold scanLinePure in H. simpl in H.
  destruct (foldOption known _ occ) as [occ'|] eqn:E; [|discriminate].
  injection H as <-. simpl. split; [reflexivity|].
  eapply (foldOption_invariant _ _ (recordOk known (S n))); [| |exact E].
  - intros p a a' Hp Ha Hs.
    eapply searchPhrasePure_ok; [exact Hp|lia|exact Ha|exact Hs].
  - split; [exact Hnd|]. intros p l Hin. destruct (Hall p l Hin) as [Hp Hl].
    split; [exact Hp|]. eapply linesUpTo_weaken; [|exact Hl]. lia.
Qed.

Lemma passTwo_ok rev fuel known lines : forall n occ st',
  recordOk known n occ ->
  foldOption lines (scanLinePure rev fuel known) (n, occ) = Some st' ->
  fst st' = n + length lines /\ recordOk known (n + length lines) (snd st').
Proof.
  induction lines as [|line lines IH]; intros n occ st' Hok H; simpl in H.
  - injection H as <-. simpl. now rewrite Nat.add_0_r.
  - destruct (scanLinePure rev fuel known line (n, occ)) as [[n1 occ1]|] eqn:E;
      [|discriminate].
    apply scanLinePure_ok in E as [Hn1 Hok1]; [|exact Hok]. simpl in Hn1, Hok1.
    subst n1. apply IH in H; [|exact Hok1].
    simpl. now rewrite Nat.add_succ_r.
Qed.

Lemma recordOk_empty known n : recordOk known n [].
Proof. split; [constructor|intros ? ? []]. Qed.

(** What holds of every record the scan returns. *)
Lemma scanDocument_ok rev fuel doc occ :
  scanDocument rev fuel doc = Some (Normal occ) ->
  exists known, knownPhrases fuel doc = Some (Normal known)
                /\ recordOk known (length doc) occ.
Proof.
  rewrite scanDocument_spec, knownPhrases_spec.
  destruct (passOne fuel doc) as [known|]; [|discriminate].
  intros H. exists known. split; [reflexivity|].
  destruct (length known =? 0).
  - injection H as <-. apply recordOk_empty.
  - destruct (passTwo rev fuel known doc) as [st|] eqn:E; [|discriminate].
    injection H as <-. apply passTwo_ok in E as [_ E]; [exact E|].
    apply recordOk_empty.
Qed.

(** ** Whole words *)

Lemma litMatches_shift icase pre s w i :
  litMatches icase (pre ++ s) w (length pre + i) = litMatches icase s w i.
Proof.
  revert i. induction w as [|a w IH]; intros i; simpl; [reflexivity|].
  rewrite nth_error_app2 by lia.
  replace (length pre + i - length pre) with i by lia.
  destruct (nth_error s i); [|reflexivity].
  now rewrite <- Nat.add_succ_r, IH.
Qed.

Lemma litMatches_head icase w post p :
  length w = length p ->
  (litMatches icase (w ++ post) p 0 = true
   <-> map (canon icase) w = map (canon icase) p).
Proof.
  revert p. induction w as [|c w IH]; intros [|a p] Hlen; simpl in Hlen;
    try discriminate.
  - simpl. tauto.
  - injection Hlen as Hlen. simpl.
    change (litMatches icase (c :: w ++ post) p 1)
      with (litMatches icase ([c] ++ (w ++ post)) p (length [c] + 0)).
    rewrite litMatches_shift, andb_true_iff, N.eqb_eq, (IH p Hlen).
    split; [intros [-> ->]; reflexivity|intros [= -> ->]; auto].
Qed.

Lemma litMatches_decomp icase pre w post p :
  length w = length p ->
  (litMatches icase (pre ++ w ++ post) p (length pre) = true
   <-> map (canon icase) w = map (canon icase) p).
Proof.
  intros Hlen. rewrite <- (Nat.add_0_r (length pre)), litMatches_shift.
  now apply litMatches_head.
Qed.

Lemma wordCharBefore_app pre rest :
  wordCharBefore (pre ++ rest) (length pre)
  = match lastChar pre with Some c => isWordChar c | None => false end.
Proof.
  unfold lastChar. destruct (rev pre) as [|c r] eqn:E.
  - rewrite <- (rev_involutive pre), E. reflexivity.
  - assert (Hp : pre = rev r ++ [c])
      by (rewrite <- (rev_involutive pre), E; reflexivity).
    subst pre. rewrite length_app, Nat.add_comm. simpl.
    unfold wordCharAt. rewrite <- app_assoc, nth_error_app2 by lia.
    now rewrite Nat.sub_diag.
Qed.

Lemma wordCharAt_app pre rest :
  wordCharAt (pre ++ rest) (length pre)
  = match head rest with Some c => isWordChar c | None => false end.
Proof.
  unfold wordCharAt. rewrite nth_error_app2, Nat.sub_diag by lia.
  now destruct rest.
Qed.

Lemma ciEqual_length w p : ciEqual w p -> length w = length p.
Proof.
  intros H. apply (f_equal (@length char)) in H. now rewrite !length_map in H.
Qed.

Lemma ciEqual_head w p :
  ciEqual w p ->
  match head w, head p with
  | Some c, Some a => isWordChar c = isWordChar a
  | None, None => True
  | _, _ => False
  end.
Proof.
  unfold ciEqual. destruct w as [|c w], p as [|a p]; simpl; try discriminate; auto.
  intros [= H _]. now rewrite <- (Canonicalize_word c), H, Canonicalize_word.
Qed.

Lemma ciEqual_last w p :
  ciEqual w p ->
  match lastChar w, lastChar p with
  | Some c, Some a => isWordChar c = isWordChar a
  | None, None => True
  | _, _ => False
  end.
Proof.
  unfold ciEqual, lastChar. intros H.
  apply (f_equal (@rev char)) in H. rewrite <- !map_rev in H.
  destruct (rev w) as [|c w'], (rev p) as [|a p']; simpl in H;
    try discriminate; auto.
  injection H as H _. now rewrite <- (Canonicalize_word c), H, Canonicalize_word.
Qed.

(** The pattern of a phrase at the place of a candidate [w]. *)
Lemma barePattern_at pre w post phrase :
  wordEdged phrase = true -> length w = length phrase ->
  (matchAt (barePattern phrase) (pre ++ w ++ post) (length pre) <> None
   <-> ciEqual w phrase /\ edgeOrNonWord (lastChar pre)
       /\ edgeOrNonWord (head post)).
Proof.
  intros Hedge Hlen. rewrite barePattern_match.
  pose proof (litMatches_decomp true pre w post phrase Hlen) as Hlit.
  change (map (canon true) w = map (canon true) phrase)
    with (ciEqual w phrase) in Hlit.
  destruct (litMatches true (pre ++ w ++ post) phrase (length pre)) eqn:L.
  - assert (Hci : ciEqual w phrase) by now apply Hlit.
    pose proof (ciEqual_head _ _ Hci) as Hh.
    pose proof (ciEqual_last _ _ Hci) as Hl.
    unfold wordEdged in Hedge.
    destruct (head phrase) as [a|]; [|discriminate].
    destruct (lastChar phrase) as [z|]; [|discriminate].
    apply andb_true_iff in Hedge as [Ha Hz].
    destruct (head w) as [c|] eqn:Hc; [|contradiction].
    destruct (lastChar w) as [d|] eqn:Hd; [|contradiction].
    unfold atWordBoundary.
    rewrite wordCharBefore_app, wordCharAt_app.
    rewrite <- Hlen, app_assoc, <- length_app.
    rewrite wordCharBefore_app, wordCharAt_app.
    replace (head (w ++ post)) with (Some c) by (now destruct w).
    replace (lastChar (pre ++ w)) with (Some d).
    2:{ unfold lastChar in *. rewrite rev_app_distr.
        destruct (rev w); [discriminate|]. simpl. congruence. }
    rewrite Hh, Ha, Hl, Hz. unfold edgeOrNonWord.
    destruct (lastChar pre) as [x|]; destruct (head post) as [y|]; simpl;
      try destruct (isWordChar x); try destruct (isWordChar y); simpl;
      intuition congruence.
  - rewrite andb_false_r. simpl. split; [congruence|].
    intros [Hci _]. apply Hlit in Hci. discriminate.
Qed.

Lemma occurrence_iff_match phrase s :
  wordEdged phrase = true ->
  (wholeWordOccurrence phrase s
   <-> exists j, j <= length s /\ matchAt (barePattern phrase) s j <> None).
Proof.
  intros Hedge. split.
  - intros (pre & w & post & -> & Hci & Hl & Hr). exists (length pre). split.
    + rewrite length_app. lia.
    + apply barePattern_at; auto using ciEqual_length.
  - intros (j & Hj & Hm).
    assert (Hbound : j + length phrase <= length s).
    { rewrite barePattern_match in Hm.
      destruct (litMatches true s phrase j) eqn:L.
      - apply litMatches_bound in L as [L| ->]; [exact L|discriminate Hedge].
      - rewrite andb_false_r in Hm. simpl in Hm. congruence. }
    assert (Hs : s = firstn j s ++ slice s j (j + length phrase)
                            ++ skipn (j + length phrase) s).
    { rewrite <- skipn_slice by lia. symmetry. apply firstn_skipn. }
    assert (Hpre : length (firstn j s) = j) by (rewrite length_firstn; lia).
    assert (Hw : length (slice s j (j + length phrase)) = length phrase)
      by (rewrite slice_length; lia).
    remember (firstn j s) as pre. remember (slice s j (j + length phrase)) as w.
    remember (skipn (j + length phrase) s) as post.
    exists pre, w, post. split; [exact Hs|].
    rewrite Hs, <- Hpre in Hm.
    apply barePattern_at in Hm; [exact Hm|exact Hedge|exact Hw].
Qed.

Lemma barePattern_nonempty phrase s i y :
  phrase <> [] -> matchAt (barePattern phrase) s i = Some y -> i < endIndex y.
Proof.
  intros Hne. rewrite barePattern_match.
  destruct (_ && _ && _); [|discriminate]. intros [= <-]. simpl.
  destruct phrase; [contradiction|simpl; lia].
Qed.

Lemma wordEdged_nonempty phrase : wordEdged phrase = true -> phrase <> [].
Proof. now intros H ->. Qed.

(** The inner loop on a phrase that is not empty. *)
Lemma searchPhrasePure_spec fuel cleaned n phrase occ :
  phrase <> [] -> length cleaned < fuel ->
  searchPhrasePure fuel cleaned n phrase occ
  = Some (match exec (barePattern phrase) cleaned 0 with
          | Some _ => recordMatch phrase n occ
          | None => occ
          end).
Proof.
  intros Hne Hf. unfold searchPhrasePure. apply execLoop_once.
  - intros i y. now apply barePattern_nonempty.
  - apply recordMatch_idempotent.
  - lia.
Qed.

(** ** Lazy repetition of a one-character pattern *)

Lemma succ_eqb_false n : (S n =? n) = false.
Proof. apply Nat.eqb_neq. lia. Qed.

Lemma lazyRepeat_step_inv s accept ns fuel : forall c x z,
  lazyRepeat (step s accept) ns fuel c x = Some z ->
  exists y, c y = Some z /\ endIndex x <= endIndex y
            /\ forall j, endIndex x <= j < endIndex y ->
                 exists cc, nth_error s j = Some cc /\ accept cc = true.
Proof.
  induction fuel as [|fuel IH]; intros c x z H; simpl in H.
  - destruct (c x) eqn:E; [|discriminate]. exists x. rewrite E.
    split; [exact H|]. split; [lia|]. intros; lia.
  - destruct (c x) eqn:E.
    + exists x. rewrite E. split; [exact H|]. split; [lia|]. intros; lia.
    + apply step_inv in H as (cc & Hn & Hacc & Hk).
      change (endIndex (clearCaptures ns x)) with (endIndex x) in Hn.
      change (endIndex (advance (clearCaptures ns x)))
        with (S (endIndex x)) in Hk.
      rewrite succ_eqb_false in Hk.
      apply IH in Hk as (y & Hy & Hle & Hall). simpl in Hle, Hall.
      exists y. split; [exact Hy|]. split; [lia|].
      intros j Hj. destruct (Nat.eq_dec j (endIndex x)) as [->|Hne].
      * now exists cc.
      * apply Hall. lia.
Qed.

Lemma lazyRepeat_step_complete s accept ns c e : forall fuel x,
  endIndex x <= e -> e - endIndex x <= fuel ->
  (forall j, endIndex x <= j < e ->
     exists cc, nth_error s j = Some cc /\ accept cc = true) ->
  (forall y, endIndex y = e -> c y <> None) ->
  lazyRepeat (step s accept) ns fuel c x <> None.
Proof.
  induction fuel as [|fuel IH]; intros x Hle Hf Hall Hc; simpl.
  - assert (He : endIndex x = e) by lia.
    specialize (Hc x He). now destruct (c x).
  - destruct (c x) eqn:E; [discriminate|].
    destruct (Nat.eq_dec (endIndex x) e) as [He|Hne];
      [now apply Hc in He|].
    destruct (Hall (endIndex x)) as (cc & Hn & Hacc); [lia|].
    unfold step. change (endIndex (clearCaptures ns x)) with (endIndex x).
    rewrite Hn, Hacc.
    change (endIndex (advance (clearCaptures ns x))) with (S (endIndex x)).
    rewrite succ_eqb_false. apply IH; simpl; try lia; auto.
    intros j Hj. apply Hall. lia.
Qed.

Lemma litMatches_slice icase s p : forall i,
  litMatches icase s p i = true ->
  map (canon icase) (slice s i (i + length p)) = map (canon icase) p.
Proof.
  induction p as [|a p IH]; intros i H; simpl in *.
  - now rewrite Nat.add_0_r, slice_empty.
  - destruct (nth_error s i) as [cc|] eqn:E; [|discriminate].
    apply andb_true_iff in H as [Hc H]. apply N.eqb_eq in Hc.
    rewrite (slice_nth s i (i + S (length p)) cc E) by lia.
    simpl. rewrite Hc, Nat.add_succ_r. f_equal. now apply IH.
Qed.

Lemma Forall_slice (P : char -> Prop) s a e :
  (forall j, a <= j < e -> exists cc, nth_error s j = Some cc /\ P cc) ->
  Forall P (slice s a e).
Proof.
  intros H. apply Forall_forall. intros c Hin.
  apply in_slice_nth in Hin as (j & Hj & Hn).
  destruct (H j Hj) as (cc & Hn' & Hp). congruence.
Qed.

Lemma nth_error_decomp (pre : str) c rest :
  nth_error (pre ++ c :: rest) (length pre) = Some c.
Proof. now rewrite nth_error_app2, Nat.sub_diag by lia. Qed.

(** ** The annotation pattern *)

Lemma extraction_unfold s i :
  matchAt WRAPPED_PHRASE_EXTRACTION_PATTERN s i
  = if litMatches true s (codeUnits "@[") i then
      let x := mkState (i + 2) [] in
      let k := matcher true s (seqs payloadTail) Some in
      match (if litMatches true s (codeUnits "static") (i + 2)
             then k (mkState (i + 2 + 6) []) else None) with
      | Some z => Some z
      | None =>
          if litMatches true s (codeUnits "static-header") (i + 2)
          then k (mkState (i + 2 + 13) []) else None
      end
    else None.
Proof.
  unfold matchAt, WRAPPED_PHRASE_EXTRACTION_PATTERN.
  cbn [pattern ignoreCase].
  change (seqs [Chr (ch "@"); Chr (ch "[");
                Alt (lit "static") (lit "static-header");
                Chr (ch "#"); Group 1 (LazyStar Dot); Chr (ch "]")])
    with (seqs (map Chr (codeUnits "@[")
                ++ [Alt (lit "static") (lit "static-header")] ++ payloadTail)).
  rewrite matcher_seqs_app, matcher_lit. cbn [endIndex captures].
  destruct (litMatches true s (codeUnits "@[") i); [|reflexivity].
  rewrite matcher_seqs_app.
  change (length (codeUnits "@[")) with 2.
  change (seqs [Alt (lit "static") (lit "static-header")])
    with (Seq (Alt (lit "static") (lit "static-header")) Empty).
  cbn [matcher]. unfold lit. rewrite !matcher_lit. reflexivity.
Qed.

Lemma payloadTail_inv s x z :
  matcher true s (seqs payloadTail) Some x = Some z ->
  exists e, S (endIndex x) <= e
    /\ nth_error s (endIndex x) = Some (ch "#")
    /\ (forall j, S (endIndex x) <= j < e ->
          exists cc, nth_error s j = Some cc /\ isLineTerminator cc = false)
    /\ nth_error s e = Some (ch "]")
    /\ endIndex z = S e
    /\ getCapture 1 z = Some (S (endIndex x), e).
Proof.
  unfold payloadTail. cbn [seqs fold_right matcher]. intros H.
  apply step_inv in H as (c1 & Hn1 & Hc1 & H).
  apply N.eqb_eq, canon_exact in Hc1; [|vm_compute; left; reflexivity].
  subst c1. cbn [groupsOf] in H.
  apply lazyRepeat_step_inv in H as (y & H & Hle & Hdots).
  apply step_inv in H as (c2 & Hn2 & Hc2 & H).
  apply N.eqb_eq, canon_exact in Hc2;
    [|vm_compute; right; left; split; reflexivity].
  subst c2. injection H as <-. simpl in *.
  exists (endIndex y). repeat split; auto.
  intros j Hj. destruct (Hdots j Hj) as (cc & Hn & Hacc).
  exists cc. split; [exact Hn|]. now apply negb_true_iff.
Qed.

Lemma payloadTail_complete s x e :
  S (endIndex x) <= e ->
  nth_error s (endIndex x) = Some (ch "#") ->
  (forall j, S (endIndex x) <= j < e ->
     exists cc, nth_error s j = Some cc /\ isLineTerminator cc = false) ->
  nth_error s e = Some (ch "]") ->
  matcher true s (seqs payloadTail) Some x <> None.
Proof.
  intros Hle Hhash Hdots Hclose.
  unfold payloadTail. cbn [seqs fold_right matcher]. unfold step at 1.
  rewrite Hhash. rewrite N.eqb_refl. cbn [groupsOf].
  assert (Hlen : e < length s) by (apply nth_error_Some; congruence).
  apply lazyRepeat_step_complete with (e := e); simpl; try lia.
  - intros j Hj. destruct (Hdots j Hj) as (cc & Hn & Hlt).
    exists cc. split; [exact Hn|]. now apply negb_true_iff.
  - intros y Hy. unfold step. simpl. rewrite Hy, Hclose, N.eqb_refl.
    discriminate.
Qed.

Lemma litMatches_hash s i :
  litMatches true s [ch "#"] i = true <-> nth_error s i = Some (ch "#").
Proof.
  simpl. destruct (nth_error s i) as [cc|]; [|split; discriminate].
  rewrite andb_true_r, N.eqb_eq. split.
  - intros H. apply (canon_exact true) in H; [congruence|].
    vm_compute. left. reflexivity.
  - now intros [= ->].
Qed.

(** A match with keyword [kw] shows an annotation in the line. *)
Lemma annotation_of_keyword s i kw z :
  litMatches true s (codeUnits "@[") i = true ->
  litMatches true s kw (i + 2) = true ->
  matcher true s (seqs payloadTail) Some (mkState (i + 2 + length kw) []) = Some z ->
  exists pre marker payload post,
    s = pre ++ marker ++ payload ++ [ch "]"] ++ post
    /\ ciEqual marker (codeUnits "@[" ++ kw ++ [ch "#"])
    /\ Forall (fun c => isLineTerminator c = false) payload.
Proof.
  intros H1 H2 H3.
  apply payloadTail_inv in H3 as (e & Hle & Hhash & Hdots & Hclose & _).
  cbn [endIndex] in *.
  set (mp := codeUnits "@[" ++ kw ++ [ch "#"]).
  assert (Hmp : litMatches true s mp i = true).
  { unfold mp. rewrite !litMatches_app, H1. simpl length. rewrite H2.
    simpl andb. apply litMatches_hash. exact Hhash. }
  assert (Hlen : i + length mp = S (i + 2 + length kw)).
  { unfold mp. rewrite !length_app. simpl. lia. }
  assert (He : e < length s) by (apply nth_error_Some; congruence).
  exists (firstn i s), (slice s i (i + length mp)),
         (slice s (i + length mp) e), (skipn (S e) s).
  split; [|split].
  - change ([ch "]"] ++ skipn (S e) s) with (ch "]" :: skipn (S e) s).
    rewrite <- (skipn_nth s e _ Hclose).
    rewrite <- skipn_slice by lia. rewrite <- skipn_slice by lia.
    symmetry. apply firstn_skipn.
  - apply (litMatches_slice true). exact Hmp.
  - apply Forall_slice. intros j Hj. apply Hdots. lia.
Qed.

Lemma annotation_of_match s i y :
  matchAt WRAPPED_PHRASE_EXTRACTION_PATTERN s i = Some y -> containsAnnotation s.
Proof.
  rewrite extraction_unfold.
  destruct (litMatches true s (codeUnits "@[") i) eqn:H1; [|discriminate].
  cbv zeta.
  destruct (litMatches true s (codeUnits "static") (i + 2)) eqn:H2.
  - destruct (matcher true s (seqs payloadTail) Some (mkState (i + 2 + 6) []))
      as [z|] eqn:H3.
    + intros _.
      destruct (annotation_of_keyword s i (codeUnits "static") z H1 H2 H3)
        as (pre & marker & payload & post & Hs & Hci & Hp).
      exists pre, marker, payload, post. auto.
    + destruct (litMatches true s (codeUnits "static-header") (i + 2)) eqn:H4;
        [|discriminate].
      intros H5.
      destruct (annotation_of_keyword s i (codeUnits "static-header") y H1 H4 H5)
        as (pre & marker & payload & post & Hs & Hci & Hp).
      exists pre, marker, payload, post. auto.
  - destruct (litMatches true s (codeUnits "static-header") (i + 2)) eqn:H4;
      [|discriminate].
    intros H5.
    destruct (annotation_of_keyword s i (codeUnits "static-header") y H1 H4 H5)
      as (pre & marker & payload & post & Hs & Hci & Hp).
    exists pre, marker, payload, post. auto.
Qed.

Lemma keyword_complete pre marker payload post kw :
  ciEqual marker (codeUnits "@[" ++ kw ++ [ch "#"]) ->
  Forall (fun c => isLineTerminator c = false) payload ->
  let s := pre ++ marker ++ payload ++ [ch "]"] ++ post in
  litMatches true s (codeUnits "@[") (length pre) = true
  /\ litMatches true s kw (length pre + 2) = true
  /\ matcher true s (seqs payloadTail) Some
             (mkState (length pre + 2 + length kw) []) <> None.
Proof.
  intros Hci Hp s.
  pose proof (ciEqual_length _ _ Hci) as Hlen.
  pose proof (proj2 (litMatches_decomp true pre marker
                       (payload ++ [ch "]"] ++ post) _ Hlen) Hci) as Hm.
  fold s in Hm. rewrite !litMatches_app in Hm.
  apply andb_true_iff in Hm as [H1 Hm]. apply andb_true_iff in Hm as [H2 H3].
  change (length (codeUnits "@[")) with 2 in *.
  apply litMatches_hash in H3.
  split; [exact H1|]. split; [exact H2|].
  rewrite !length_app in Hlen. simpl in Hlen.
  apply payloadTail_complete
    with (e := length pre + length marker + length payload); cbn [endIndex].
  - lia.
  - exact H3.
  - intros j Hj. unfold s. rewrite nth_error_app2 by lia.
    rewrite nth_error_app2 by lia. rewrite nth_error_app1 by lia.
    destruct (nth_error payload (j - length pre - length marker)) as [cc|] eqn:E.
    + exists cc. split; [reflexivity|].
      rewrite Forall_forall in Hp. apply Hp. eapply nth_error_In, E.
    + apply nth_error_None in E. lia.
  - unfold s. rewrite nth_error_app2 by lia. rewrite nth_error_app2 by lia.
    rewrite nth_error_app2 by lia.
    replace (length pre + length marker + length payload - length pre
             - length marker - length payload) with 0 by lia.
    reflexivity.
Qed.

Lemma match_of_annotation s :
  containsAnnotation s ->
  exists i, i <= length s /\ matchAt WRAPPED_PHRASE_EXTRACTION_PATTERN s i <> None.
Proof.
  intros (pre & marker & payload & post & -> & Hci & Hp).
  exists (length pre). split; [rewrite length_app; lia|].
  rewrite extraction_unfold. cbv zeta.
  destruct Hci as [Hci|Hci].
  - destruct (keyword_complete pre marker payload post (codeUnits "static")
                Hci Hp) as (H1 & H2 & H3).
    rewrite H1, H2. change (length (codeUnits "static")) with 6 in H3.
    now destruct (matcher true _ (seqs payloadTail) Some _).
  - destruct (keyword_complete pre marker payload post
                (codeUnits "static-header") Hci Hp) as (H1 & H2 & H3).
    rewrite H1, H2. change (length (codeUnits "static-header")) with 13 in H3.
    destruct (litMatches true _ (codeUnits "static") _);
      [|now destruct (matcher true _ (seqs payloadTail) Some _)].
    destruct (matcher true _ (seqs payloadTail) Some
                      (mkState (length pre + 2 + 6) [])); [discriminate|].
    now destruct (matcher true _ (seqs payloadTail) Some _).
Qed.

(** A line contains an annotation exactly when the extraction pattern
    finds one. *)
Lemma containsAnnotation_exec s :
  containsAnnotation s <-> exec WRAPPED_PHRASE_EXTRACTION_PATTERN s 0 <> None.
Proof.
  split.
  - intros H. apply match_of_annotation in H as (i & Hi & Hm).
    intros E. apply Hm. apply (proj1 (exec_none _ _ _) E). lia.
  - intros H. destruct (exec _ s 0) as [[i y]|] eqn:E; [|contradiction].
    apply exec_some in E as (_ & Hm & _). eapply annotation_of_match, Hm.
Qed.

Lemma extraction_nonempty s i y :
  matchAt WRAPPED_PHRASE_EXTRACTION_PATTERN s i = Some y -> i < endIndex y.
Proof.
  intros H. now apply matchAt_chr_first in H as (cc & _ & _ & Hlt).
Qed.

(** ** Tag spans *)

Lemma notGt_accept c :
  xorb true (existsb (fun a => (canon false a =? canon false c)%N) [ch ">"]) = true
  <-> c <> ch ">".
Proof.
  unfold canon. cbn [existsb]. rewrite orb_false_r.
  destruct (N.eqb_spec (ch ">") c) as [E|E]; cbn [xorb]; split; intros H.
  - discriminate H.
  - exfalso. apply H. symmetry. exact E.
  - intros Hc. apply E. symmetry. exact Hc.
  - reflexivity.
Qed.

Lemma tag_of_match t i y :
  matchAt HTML_TAG_PATTERN t i = Some y -> hasTagSpan t.
Proof.
  unfold matchAt, HTML_TAG_PATTERN. cbn [pattern ignoreCase seqs fold_right matcher].
  intros H. apply step_inv in H as (c0 & Hn0 & Hc0 & H).
  apply N.eqb_eq in Hc0. simpl in Hc0, Hn0. subst c0.
  apply step_inv in H as (c1 & Hn1 & Hc1 & H). simpl in Hn1.
  apply lazyRepeat_step_inv in H as (e & H & Hle & Hbody). simpl in Hle, Hbody.
  apply step_inv in H as (c2 & Hn2 & Hc2 & _).
  apply N.eqb_eq in Hc2. simpl in Hc2. subst c2.
  assert (He : endIndex e < length t) by (apply nth_error_Some; congruence).
  exists (firstn i t), (slice t (S i) (endIndex e)), (skipn (S (endIndex e)) t).
  split; [|split].
  - change ([ch ">"] ++ skipn (S (endIndex e)) t)
      with (ch ">" :: skipn (S (endIndex e)) t).
    rewrite <- (skipn_nth t (endIndex e) (ch ">") Hn2).
    rewrite <- skipn_slice by lia.
    change ([ch "<"] ++ skipn (S i) t) with (ch "<" :: skipn (S i) t).
    rewrite <- (skipn_nth t i (ch "<") Hn0). symmetry. apply firstn_skipn.
  - intros Hnil. apply (f_equal (@length char)) in Hnil.
    rewrite slice_length in Hnil by lia. simpl in Hnil. lia.
  - apply Forall_slice. intros j Hj.
    destruct (Nat.eq_dec j (S i)) as [->|Hne].
    + exists c1. split; [exact Hn1|]. now apply notGt_accept.
    + destruct (Hbody j) as (cc & Hn & Hacc); [lia|].
      exists cc. split; [exact Hn|]. now apply notGt_accept.
Qed.

Lemma match_of_tag t :
  hasTagSpan t -> exists i, i <= length t /\ matchAt HTML_TAG_PATTERN t i <> None.
Proof.
  intros (pre & body & post & -> & Hne & Hall).
  destruct body as [|c1 body]; [contradiction|].
  exists (length pre). split; [rewrite length_app; lia|].
  unfold matchAt, HTML_TAG_PATTERN. cbn [pattern ignoreCase seqs fold_right matcher].
  set (t := pre ++ [ch "<"] ++ (c1 :: body) ++ [ch ">"] ++ post).
  assert (Hnth : forall j, j < length body ->
            nth_error t (S (S (length pre)) + j) = nth_error body j).
  { intros j Hj. unfold t. rewrite nth_error_app2 by lia.
    replace (S (S (length pre)) + j - length pre) with (S (S j)) by lia.
    simpl. now rewrite nth_error_app1 by lia. }
  assert (H0 : nth_error t (length pre) = Some (ch "<"))
    by (unfold t; apply nth_error_decomp).
  assert (H1 : nth_error t (S (length pre)) = Some c1).
  { unfold t. rewrite nth_error_app2 by lia.
    replace (S (length pre) - length pre) with 1 by lia. reflexivity. }
  assert (H2 : nth_error t (S (S (length pre)) + length body) = Some (ch ">")).
  { unfold t. rewrite nth_error_app2 by lia.
    replace (S (S (length pre)) + length body - length pre)
      with (S (S (length body))) by lia.
    simpl. rewrite nth_error_app2 by lia. now rewrite Nat.sub_diag. }
  inversion Hall as [|? ? Hc1 Hall']; subst.
  unfold step at 1. cbn [endIndex]. rewrite H0, N.eqb_refl.
  unfold step at 1. cbn [endIndex advance clearCaptures groupsOf].
  rewrite H1, (proj2 (notGt_accept c1) Hc1).
  apply lazyRepeat_step_complete
    with (e := S (S (length pre)) + length body);
    cbn [endIndex advance clearCaptures].
  - lia.
  - unfold t. rewrite !length_app. simpl. lia.
  - intros j Hj. rewrite Forall_forall in Hall'.
    replace j with (S (S (length pre)) + (j - S (S (length pre)))) by lia.
    rewrite Hnth by lia.
    destruct (nth_error body (j - S (S (length pre)))) as [cc|] eqn:E.
    + exists cc. split; [reflexivity|].
      apply notGt_accept, Hall'. eapply nth_error_In, E.
    + apply nth_error_None in E. lia.
  - intros y Hy. unfold step. rewrite Hy, H2, N.eqb_refl. discriminate.
Qed.

Lemma hasTagSpan_exec t :
  hasTagSpan t <-> exec HTML_TAG_PATTERN t 0 <> None.
Proof.
  split.
  - intros H. apply match_of_tag in H as (i & Hi & Hm).
    intros E. apply Hm. apply (proj1 (exec_none _ _ _) E). lia.
  - intros H. destruct (exec _ t 0) as [[i y]|] eqn:E; [|contradiction].
    apply exec_some in E as (_ & Hm & _). eapply tag_of_match, Hm.
Qed.

Lemma first_occurrence (x : char) l :
  In x l -> exists l1 l2, l = l1 ++ x :: l2 /\ ~ In x l1.
Proof.
  induction l as [|a l IH]; intros Hin; [destruct Hin|].
  destruct (N.eq_dec a x) as [->|Hne].
  - exists [], l. split; [reflexivity|intros []].
  - destruct Hin as [->|Hin]; [contradiction|].
    destruct (IH Hin) as (l1 & l2 & -> & Hnot).
    exists (a :: l1), l2. split; [reflexivity|].
    intros [->|H]; [contradiction|auto].
Qed.

Lemma tagLike_iff t : tagLike t <-> hasTagSpan t.
Proof.
  split.
  - intros (pre & c & rest & -> & Hc & Hin).
    apply first_occurrence in Hin as (l1 & l2 & -> & Hnot).
    exists pre, (c :: l1), l2. split; [|split].
    + reflexivity.
    + discriminate.
    + constructor; [exact Hc|]. apply Forall_forall. intros x Hx ->. auto.
  - intros (pre & body & post & -> & Hne & Hall).
    destruct body as [|c body]; [contradiction|].
    inversion Hall; subst.
    exists pre, c, (body ++ [ch ">"] ++ post). split; [reflexivity|].
    split; [assumption|]. apply in_or_app. right. now left.
Qed.

Lemma tagLike_cons c t : tagLike t -> tagLike (c :: t).
Proof.
  intros (pre & c1 & rest & -> & H). exists (c :: pre), c1, rest. auto.
Qed.

Lemma tagLike_app p t : tagLike t -> tagLike (p ++ t).
Proof. intros H. induction p; simpl; [exact H|now apply tagLike_cons]. Qed.

(** Stripping spans that begin with a character other than [>] cannot
    bring a tag span into being. *)
Lemma stripped_tagLike marker s t :
  marker <> ch ">" -> stripped marker s t -> tagLike t -> tagLike s.
Proof.
  intros Hm Hs. induction Hs as [|c0 s t Hs IH|u s t Hs IH]; intros Ht.
  - destruct Ht as ([|? ?] & c & rest & Heq & _); discriminate.
  - destruct Ht as ([|p0 pre] & c & rest & Heq & Hc & Hin).
    + simpl in Heq. injection Heq as -> ->.
      inversion Hs as [|c' s' t' Hs' E1 E2|u' s' t' Hs' E1 E2]; subst.
      * exists [], c, s'. split; [reflexivity|]. split; [exact Hc|].
        eapply stripped_In; eassumption.
      * exists [], marker, (u' ++ s'). split; [reflexivity|].
        split; [exact Hm|]. apply in_or_app. right.
        eapply stripped_In; [exact Hs'|]. now right.
    + simpl in Heq. injection Heq as -> ->.
      apply tagLike_cons, IH. exists pre, c, rest. auto.
  - change (marker :: u ++ s) with ((marker :: u) ++ s).
    apply tagLike_app, IH, Ht.
Qed.

Lemma removal_stripped line :
  stripped (ch "@") line (replace line WRAPPED_PATTERN_REMOVAL_PATTERN []).
Proof.
  unfold replace.
  apply (replaceLoop_stripped WRAPPED_PATTERN_REMOVAL_PATTERN line (ch "@")
           (removal_match line) (S (length line)) 0 0).
  lia.
Qed.

(** On a line without tag spans the two revisions clean alike. *)
Lemma cleanLine_agree line :
  ~ hasTagSpan line -> cleanLine Part000 line = cleanLine IndexJs line.
Proof.
  intros Hno. unfold cleanLine. apply replace_no_match.
  destruct (exec HTML_TAG_PATTERN _ 0) eqn:E; [|reflexivity].
  exfalso. apply Hno. apply tagLike_iff.
  eapply stripped_tagLike; [|apply removal_stripped|].
  - discriminate.
  - apply tagLike_iff, hasTagSpan_exec. congruence.
Qed.

(** ** Termination of the two passes *)

Lemma execLoop_stuck (A : Type) re s lastIndex j y
      (body : nat * MatchState -> A -> A) :
  exec re s lastIndex = Some (j, y) -> endIndex y = lastIndex ->
  forall fuel acc, execLoop fuel re s lastIndex body acc = None.
Proof.
  intros He Hy. induction fuel as [|fuel IH]; intros acc; simpl; [reflexivity|].
  rewrite He. simpl. rewrite Hy. apply IH.
Qed.

Lemma passOne_total fuel doc :
  enoughFuel fuel doc -> exists known, passOne fuel doc = Some known.
Proof.
  intros Hf. unfold passOne. apply foldOption_total. intros line known Hin.
  unfold collectLine. apply execLoop_terminates.
  - apply extraction_nonempty.
  - unfold enoughFuel in Hf. rewrite Forall_forall in Hf.
    specialize (Hf line Hin). lia.
Qed.

Lemma passTwo_total rev fuel known doc :
  enoughFuel fuel doc -> ~ In [] known ->
  exists st, passTwo rev fuel known doc = Some st.
Proof.
  intros Hf Hne. unfold passTwo. apply foldOption_total. intros line st Hin.
  unfold scanLinePure.
  destruct (foldOption_total _ _
              (searchPhrasePure fuel (cleanLine rev line) (S (fst st))) known)
    with (s := snd st) as [occ Hocc].
  - intros phrase occ Hp. unfold searchPhrasePure. apply execLoop_terminates.
    + intros i y. apply barePattern_nonempty. now intros ->.
    + unfold enoughFuel in Hf. rewrite Forall_forall in Hf.
      specialize (Hf line Hin). pose proof (cleanLine_length rev line). lia.
  - rewrite Hocc. simpl. eauto.
Qed.

(** With fuel beyond the length of every line, the scan of a document
    whose annotations all have a payload returns a record. *)
Lemma scanDocument_total rev fuel doc :
  enoughFuel fuel doc ->
  (forall known, knownPhrases fuel doc = Some (Normal known) -> ~ In [] known) ->
  exists occ, scanDocument rev fuel doc = Some (Normal occ).
Proof.
  intros Hf Hne. rewrite scanDocument_spec.
  destruct (passOne_total fuel doc Hf) as [known Hk]. rewrite Hk.
  destruct (length known =? 0); [eauto|].
  destruct (passTwo_total rev fuel known doc Hf) as [st ->]; [|simpl; eauto].
  apply Hne. rewrite knownPhrases_spec, Hk. reflexivity.
Qed.

Lemma passOne_no_annotation fuel doc :
  (forall line, In line doc -> ~ containsAnnotation line) ->
  passOne (S fuel) doc = Some [].
Proof.
  unfold passOne. generalize (@nil str) as known.
  induction doc as [|line doc IH]; intros known Hno; simpl; [reflexivity|].
  destruct (exec WRAPPED_PHRASE_EXTRACTION_PATTERN line 0) eqn:E.
  - exfalso. apply (Hno line); [now left|].
    apply containsAnnotation_exec. congruence.
  - unfold collectLine at 1. cbn [execLoop]. rewrite E.
    apply IH. intros l Hl. apply Hno. now right.
Qed.

(** ** The reporter *)

Lemma strLtb_asym : forall a b, strLtb a b = true -> strLtb b a = false.
Proof.
  induction a as [|x a IH]; intros [|y b] H; simpl in *;
    try reflexivity; try discriminate.
  destruct (N.ltb_spec x y), (N.ltb_spec y x); try reflexivity;
    try discriminate; try lia.
  now apply IH.
Qed.

Lemma strLe_trans : forall a b c,
  strLtb b a = false -> strLtb c b = false -> strLtb c a = false.
Proof.
  induction a as [|x a IH]; intros [|y b] [|z c] H1 H2; simpl in *;
    try reflexivity; try discriminate.
  destruct (N.ltb_spec y x), (N.ltb_spec x y), (N.ltb_spec z y),
    (N.ltb_spec y z), (N.ltb_spec z x), (N.ltb_spec x z);
    try reflexivity; try discriminate; try lia.
  eapply IH; eassumption.
Qed.

Lemma insertSorted_perm x l : Permutation (insertSorted x l) (x :: l).
Proof.
  induction l as [|y l IH]; simpl; [reflexivity|].
  destruct (strLtb x y); [reflexivity|].
  rewrite IH. apply perm_swap.
Qed.

Lemma sort_perm l : Permutation (sort l) l.
Proof.
  induction l as [|x l IH]; simpl; [reflexivity|].
  rewrite insertSorted_perm. now constructor.
Qed.

Lemma insertSorted_sorted x l :
  StronglySorted (fun a b => strLtb b a = false) l ->
  StronglySorted (fun a b => strLtb b a = false) (insertSorted x l).
Proof.
  induction 1 as [|y l Hs IH Hy]; simpl.
  - repeat constructor.
  - destruct (strLtb x y) eqn:E.
    + constructor; [now constructor|].
      apply strLtb_asym in E. constructor; [exact E|].
      eapply Forall_impl; [|exact Hy]. simpl. intros z Hz.
      eapply strLe_trans; eassumption.
    + constructor; [exact IH|].
      apply Forall_forall. intros z Hz.
      apply (Permutation_in _ (insertSorted_perm x l)) in Hz.
      destruct Hz as [<-|Hz]; [exact E|].
      rewrite Forall_forall in Hy. now apply Hy.
Qed.

Lemma sort_sorted l : StronglySorted (fun a b => strLtb b a = false) (sort l).
Proof.
  induction l as [|x l IH]; simpl; [constructor|now apply insertSorted_sorted].
Qed.

Lemma report_loop occ xs : forall k,
  forOf xs
        (fun phrase _ =>
           match mapGet occ phrase with
           | Some lineNumbers =>
               if 0 <? length lineNumbers
               then consoleLog (reportLine phrase lineNumbers)
               else ret tt
           | None => ret tt
           end) tt k
  = Some (k ++ map (fun p => (Stdout, reportLine p (linesOf occ p)))
                   (filter (fun p => 0 <? length (linesOf occ p)) xs),
          Normal tt).
Proof.
  induction xs as [|p xs IH]; intros k.
  - simpl. now rewrite app_nil_r.
  - cbn [forOf filter]. unfold bind.
    assert (Hl : linesOf occ p
                 = match mapGet occ p with Some l => l | None => [] end)
      by reflexivity.
    destruct (mapGet occ p) as [ls|]; rewrite Hl.
    + destruct (0 <? length ls).
      * unfold consoleLog at 1. rewrite IH. cbn [map].
        now rewrite Hl, <- app_assoc.
      * unfold ret at 1. apply IH.
    + unfold ret at 1. apply IH.
Qed.

Lemma processResults_spec occ k :
  processResults occ k = Some (k ++ reportOf occ, Normal occ).
Proof.
  unfold processResults, reportOf, reportedPhrases, bind.
  destruct (0 <? length occ).
  - unfold consoleLog at 1. rewrite report_loop. unfold consoleLog, ret.
    now rewrite <- !app_assoc.
  - reflexivity.
Qed.

Lemma mapGet_key occ p : In p (mapKeys occ) -> exists ls, mapGet occ p = Some ls.
Proof.
  induction occ as [|[k v] occ IH]; simpl; [intros []|].
  destruct (strEqb p k) eqn:E; [eauto|].
  intros [->|H]; [now rewrite strEqb_refl in E|auto].
Qed.

Lemma reportedPhrases_all occ :
  Forall (fun e => snd e <> []) occ -> reportedPhrases occ = sort (mapKeys occ).
Proof.
  intros Hne. unfold reportedPhrases.
  apply forallb_filter_id. apply forallb_forall. intros p Hp.
  apply (Permutation_in _ (sort_perm (mapKeys occ))) in Hp.
  destruct (mapGet_key occ p Hp) as [ls Hls]. unfold linesOf. rewrite Hls.
  apply mapGet_In in Hls. rewrite Forall_forall in Hne.
  specialize (Hne _ Hls). simpl in Hne. now destruct ls.
Qed.

Lemma reportOf_stdout occ : onlyStdout (reportOf occ).
Proof.
  unfold reportOf, onlyStdout. destruct (0 <? length occ).
  - apply Forall_app. split; [now repeat constructor|].
    apply Forall_app. split; [|now repeat constructor].
    apply Forall_forall. intros e He. apply in_map_iff in He as (p & <- & _).
    reflexivity.
  - now repeat constructor.
Qed.

(** ** The entry point *)

Ltac stdout_only :=
  unfold onlyStdout;
  repeat first [ apply Forall_nil
               | apply Forall_cons; [reflexivity|]
               | apply Forall_app; split
               | apply reportOf_stdout ].

Lemma runProcess_path rev fuel c path fs :
  runProcess rev fuel (Some (c :: path)) fs
  = match findUnwrappedPhraseOccurrences rev fuel fs (c :: path)
            [(Stdout, msgSearching (c :: path))] with
    | None => None
    | Some (k, Normal occ) => Some (k ++ reportOf occ, 0)
    | Some (k, Throw _) => Some (k, 1)
    | Some (k, Exit code) => Some (k, code)
    end.
Proof.
  unfold runProcess, main, bind. unfold consoleLog at 1. simpl app.
  destruct (findUnwrappedPhraseOccurrences rev fuel fs (c :: path) _)
    as [[k [occ|msg|code]]|]; try reflexivity.
  now rewrite processResults_spec.
Qed.

(** ** What the scan records *)

Lemma execLoop_result (A : Type) re s (f : A -> A) :
  (forall a, f (f a) = f a) ->
  forall fuel lastIndex acc r,
    execLoop fuel re s lastIndex (fun _ => f) acc = Some r ->
    r = match exec re s lastIndex with Some _ => f acc | None => acc end.
Proof.
  intros Hf. induction fuel as [|fuel IH]; intros lastIndex acc r H; simpl in H;
    [discriminate|].
  destruct (exec re s lastIndex) as [m|]; [|congruence].
  apply IH in H. rewrite Hf in H. now destruct (exec re s (endIndex (snd m))).
Qed.

Lemma searchPhrasePure_result fuel cleaned n phrase occ occ' :
  searchPhrasePure fuel cleaned n phrase occ = Some occ' ->
  occ' = if hasMatch phrase cleaned then recordMatch phrase n occ else occ.
Proof.
  intros H. unfold searchPhrasePure in H.
  apply execLoop_result in H; [|apply recordMatch_idempotent].
  unfold hasMatch. now destruct (exec (barePattern phrase) cleaned 0).
Qed.

Lemma strEqb_neq a b : strEqb a b = false <-> a <> b.
Proof.
  unfold strEqb. destruct (list_eq_dec N.eq_dec a b); split; congruence.
Qed.

Lemma mapGet_mapSet_other m k v p :
  p <> k -> mapGet (mapSet m k v) p = mapGet m p.
Proof.
  intros Hne. induction m as [|[k' v'] m IH]; simpl.
  - now rewrite (proj2 (strEqb_neq p k) Hne).
  - destruct (strEqb k k') eqn:E; simpl.
    + apply strEqb_eq in E as <-. now rewrite (proj2 (strEqb_neq p k) Hne).
    + now rewrite IH.
Qed.

Lemma mapGet_app_other m k v p :
  p <> k -> mapGet (m ++ [(k, v)]) p = mapGet m p.
Proof.
  intros Hne. induction m as [|[k' v'] m IH]; simpl.
  - now rewrite (proj2 (strEqb_neq p k) Hne).
  - now rewrite IH.
Qed.

Lemma linesOf_recordMatch_other q n occ p :
  p <> q -> linesOf (recordMatch q n occ) p = linesOf occ p.
Proof.
  intros Hne. unfold linesOf. rewrite recordMatch_spec.
  destruct (mapGet occ q) as [existing|].
  - destruct (lastElement existing) as [x|];
      [destruct (x =? n); [reflexivity|]|];
      now rewrite mapGet_mapSet_other.
  - now rewrite mapGet_app_other.
Qed.

Lemma linesOf_recordMatch_same q n occ :
  linesOf (recordMatch q n occ) q
  = if match lastElement (linesOf occ q) with
       | Some x => x =? n
       | None => false
       end
    then linesOf occ q else linesOf occ q ++ [n].
Proof.
  unfold linesOf. rewrite recordMatch_spec.
  destruct (mapGet occ q) as [existing|] eqn:E.
  - destruct (lastElement existing) as [x|].
    + destruct (x =? n); [now rewrite E|].
      now rewrite (mapGet_mapSet occ q existing).
    + now rewrite (mapGet_mapSet occ q existing).
  - simpl. now rewrite mapGet_last.
Qed.

(** One line: every known phrase with a match gets the line number, once. *)
Lemma scanLine_lines fuel cleaned n (base : str -> list nat) known :
  (forall p, Forall (fun x => x < n) (base p)) ->
  forall processed occ occ',
    (forall p, linesOf occ p
               = base p ++ (if setHas processed p && hasMatch p cleaned
                            then [n] else [])) ->
    foldOption known (searchPhrasePure fuel cleaned n) occ = Some occ' ->
    forall p, linesOf occ' p
              = base p ++ (if setHas (processed ++ known) p && hasMatch p cleaned
                           then [n] else []).
Proof.
  intros Hbase. induction known as [|q known IH]; intros processed occ occ' Hocc H p.
  - simpl in H. injection H as <-. rewrite app_nil_r. apply Hocc.
  - simpl in H.
    destruct (searchPhrasePure fuel cleaned n q occ) as [occ1|] eqn:E;
      [|discriminate].
    apply searchPhrasePure_result in E.
    replace (processed ++ q :: known) with ((processed ++ [q]) ++ known)
      by (now rewrite <- app_assoc).
    apply (IH (processed ++ [q]) occ1 occ'); [|exact H].
    clear p. intros p. unfold setHas in *. rewrite existsb_app. simpl.
    rewrite orb_false_r.
    destruct (strEqb p q) eqn:Epq.
    + apply strEqb_eq in Epq as ->. rewrite orb_true_r. simpl.
      subst occ1. destruct (hasMatch q cleaned) eqn:Hm.
      * rewrite linesOf_recordMatch_same, Hocc, Hm.
        destruct (existsb (strEqb q) processed); simpl.
        -- now rewrite lastElement_snoc, Nat.eqb_refl.
        -- rewrite app_nil_r.
           destruct (lastElement (base q)) as [x|] eqn:L; [|reflexivity].
           apply lastElement_inv in L as (l' & L).
           specialize (Hbase q). rewrite L in Hbase.
           apply Forall_app in Hbase as [_ Hx]. inversion Hx; subst.
           destruct (Nat.eqb_spec x n); [lia|]. now rewrite L.
      * rewrite Hocc, Hm. now rewrite !andb_false_r.
    + rewrite orb_false_r. subst occ1.
      destruct (hasMatch q cleaned); [|apply Hocc].
      rewrite linesOf_recordMatch_other by (now apply strEqb_neq). apply Hocc.
Qed.

Lemma matchingLines_cons rev p line rest n :
  matchingLines rev p (line :: rest) n
  = (if hasMatch p (cleanLine rev line) then [n] else [])
      ++ matchingLines rev p rest (S n).
Proof. simpl. now destruct (hasMatch p (cleanLine rev line)). Qed.

(** All lines: under a known phrase stand the numbers of the lines on which
    it has a match, and under any other phrase nothing. *)
Lemma passTwo_lines rev fuel known doc : forall n occ st',
  (forall p, Forall (fun x => x <= n) (linesOf occ p)) ->
  foldOption doc (scanLinePure rev fuel known) (n, occ) = Some st' ->
  forall p, linesOf (snd st') p
            = linesOf occ p
                ++ (if setHas known p then matchingLines rev p doc (S n) else []).
Proof.
  induction doc as [|line doc IH]; intros n occ st' Hb H p.
  - simpl in H. injection H as <-. simpl.
    destruct (setHas known p); now rewrite app_nil_r.
  - simpl in H.
    destruct (scanLinePure rev fuel known line (n, occ)) as [[n1 occ1]|] eqn:E;
      [|discriminate].
    unfold scanLinePure in E. simpl in E.
    destruct (foldOption known _ occ) as [occ1'|] eqn:F; [|discriminate].
    injection E as <- <-.
    assert (Hline : forall q,
              linesOf occ1' q
              = linesOf occ q
                  ++ (if setHas known q && hasMatch q (cleanLine rev line)
                      then [S n] else [])).
    { apply (scanLine_lines fuel (cleanLine rev line) (S n) (linesOf occ) known)
        with (processed := []) (occ := occ).
      - intros q. eapply Forall_impl; [|apply Hb]. simpl. intros; lia.
      - intros q. simpl. now rewrite app_nil_r.
      - exact F. }
    rewrite (IH (S n) occ1' st'); [|
      intros q; rewrite Hline; apply Forall_app; split;
      [eapply Forall_impl; [|apply Hb]; simpl; intros; lia|
       destruct (_ && _); repeat constructor]|exact H].
    rewrite Hline, matchingLines_cons, <- app_assoc. f_equal.
    destruct (setHas known p); [|reflexivity]. simpl.
    now destruct (hasMatch p (cleanLine rev line)).
Qed.

Lemma setHas_In known p : setHas known p = true <-> In p known.
Proof.
  unfold setHas. rewrite existsb_exists. split.
  - intros (x & Hx & E). apply strEqb_eq in E. now subst.
  - intros H. exists p. split; [exact H|apply strEqb_refl].
Qed.

Lemma scanDocument_lines rev fuel doc occ known :
  scanDocument rev fuel doc = Some (Normal occ) ->
  knownPhrases fuel doc = Some (Normal known) ->
  forall p, linesOf occ p
            = if setHas known p then matchingLines rev p doc 1 else [].
Proof.
  rewrite scanDocument_spec, knownPhrases_spec.
  destruct (passOne fuel doc) as [known'|]; [|discriminate].
  intros Hs [= <-] p.
  destruct (length known' =? 0) eqn:L.
  - injection Hs as <-. apply Nat.eqb_eq in L.
    destruct known'; [reflexivity|discriminate].
  - destruct (passTwo rev fuel known' doc) as [st|] eqn:P; [|discriminate].
    injection Hs as <-.
    apply (passTwo_lines rev fuel known' doc 0 [] st); [|exact P].
    intros q. constructor.
Qed.

Lemma In_matchingLines rev p doc : forall k n,
  In n (matchingLines rev p doc k)
  <-> exists line, nth_error doc (n - k) = Some line /\ k <= n
                   /\ hasMatch p (cleanLine rev line) = true.
Proof.
  induction doc as [|line doc IH]; intros k n.
  - simpl. split; [intros []|]. intros (l & H & _). now destruct (n - k).
  - rewrite matchingLines_cons, in_app_iff, IH. split.
    + intros [H|(l & Hn & Hk & Hm)].
      * destruct (hasMatch p (cleanLine rev line)) eqn:Hm; [|destruct H].
        destruct H as [<-|[]]. exists line. rewrite Nat.sub_diag. auto.
      * exists l. replace (n - k) with (S (n - S k)) by lia. auto with arith.
    + intros (l & Hn & Hk & Hm). destruct (Nat.eq_dec n k) as [->|Hne].
      * rewrite Nat.sub_diag in Hn. injection Hn as ->. rewrite Hm. left. now left.
      * right. exists l. replace (n - k) with (S (n - S k)) in Hn by lia.
        simpl in Hn. split; [exact Hn|]. split; [lia|exact Hm].
Qed.

Lemma hasMatch_occurrence phrase s :
  wordEdged phrase = true ->
  (hasMatch phrase s = true <-> wholeWordOccurrence phrase s).
Proof.
  intros Hedge. rewrite (occurrence_iff_match phrase s Hedge). unfold hasMatch.
  destruct (exec (barePattern phrase) s 0) as [[j y]|] eqn:E.
  - apply exec_some in E as (Hj & Hm & _). split; [|reflexivity].
    intros _. exists j. split; [lia|congruence].
  - split; [discriminate|]. intros (j & Hj & Hm). exfalso. apply Hm.
    apply (proj1 (exec_none _ _ _) E). lia.
Qed.

(** The inner loop on one cleaned line: with fuel beyond the length of
    the line it ends, and it records the line exactly when the phrase occurs
    in it as a whole word. *)
Lemma searchPhrase_whole_word fuel cleaned n phrase occ k :
  wordEdged phrase = true -> length cleaned < fuel ->
  (wholeWordOccurrence phrase cleaned ->
   searchPhrase fuel cleaned n phrase occ k
   = Some (k, Normal (recordMatch phrase n occ)))
  /\ (~ wholeWordOccurrence phrase cleaned ->
      searchPhrase fuel cleaned n phrase occ k = Some (k, Normal occ))
  /\ exists ls, mapGet (recordMatch phrase n occ) phrase = Some ls
                /\ lastElement ls = Some n.
Proof.
  intros Hedge Hf.
  rewrite searchPhrase_pure, searchPhrasePure_spec
    by (auto using wordEdged_nonempty).
  unfold lift. rewrite (occurrence_iff_match phrase cleaned Hedge).
  split; [|split; [|apply recordMatch_last]].
  - intros (j & Hj & Hm).
    destruct (exec (barePattern phrase) cleaned 0) eqn:E; [reflexivity|].
    exfalso. apply Hm. apply (proj1 (exec_none _ _ _) E). lia.
  - intros Hno.
    destruct (exec (barePattern phrase) cleaned 0) as [[j y]|] eqn:E;
      [|reflexivity].
    exfalso. apply Hno. apply exec_some in E as (Hj & Hm & _).
    exists j. split; [lia|congruence].
Qed.

(** ** The empty phrase *)

Lemma exec_again re s lastIndex j y :
  exec re s lastIndex = Some (j, y) -> exec re s j = Some (j, y).
Proof.
  intros H. apply exec_some in H as (Hj & Hm & _).
  unfold exec. destruct (length s <? j) eqn:E; [apply Nat.ltb_lt in E; lia|].
  destruct (length s - j); simpl; now rewrite Hm.
Qed.

(** A loop that meets an empty match never ends: [lastIndex] stays where
    the match is. *)
Lemma execLoop_empty_match (A : Type) re s lastIndex j y
      (body : nat * MatchState -> A -> A) :
  exec re s lastIndex = Some (j, y) -> endIndex y = j ->
  forall fuel acc, execLoop fuel re s lastIndex body acc = None.
Proof.
  intros He Hy [|fuel] acc; simpl; [reflexivity|].
  rewrite He. simpl. rewrite Hy.
  apply execLoop_stuck with (j := j) (y := y); [|exact Hy].
  eapply exec_again, He.
Qed.

Lemma searchPhrasePure_empty fuel cleaned n occ :
  hasMatch [] cleaned = true -> searchPhrasePure fuel cleaned n [] occ = None.
Proof.
  unfold hasMatch, searchPhrasePure.
  destruct (exec (barePattern []) cleaned 0) as [[j y]|] eqn:E; [|discriminate].
  intros _. apply execLoop_empty_match with (j := j) (y := y); [exact E|].
  apply exec_some in E as (_ & Hm & _). rewrite barePattern_match in Hm.
  destruct (_ && _ && _); [|discriminate]. injection Hm as <-. simpl. lia.
Qed.

Lemma foldOption_None (A St : Type) (body : A -> St -> option St) x xs :
  In x xs -> (forall s, body x s = None) -> forall s, foldOption xs body s = None.
Proof.
  intros Hin Hx. induction xs as [|a xs IH]; intros s; [destruct Hin|]. simpl.
  destruct Hin as [->|Hin]; [now rewrite Hx|].
  destruct (body a s); [now apply IH|reflexivity].
Qed.

(** Once the empty phrase is known, the scan does not return on any
    document with a line on which the empty phrase matches, that is, with a
    word character left after cleaning. *)
Lemma scan_diverges_on_empty_phrase rev fuel doc known line :
  knownPhrases fuel doc = Some (Normal known) -> In [] known ->
  In line doc -> hasMatch [] (cleanLine rev line) = true ->
  scanDocument rev fuel doc = None.
Proof.
  rewrite knownPhrases_spec, scanDocument_spec.
  destruct (passOne fuel doc) as [known'|]; [|discriminate].
  intros [= <-] Hk Hl Hm.
  destruct (length known' =? 0) eqn:L.
  { apply Nat.eqb_eq in L. destruct known'; [destruct Hk|discriminate]. }
  unfold passTwo.
  rewrite (foldOption_None _ _ (scanLinePure rev fuel known') line doc Hl);
    [reflexivity|].
  intros st. unfold scanLinePure.
  rewrite (foldOption_None _ _ _ [] known' Hk); [reflexivity|].
  intros occ. now apply searchPhrasePure_empty.
Qed.

(** ** Capturing parentheses do not change where a pattern matches *)

Lemma lazyRepeat_sameEnd m m' ns ns' fuel :
  (forall c c' x x', endIndex x = endIndex x' ->
     (forall y y', endIndex y = endIndex y' -> sameEnd (c y) (c' y')) ->
     sameEnd (m c x) (m' c' x')) ->
  forall c c' x x', endIndex x = endIndex x' ->
    (forall y y', endIndex y = endIndex y' -> sameEnd (c y) (c' y')) ->
    sameEnd (lazyRepeat m ns fuel c x) (lazyRepeat m' ns' fuel c' x').
Proof.
  intros Hm. induction fuel as [|fuel IH]; intros c c' x x' Hx Hc; simpl;
    pose proof (Hc x x' Hx) as H0;
    destruct (c x) as [z|], (c' x') as [z'|]; simpl in H0; try contradiction;
    try exact H0.
  apply Hm; [simpl; exact Hx|].
  intros y y' Hy. rewrite Hy, Hx.
  destruct (endIndex y' =? endIndex x'); [exact I|]. now apply IH.
Qed.

Lemma matcher_stripGroups icase s r : forall c c' x x',
  endIndex x = endIndex x' ->
  (forall y y', endIndex y = endIndex y' -> sameEnd (c y) (c' y')) ->
  sameEnd (matcher icase s r c x) (matcher icase s (stripGroups r) c' x').
Proof.
  assert (Hstep : forall accept c c' x x',
            endIndex x = endIndex x' ->
            (forall y y', endIndex y = endIndex y' -> sameEnd (c y) (c' y')) ->
            sameEnd (step s accept c x) (step s accept c' x')).
  { intros accept c c' x x' Hx Hc. unfold step. rewrite Hx.
    destruct (nth_error s (endIndex x')) as [cc|]; [|exact I].
    destruct (accept cc); [|exact I]. apply Hc. simpl. now rewrite Hx. }
  induction r as [|a| |inv cs| |r1 IH1 r2 IH2|r1 IH1 r2 IH2|n r1 IH1|r1 IH1|r1 IH1];
    intros c c' x x' Hx Hc; simpl.
  - now apply Hc.
  - now apply Hstep.
  - now apply Hstep.
  - now apply Hstep.
  - rewrite Hx. destruct (atWordBoundary s (endIndex x')); [now apply Hc|exact I].
  - apply IH1; [exact Hx|]. intros y y' Hy. now apply IH2.
  - pose proof (IH1 c c' x x' Hx Hc) as H1.
    destruct (matcher icase s r1 c x), (matcher icase s (stripGroups r1) c' x');
      simpl in H1; try contradiction; [exact H1|].
    now apply IH2.
  - apply IH1; [exact Hx|]. intros y y' Hy. apply Hc. exact Hy.
  - rewrite Hx. now apply lazyRepeat_sameEnd.
  - apply IH1; [simpl; exact Hx|]. intros y y' Hy. rewrite Hy.
    now apply lazyRepeat_sameEnd.
Qed.

Lemma searchFrom_sameSpan re re' s n :
  (forall i, sameEnd (matchAt re s i) (matchAt re' s i)) ->
  forall i, sameSpan (searchFrom re s n i) (searchFrom re' s n i).
Proof.
  intros H. induction n as [|n IH]; intros i; simpl; pose proof (H i) as Hi;
    destruct (matchAt re s i), (matchAt re' s i); simpl in Hi;
    try contradiction; simpl; auto.
Qed.

Lemma exec_sameSpan re re' s lastIndex :
  (forall i, sameEnd (matchAt re s i) (matchAt re' s i)) ->
  sameSpan (exec re s lastIndex) (exec re' s lastIndex).
Proof.
  intros H. unfold exec. destruct (length s <? lastIndex); [exact I|].
  now apply searchFrom_sameSpan.
Qed.

Lemma removal_extraction s i :
  sameEnd (matchAt WRAPPED_PHRASE_EXTRACTION_PATTERN s i)
          (matchAt WRAPPED_PATTERN_REMOVAL_PATTERN s i).
Proof.
  unfold matchAt.
  change (pattern WRAPPED_PATTERN_REMOVAL_PATTERN)
    with (stripGroups (pattern WRAPPED_PHRASE_EXTRACTION_PATTERN)).
  apply matcher_stripGroups; [reflexivity|].
  intros y y' Hy. exact Hy.
Qed.

(** ** The lazy payload stops at the first closing bracket *)

Lemma lazyRepeat_step_first s accept ns fuel : forall c x z,
  (forall y y', endIndex y = endIndex y' -> c y = None -> c y' = None) ->
  lazyRepeat (step s accept) ns fuel c x = Some z ->
  exists y, c y = Some z /\ endIndex x <= endIndex y
            /\ (forall j, endIndex x <= j < endIndex y ->
                  exists cc, nth_error s j = Some cc /\ accept cc = true)
            /\ (forall y', endIndex x <= endIndex y' < endIndex y -> c y' = None).
Proof.
  induction fuel as [|fuel IH]; intros c x z Hc H; simpl in H.
  - destruct (c x) eqn:E; [|discriminate]. exists x. rewrite E.
    split; [exact H|]. split; [lia|]. split; intros; lia.
  - destruct (c x) eqn:E.
    + exists x. rewrite E. split; [exact H|]. split; [lia|]. split; intros; lia.
    + apply step_inv in H as (cc & Hn & Hacc & Hk).
      change (endIndex (clearCaptures ns x)) with (endIndex x) in Hn.
      change (endIndex (advance (clearCaptures ns x)))
        with (S (endIndex x)) in Hk.
      rewrite succ_eqb_false in Hk.
      apply IH in Hk as (y & Hy & Hle & Hall & Hfirst); [|exact Hc].
      simpl in Hle, Hall, Hfirst.
      exists y. split; [exact Hy|]. split; [lia|]. split.
      * intros j Hj. destruct (Nat.eq_dec j (endIndex x)) as [->|Hne].
        -- now exists cc.
        -- apply Hall. lia.
      * intros y' Hy'. destruct (Nat.eq_dec (endIndex y') (endIndex x)) as [Heq|Hne].
        -- apply (Hc x y'); [now symmetry|exact E].
        -- apply Hfirst. lia.
Qed.

Lemma payloadTail_first s x z :
  matcher true s (seqs payloadTail) Some x = Some z ->
  exists e, S (endIndex x) <= e
    /\ nth_error s (endIndex x) = Some (ch "#")
    /\ (forall j, S (endIndex x) <= j < e ->
          exists cc, nth_error s j = Some cc /\ isLineTerminator cc = false
                     /\ cc <> ch "]")
    /\ nth_error s e = Some (ch "]")
    /\ endIndex z = S e
    /\ getCapture 1 z = Some (S (endIndex x), e).
Proof.
  unfold payloadTail. cbn [seqs fold_right matcher]. intros H.
  apply step_inv in H as (c1 & Hn1 & Hc1 & H).
  apply N.eqb_eq, canon_exact in Hc1; [|vm_compute; left; reflexivity].
  subst c1. cbn [groupsOf] in H.
  apply lazyRepeat_step_first in H as (y & H & Hle & Hdots & Hfirst).
  - apply step_inv in H as (c2 & Hn2 & Hc2 & H).
    apply N.eqb_eq, canon_exact in Hc2;
      [|vm_compute; right; left; split; reflexivity].
    subst c2. injection H as <-. simpl in *.
    exists (endIndex y). repeat split; auto.
    intros j Hj. destruct (Hdots j Hj) as (cc & Hn & Hacc).
    exists cc. split; [exact Hn|]. split; [now apply negb_true_iff|].
    intros ->. specialize (Hfirst (mkState j []) Hj).
    unfold step in Hfirst. simpl in Hfirst. rewrite Hn in Hfirst.
    rewrite N.eqb_refl in Hfirst. discriminate.
  - intros y y' Hy. unfold step. simpl. rewrite Hy.
    destruct (nth_error s (endIndex y')) as [cc|]; [|reflexivity].
    destruct (Canonicalize cc =? Canonicalize 93)%N; [discriminate|reflexivity].
Qed.

(** The keyword that a match of the extraction pattern has read. *)
Lemma extraction_keyword s i y :
  matchAt WRAPPED_PHRASE_EXTRACTION_PATTERN s i = Some y ->
  exists kw,
    (kw = codeUnits "static" \/ kw = codeUnits "static-header")
    /\ litMatches true s (codeUnits "@[") i = true
    /\ litMatches true s kw (i + 2) = true
    /\ matcher true s (seqs payloadTail) Some (mkState (i + 2 + length kw) [])
       = Some y.
Proof.
  rewrite extraction_unfold.
  destruct (litMatches true s (codeUnits "@[") i) eqn:H1; [|discriminate].
  cbv zeta.
  destruct (litMatches true s (codeUnits "static") (i + 2)) eqn:H2.
  - destruct (matcher true s (seqs payloadTail) Some (mkState (i + 2 + 6) []))
      as [z|] eqn:H3.
    + intros [= <-]. exists (codeUnits "static"). auto.
    + destruct (litMatches true s (codeUnits "static-header") (i + 2)) eqn:H4;
        [|discriminate].
      intros H5. exists (codeUnits "static-header"). auto.
  - destruct (litMatches true s (codeUnits "static-header") (i + 2)) eqn:H4;
      [|discriminate].
    intros H5. exists (codeUnits "static-header"). auto.
Qed.

(** What a match of the extraction pattern shows about the line: the
    annotation it has read and the payload it has captured. *)
Lemma annotation_payload s i y :
  matchAt WRAPPED_PHRASE_EXTRACTION_PATTERN s i = Some y ->
  exists marker post,
    s = firstn i s ++ marker ++ capture1 s (i, y) ++ [ch "]"] ++ post
    /\ (ciEqual marker (codeUnits "@[static#")
        \/ ciEqual marker (codeUnits "@[static-header#"))
    /\ Forall (fun c => isLineTerminator c = false /\ c <> ch "]")
              (capture1 s (i, y))
    /\ endIndex y = i + length marker + length (capture1 s (i, y)) + 1
    /\ i + length marker + length (capture1 s (i, y)) < length s.
Proof.
  intros H. apply extraction_keyword in H as (kw & Hkw & H1 & H2 & H3).
  apply payloadTail_first in H3 as (e & Hle & Hhash & Hdots & Hclose & Hend & Hcap).
  cbn [endIndex] in *.
  set (mp := codeUnits "@[" ++ kw ++ [ch "#"]).
  assert (Hmp : litMatches true s mp i = true).
  { unfold mp. rewrite !litMatches_app, H1. simpl length. rewrite H2.
    simpl andb. apply litMatches_hash. exact Hhash. }
  assert (Hlen : i + length mp = S (i + 2 + length kw)).
  { unfold mp. rewrite !length_app. simpl. lia. }
  assert (He : e < length s) by (apply nth_error_Some; congruence).
  unfold capture1. cbn [snd]. rewrite Hcap. rewrite <- Hlen in *.
  assert (Hml : length (slice s i (i + length mp)) = length mp)
    by (rewrite slice_length by lia; lia).
  assert (Hpl : length (slice s (i + length mp) e) = e - (i + length mp))
    by (apply slice_length; lia).
  exists (slice s i (i + length mp)), (skipn (S e) s).
  split; [|split; [|split; [|split]]].
  - change ([ch "]"] ++ skipn (S e) s) with (ch "]" :: skipn (S e) s).
    rewrite <- (skipn_nth s e _ Hclose).
    rewrite <- skipn_slice by lia. rewrite <- skipn_slice by lia.
    symmetry. apply firstn_skipn.
  - pose proof (litMatches_slice true s mp i Hmp) as Hci.
    destruct Hkw as [-> | ->]; [left|right]; exact Hci.
  - apply Forall_slice. intros j Hj.
    destruct (Hdots j) as (cc & Hn & Hlt & Hne); [lia|]. now exists cc.
  - rewrite Hml, Hpl. lia.
  - rewrite Hml, Hpl. lia.
Qed.

Lemma extraction_span s i y :
  matchAt WRAPPED_PHRASE_EXTRACTION_PATTERN s i = Some y -> i + 10 <= endIndex y.
Proof.
  intros H. apply annotation_payload in H as (marker & post & _ & Hci & _ & He & _).
  assert (9 <= length marker).
  { destruct Hci as [Hci|Hci]; apply ciEqual_length in Hci; rewrite Hci; simpl; lia. }
  lia.
Qed.

Lemma removal_span s i y :
  matchAt WRAPPED_PATTERN_REMOVAL_PATTERN s i = Some y -> i + 10 <= endIndex y.
Proof.
  intros H. pose proof (removal_extraction s i) as Hs. rewrite H in Hs.
  destruct (matchAt WRAPPED_PHRASE_EXTRACTION_PATTERN s i) as [x|] eqn:E;
    simpl in Hs; [|contradiction].
  apply extraction_span in E. lia.
Qed.

Lemma html_span t i y :
  matchAt HTML_TAG_PATTERN t i = Some y -> i + 3 <= endIndex y.
Proof.
  unfold matchAt, HTML_TAG_PATTERN. cbn [pattern ignoreCase seqs fold_right matcher].
  intros H. apply step_inv in H as (c0 & Hn0 & Hc0 & H).
  apply step_inv in H as (c1 & Hn1 & Hc1 & H).
  apply lazyRepeat_step_inv in H as (e & H & Hle & Hbody). simpl in Hle.
  apply step_inv in H as (c2 & Hn2 & Hc2 & H).
  injection H as <-. simpl. lia.
Qed.

(** ** A replacement that finds a match shortens the string *)

Lemma replace_shorter re (s repl : str) d :
  (forall i y, matchAt re s i = Some y ->
     length (GetSubstitution (slice s i (endIndex y)) repl) + d <= endIndex y - i) ->
  exec re s 0 <> None ->
  length (replace s re repl) + d <= length s.
Proof.
  intros Hsub Hex. unfold replace. cbn [replaceLoop].
  destruct (exec re s 0) as [[i y]|] eqn:E; [|contradiction].
  apply exec_some in E as (Hi & Hm & _ & He).
  change (i <? 0) with false. cbv zeta. cbn iota.
  rewrite !length_app. pose proof (Hsub _ _ Hm) as H1.
  rewrite slice_length by lia.
  assert (Hnext : endIndex y <= (if endIndex y =? i then S (endIndex y) else endIndex y))
    by (destruct (endIndex y =? i); lia).
  assert (Hweak : forall i y, matchAt re s i = Some y ->
            length (GetSubstitution (slice s i (endIndex y)) repl) <= endIndex y - i).
  { intros i' y' Hm'. specialize (Hsub _ _ Hm'). lia. }
  pose proof (replaceLoop_length re s repl Hweak (length s) _ _ Hnext). lia.
Qed.

Lemma removal_exec_extraction s lastIndex :
  sameSpan (exec WRAPPED_PHRASE_EXTRACTION_PATTERN s lastIndex)
           (exec WRAPPED_PATTERN_REMOVAL_PATTERN s lastIndex).
Proof. apply exec_sameSpan. intros i. apply removal_extraction. Qed.

Lemma removal_exec_annotation s :
  containsAnnotation s <-> exec WRAPPED_PATTERN_REMOVAL_PATTERN s 0 <> None.
Proof.
  rewrite containsAnnotation_exec.
  pose proof (removal_exec_extraction s 0) as H.
  destruct (exec WRAPPED_PHRASE_EXTRACTION_PATTERN s 0) as [[i x]|],
           (exec WRAPPED_PATTERN_REMOVAL_PATTERN s 0) as [[j y]|];
    simpl in H; try contradiction; split; intros; congruence.
Qed.

Lemma removal_shorter line :
  containsAnnotation line ->
  length (replace line WRAPPED_PATTERN_REMOVAL_PATTERN []) + 10 <= length line.
Proof.
  intros H. apply replace_shorter.
  - intros i y Hm. apply removal_span in Hm. simpl. lia.
  - now apply removal_exec_annotation.
Qed.

Lemma removal_fixed line :
  ~ containsAnnotation line ->
  replace line WRAPPED_PATTERN_REMOVAL_PATTERN [] = line.
Proof.
  intros H. apply replace_no_match.
  destruct (exec WRAPPED_PATTERN_REMOVAL_PATTERN line 0) eqn:E; [|reflexivity].
  exfalso. apply H. apply removal_exec_annotation. congruence.
Qed.

Lemma html_shorter t :
  hasTagSpan t ->
  length (replace t HTML_TAG_PATTERN (codeUnits " ")) + 2 <= length t.
Proof.
  intros H. apply replace_shorter.
  - intros i y Hm. apply html_span in Hm.
    change (length (GetSubstitution _ (codeUnits " "))) with 1. lia.
  - now apply hasTagSpan_exec.
Qed.

Lemma html_fixed t :
  ~ hasTagSpan t -> replace t HTML_TAG_PATTERN (codeUnits " ") = t.
Proof.
  intros H. apply replace_no_match.
  destruct (exec HTML_TAG_PATTERN t 0) eqn:E; [|reflexivity].
  exfalso. apply H. apply hasTagSpan_exec. congruence.
Qed.

Lemma html_length t :
  length (replace t HTML_TAG_PATTERN (codeUnits " ")) <= length t.
Proof.
  apply replace_length. intros i y H. apply html_match in H.
  change (length (GetSubstitution _ (codeUnits " "))) with 1. lia.
Qed.

(** ** Pass 1 *)

Lemma execLoop_invariant_match (A : Type) (P : A -> Prop) re s
      (body : nat * MatchState -> A -> A) :
  (forall i y a, matchAt re s i = Some y -> P a -> P (body (i, y) a)) ->
  forall fuel lastIndex acc r,
    P acc -> execLoop fuel re s lastIndex body acc = Some r -> P r.
Proof.
  intros Hbody. induction fuel as [|fuel IH]; intros lastIndex acc r Hacc H;
    simpl in H; [discriminate|].
  destruct (exec re s lastIndex) as [[i y]|] eqn:E.
  - apply exec_some in E as (_ & Hm & _).
    eapply IH; [|exact H]. now apply Hbody.
  - now injection H as <-.
Qed.

Lemma annotates_capture line i y :
  matchAt WRAPPED_PHRASE_EXTRACTION_PATTERN line i = Some y ->
  annotates line (capture1 line (i, y)).
Proof.
  intros H. apply annotation_payload in H as (marker & post & Hs & Hci & Hp & _).
  exists (firstn i line), marker, post. auto.
Qed.

Lemma setAdd_NoDup known x : NoDup known -> NoDup (setAdd known x).
Proof.
  intros H. unfold setAdd. destruct (setHas known x) eqn:E; [exact H|].
  apply NoDup_app; [exact H|constructor; [intros []|constructor]|].
  intros a Ha [<-|[]]. apply setHas_In in Ha. congruence.
Qed.

Lemma setAdd_In known x p : In p (setAdd known x) -> In p known \/ p = x.
Proof.
  unfold setAdd. destruct (setHas known x); [now left|].
  intros H. apply in_app_or in H as [H|[<-|[]]]; auto.
Qed.

Lemma setAdd_nonempty known x : setAdd known x <> [].
Proof.
  unfold setAdd. destruct (setHas known x) eqn:E.
  - intros ->. discriminate.
  - now destruct known.
Qed.

Lemma collectLine_sound fuel line known known' :
  collectLine fuel line known = Some known' ->
  (NoDup known -> NoDup known')
  /\ forall p, In p known' -> In p known \/ annotates line p.
Proof.
  unfold collectLine. intros H.
  revert H.
  apply (execLoop_invariant_match _
           (fun k => (NoDup known -> NoDup k)
                     /\ forall p, In p k -> In p known \/ annotates line p));
    [|split; auto].
  intros i y a Hm [Hnd Hin]. split.
  - intros Hk. now apply setAdd_NoDup, Hnd.
  - intros p Hp. apply setAdd_In in Hp as [Hp| ->]; [now apply Hin|].
    right. now apply annotates_capture.
Qed.

Lemma passOne_sound fuel doc : forall acc known,
  foldOption doc (collectLine fuel) acc = Some known ->
  (NoDup acc -> NoDup known)
  /\ forall p, In p known ->
       In p acc \/ exists line, In line doc /\ annotates line p.
Proof.
  induction doc as [|line doc IH]; intros acc known H; simpl in H.
  - injection H as <-. split; auto.
  - destruct (collectLine fuel line acc) as [acc'|] eqn:E; [|discriminate].
    apply collectLine_sound in E as [Hnd Hin].
    apply IH in H as [Hnd' Hin']. split; [auto|].
    intros p Hp. apply Hin' in Hp as [Hp|(l & Hl & Ha)].
    + apply Hin in Hp as [Hp|Hp]; [now left|].
      right. exists line. split; [now left|exact Hp].
    + right. exists l. split; [now right|exact Ha].
Qed.

Lemma collectLine_nonempty fuel line known known' :
  collectLine fuel line known = Some known' ->
  known <> [] \/ containsAnnotation line -> known' <> [].
Proof.
  unfold collectLine. intros H [Hne|Hann].
  - eapply (execLoop_invariant _ (fun k : PhraseSet => k <> [])); [|exact Hne|exact H].
    intros m a _. apply setAdd_nonempty.
  - destruct fuel as [|fuel]; [discriminate|]. simpl in H.
    apply containsAnnotation_exec in Hann.
    destruct (exec WRAPPED_PHRASE_EXTRACTION_PATTERN line 0) as [m|];
      [|contradiction].
    eapply (execLoop_invariant _ (fun k : PhraseSet => k <> [])); [| |exact H].
    + intros m' a _. apply setAdd_nonempty.
    + apply setAdd_nonempty.
Qed.

Lemma passOne_nonempty fuel doc : forall acc known,
  foldOption doc (collectLine fuel) acc = Some known ->
  acc <> [] \/ (exists line, In line doc /\ containsAnnotation line) ->
  known <> [].
Proof.
  induction doc as [|line doc IH]; intros acc known H Hor; simpl in H.
  - injection H as <-. destruct Hor as [Hne|(l & [] & _)]. exact Hne.
  - destruct (collectLine fuel line acc) as [acc'|] eqn:E; [|discriminate].
    apply (IH _ _ H).
    destruct Hor as [Hne|(l & [<-|Hl] & Ha)].
    + left. eapply collectLine_nonempty; [exact E|now left].
    + left. eapply collectLine_nonempty; [exact E|now right].
    + right. now exists l.
Qed.

Lemma annotates_contains line p : annotates line p -> containsAnnotation line.
Proof.
  intros (pre & marker & post & Hs & Hci & Hp).
  exists pre, marker, p, post. split; [exact Hs|]. split; [exact Hci|].
  eapply Forall_impl; [|exact Hp]. now intros c [Hc _].
Qed.

Lemma knownPhrases_passOne fuel doc known :
  knownPhrases fuel doc = Some (Normal known) <-> passOne fuel doc = Some known.
Proof.
  rewrite knownPhrases_spec. destruct (passOne fuel doc); simpl; split;
    intros H; congruence.
Qed.

(** More fuel changes nothing once a loop has ended. *)
Lemma execLoop_more_fuel (A : Type) re s (body : nat * MatchState -> A -> A) :
  forall fuel fuel' lastIndex acc r,
    fuel <= fuel' ->
    execLoop fuel re s lastIndex body acc = Some r ->
    execLoop fuel' re s lastIndex body acc = Some r.
Proof.
  induction fuel as [|fuel IH]; intros fuel' lastIndex acc r Hle H;
    simpl in H; [discriminate|].
  destruct fuel' as [|fuel']; [lia|]. simpl.
  destruct (exec re s lastIndex) as [m|]; [|exact H].
  apply (IH fuel'); [lia|exact H].
Qed.

Lemma foldOption_mono (A St : Type) (f g : A -> St -> option St) xs :
  (forall x s s', f x s = Some s' -> g x s = Some s') ->
  forall s s', foldOption xs f s = Some s' -> foldOption xs g s = Some s'.
Proof.
  intros Hfg. induction xs as [|x xs IH]; intros s s' H; simpl in *; [exact H|].
  destruct (f x s) as [s1|] eqn:E; [|discriminate].
  rewrite (Hfg _ _ _ E). now apply IH.
Qed.

Lemma passOne_more_fuel fuel fuel' doc known :
  fuel <= fuel' -> passOne fuel doc = Some known ->
  passOne fuel' doc = Some known.
Proof.
  intros Hle. unfold passOne. apply foldOption_mono.
  intros line s s'. unfold collectLine. now apply execLoop_more_fuel.
Qed.

Lemma passTwo_more_fuel rev fuel fuel' known doc st :
  fuel <= fuel' -> passTwo rev fuel known doc = Some st ->
  passTwo rev fuel' known doc = Some st.
Proof.
  intros Hle. unfold passTwo. apply foldOption_mono.
  intros line s s'. unfold scanLinePure.
  destruct (foldOption known (searchPhrasePure fuel _ _) (snd s)) as [o|] eqn:E;
    [|discriminate].
  intros H. erewrite foldOption_mono; [exact H| |exact E].
  intros p o1 o2. unfold searchPhrasePure. now apply execLoop_more_fuel.
Qed.

(** ** The pattern of any phrase *)

Lemma atWordBoundary_app pre rest :
  atWordBoundary (pre ++ rest) (length pre) = boundaryBetween pre rest.
Proof.
  unfold atWordBoundary, boundaryBetween, wordOpt.
  now rewrite wordCharBefore_app, wordCharAt_app.
Qed.

Lemma barePattern_bounded pre w post phrase :
  length w = length phrase ->
  (matchAt (barePattern phrase) (pre ++ w ++ post) (length pre) <> None
   <-> ciEqual w phrase /\ boundaryBetween pre (w ++ post) = true
       /\ boundaryBetween (pre ++ w) post = true).
Proof.
  intros Hlen. rewrite barePattern_match.
  pose proof (litMatches_decomp true pre w post phrase Hlen) as Hlit.
  change (map (canon true) w = map (canon true) phrase)
    with (ciEqual w phrase) in Hlit.
  rewrite atWordBoundary_app.
  rewrite <- Hlen. rewrite (app_assoc pre w post) at 2.
  rewrite <- length_app, atWordBoundary_app.
  destruct (litMatches true (pre ++ w ++ post) phrase (length pre)) eqn:L.
  - assert (Hci : ciEqual w phrase) by now apply Hlit.
    destruct (boundaryBetween pre (w ++ post)),
             (boundaryBetween (pre ++ w) post); simpl;
      intuition congruence.
  - rewrite andb_false_r. simpl. split; [congruence|].
    intros [Hci _]. apply Hlit in Hci. discriminate.
Qed.

Lemma hasMatch_matchAt phrase s :
  hasMatch phrase s = true
  <-> exists j, j <= length s /\ matchAt (barePattern phrase) s j <> None.
Proof.
  unfold hasMatch.
  destruct (exec (barePattern phrase) s 0) as [[j y]|] eqn:E.
  - apply exec_some in E as (Hj & Hm & _). split; [|reflexivity].
    intros _. exists j. split; [lia|congruence].
  - split; [discriminate|]. intros (j & Hj & Hm). exfalso. apply Hm.
    apply (proj1 (exec_none _ _ _) E). lia.
Qed.

Lemma hasMatch_bounded phrase s :
  hasMatch phrase s = true <-> boundedOccurrence phrase s.
Proof.
  rewrite hasMatch_matchAt. split.
  - intros (j & Hj & Hm).
    assert (Hbound : j + length phrase <= length s).
    { rewrite barePattern_match in Hm.
      destruct (litMatches true s phrase j) eqn:L.
      - apply litMatches_bound in L as [L| ->]; [exact L|simpl; lia].
      - rewrite andb_false_r in Hm. simpl in Hm. congruence. }
    assert (Hs : s = firstn j s ++ slice s j (j + length phrase)
                            ++ skipn (j + length phrase) s).
    { rewrite <- skipn_slice by lia. symmetry. apply firstn_skipn. }
    assert (Hpre : length (firstn j s) = j) by (rewrite length_firstn; lia).
    assert (Hw : length (slice s j (j + length phrase)) = length phrase)
      by (rewrite slice_length; lia).
    remember (firstn j s) as pre. remember (slice s j (j + length phrase)) as w.
    remember (skipn (j + length phrase) s) as post.
    exists pre, w, post. split; [exact Hs|].
    rewrite Hs, <- Hpre in Hm.
    apply barePattern_bounded in Hm; [exact Hm|exact Hw].
  - intros (pre & w & post & -> & Hci & Hl & Hr). exists (length pre). split.
    + rewrite length_app. lia.
    + apply barePattern_bounded; auto using ciEqual_length.
Qed.

(** ** Phrases that differ in case only *)

Lemma litMatches_ci s p q : forall i,
  ciEqual p q -> litMatches true s p i = litMatches true s q i.
Proof.
  revert q. induction p as [|a p IH]; intros [|b q] i H; unfold ciEqual in H;
    simpl in H; try discriminate; [reflexivity|].
  injection H as Hab H. simpl.
  destruct (nth_error s i); [|reflexivity].
  rewrite Hab. f_equal. now apply IH.
Qed.

Lemma barePattern_ci p q s i :
  ciEqual p q -> matchAt (barePattern p) s i = matchAt (barePattern q) s i.
Proof.
  intros H. rewrite !barePattern_match.
  now rewrite (litMatches_ci s p q i H), (ciEqual_length _ _ H).
Qed.

Lemma searchFrom_ext re re' s n :
  (forall i, matchAt re s i = matchAt re' s i) ->
  forall i, searchFrom re s n i = searchFrom re' s n i.
Proof.
  intros H. induction n as [|n IH]; intros i; simpl; rewrite H;
    [reflexivity|]. now rewrite IH.
Qed.

Lemma hasMatch_ci p q s : ciEqual p q -> hasMatch p s = hasMatch q s.
Proof.
  intros H. unfold hasMatch, exec. destruct (length s <? 0); [reflexivity|].
  rewrite (searchFrom_ext (barePattern p) (barePattern q) s);
    [reflexivity|]. intros i. now apply barePattern_ci.
Qed.

Lemma matchingLines_ci rev p q doc :
  ciEqual p q -> forall n, matchingLines rev p doc n = matchingLines rev q doc n.
Proof.
  intros H. induction doc as [|line doc IH]; intros n; simpl; [reflexivity|].
  now rewrite (hasMatch_ci p q _ H), IH.
Qed.

(** ** The empty phrase matches at the first word character *)

Lemma lastChar_In (l : str) c : lastChar l = Some c -> In c l.
Proof.
  unfold lastChar. destruct (rev l) as [|x r] eqn:E; [discriminate|].
  intros [= <-]. apply in_rev. rewrite E. now left.
Qed.

Lemma first_word_char (s : str) :
  existsb isWordChar s = true ->
  exists l1 c l2, s = l1 ++ c :: l2 /\ isWordChar c = true
                  /\ forall x, In x l1 -> isWordChar x = false.
Proof.
  induction s as [|a s IH]; simpl; [discriminate|].
  destruct (isWordChar a) eqn:Ea.
  - intros _. exists [], a, s. split; [reflexivity|]. split; [exact Ea|intros x []].
  - simpl. intros H. destruct (IH H) as (l1 & c & l2 & -> & Hc & Hl1).
    exists (a :: l1), c, l2. split; [reflexivity|]. split; [exact Hc|].
    intros x [<-|Hx]; auto.
Qed.

Lemma emptyPhrase_match s : hasMatch [] s = existsb isWordChar s.
Proof.
  apply Bool.eq_iff_eq_true. rewrite hasMatch_bounded. split.
  - intros (pre & w & post & -> & Hci & Hl & _).
    apply ciEqual_length in Hci. destruct w; [|discriminate]. simpl in Hl.
    rewrite existsb_app. apply orb_true_iff.
    unfold boundaryBetween, wordOpt in Hl.
    destruct (lastChar pre) as [c|] eqn:Ec.
    + destruct (isWordChar c) eqn:Hc.
      * left. apply existsb_exists. exists c. split; [|exact Hc].
        now apply lastChar_In.
      * right. destruct post as [|d post]; [discriminate|]. simpl in *.
        now rewrite Hl.
    + right. destruct post as [|d post]; [discriminate|]. simpl in *.
      now rewrite Hl.
  - intros H. apply first_word_char in H as (l1 & c & l2 & -> & Hc & Hl1).
    exists l1, [], (c :: l2). split; [reflexivity|]. split; [reflexivity|].
    assert (Hb : boundaryBetween l1 (c :: l2) = true).
    { unfold boundaryBetween, wordOpt. simpl. rewrite Hc.
      destruct (lastChar l1) as [x|] eqn:Ex; [|reflexivity].
      apply lastChar_In in Ex. now rewrite (Hl1 x Ex). }
    split; [exact Hb|]. now rewrite app_nil_r.
Qed.

Lemma passTwo_total_guarded rev fuel known doc :
  enoughFuel fuel doc ->
  (In [] known ->
   forall line, In line doc -> hasMatch [] (cleanLine rev line) = false) ->
  exists st, passTwo rev fuel known doc = Some st.
Proof.
  intros Hf Hne. unfold passTwo. apply foldOption_total. intros line st Hin.
  unfold scanLinePure.
  assert (Hlen : length (cleanLine rev line) < fuel).
  { unfold enoughFuel in Hf. rewrite Forall_forall in Hf.
    specialize (Hf line Hin). pose proof (cleanLine_length rev line). lia. }
  destruct (foldOption_total _ _
              (searchPhrasePure fuel (cleanLine rev line) (S (fst st))) known)
    with (s := snd st) as [occ Hocc].
  - intros phrase occ Hp. unfold searchPhrasePure.
    destruct phrase as [|a phrase].
    + specialize (Hne Hp line Hin). unfold hasMatch in Hne.
      destruct fuel as [|fuel]; [lia|]. simpl.
      destruct (exec (barePattern []) (cleanLine rev line) 0); [discriminate|].
      eauto.
    + apply execLoop_terminates; [|lia].
      intros i y. now apply barePattern_nonempty.
  - rewrite Hocc. simpl. eauto.
Qed.

(** ** No tag span is left by the tag-aware cleaner *)

Lemma tagLike_tagAt t : tagLike t -> exists j, tagAt t j.
Proof.
  intros (pre & c & rest & -> & Hc & Hin). exists (length pre).
  split; [apply nth_error_decomp|]. split.
  - exists c. split; [|exact Hc].
    rewrite nth_error_app2 by lia.
    replace (S (length pre) - length pre) with 1 by lia. reflexivity.
  - apply In_nth_error in Hin as [k Hk]. exists (length pre + 2 + k).
    split; [lia|]. rewrite nth_error_app2 by lia.
    replace (length pre + 2 + k - length pre) with (S (S k)) by lia. exact Hk.
Qed.

Lemma least_index (t : str) (x : char) : forall n a e,
  e = a + n -> nth_error t e = Some x ->
  exists e', a <= e' <= e /\ nth_error t e' = Some x
             /\ forall k, a <= k < e' -> nth_error t k <> Some x.
Proof.
  induction n as [|n IH]; intros a e He Hx.
  - exists e. split; [lia|]. split; [exact Hx|]. intros k Hk. lia.
  - destruct (nth_error t a) as [c|] eqn:Ea.
    + destruct (N.eq_dec c x) as [->|Hne].
      * exists a. split; [lia|]. split; [exact Ea|]. intros k Hk. lia.
      * destruct (IH (S a) e) as (e' & Hle & Hx' & Hmin); [lia|exact Hx|].
        exists e'. split; [lia|]. split; [exact Hx'|].
        intros k Hk. destruct (Nat.eq_dec k a) as [->|Hka].
        -- rewrite Ea. congruence.
        -- apply Hmin. lia.
    + apply nth_error_None in Ea.
      assert (e < length t) by (apply nth_error_Some; congruence). lia.
Qed.

Lemma tagAt_match t j : tagAt t j -> matchAt HTML_TAG_PATTERN t j <> None.
Proof.
  intros (H0 & (c1 & H1 & Hc1) & (e & He & H2)).
  destruct (least_index t (ch ">") (e - S (S j)) (S (S j)) e)
    as (e' & Hle & H2' & Hmin); [lia|exact H2|].
  assert (Hlen : e' < length t) by (apply nth_error_Some; congruence).
  unfold matchAt, HTML_TAG_PATTERN. cbn [pattern ignoreCase seqs fold_right matcher].
  unfold step at 1. cbn [endIndex]. rewrite H0, N.eqb_refl.
  unfold step at 1. cbn [endIndex advance clearCaptures groupsOf].
  rewrite H1, (proj2 (notGt_accept c1) Hc1).
  apply lazyRepeat_step_complete with (e := e');
    cbn [endIndex advance clearCaptures].
  - lia.
  - lia.
  - intros k Hk. destruct (nth_error t k) as [cc|] eqn:Ek.
    + exists cc. split; [reflexivity|]. apply notGt_accept.
      intros ->. apply (Hmin k); [lia|exact Ek].
    + apply nth_error_None in Ek. lia.
  - intros y Hy. unfold step. rewrite Hy, H2', N.eqb_refl. discriminate.
Qed.

Lemma html_match_shape t i y :
  matchAt HTML_TAG_PATTERN t i = Some y ->
  nth_error t i = Some (ch "<") /\ i + 3 <= endIndex y
  /\ nth_error t (endIndex y - 1) = Some (ch ">").
Proof.
  unfold matchAt, HTML_TAG_PATTERN. cbn [pattern ignoreCase seqs fold_right matcher].
  intros H. apply step_inv in H as (c0 & Hn0 & Hc0 & H).
  apply N.eqb_eq in Hc0. simpl in Hc0, Hn0. subst c0.
  apply step_inv in H as (c1 & Hn1 & Hc1 & H).
  apply lazyRepeat_step_inv in H as (e & H & Hle & Hbody). simpl in Hle.
  apply step_inv in H as (c2 & Hn2 & Hc2 & H).
  apply N.eqb_eq in Hc2. simpl in Hc2. subst c2.
  injection H as <-. simpl. split; [exact Hn0|]. split; [lia|].
  now rewrite Nat.sub_0_r.
Qed.

Lemma nth_error_slice (t : str) a b p :
  p < b - a -> nth_error (slice t a b) p = nth_error t (a + p).
Proof.
  intros Hp. unfold slice. rewrite nth_error_firstn.
  destruct (p <? b - a) eqn:E; [|apply Nat.ltb_ge in E; lia].
  apply nth_error_skipn.
Qed.

Lemma html_replaceLoop_clean t : forall fuel k,
  k <= length t -> length t - k < fuel ->
  forall p, ~ tagAt (replaceLoop HTML_TAG_PATTERN t (codeUnits " ") fuel k k) p.
Proof.
  induction fuel as [|fuel IH]; intros k Hk Hf p; [lia|].
  cbn [replaceLoop].
  destruct (exec HTML_TAG_PATTERN t k) as [[i y]|] eqn:E.
  - apply exec_some in E as (Hi & Hm & Hnone & He).
    pose proof (html_match_shape t i y Hm) as (Hlt & Hspan & Hgt).
    destruct (i <? k) eqn:Hik; [apply Nat.ltb_lt in Hik; lia|].
    destruct (endIndex y =? i) eqn:Hei; [apply Nat.eqb_eq in Hei; lia|].
    cbv zeta.
    change (GetSubstitution (slice t i (endIndex y)) (codeUnits " "))
      with [ch " "].
    set (B := replaceLoop HTML_TAG_PATTERN t (codeUnits " ") fuel
                          (endIndex y) (endIndex y)).
    assert (HB : forall q, ~ tagAt B q) by (apply IH; lia).
    assert (HA : length (slice t k i) = i - k) by (apply slice_length; lia).
    intros (H0 & (c & H1 & Hc) & (e & Hpe & H2)).
    destruct (Nat.lt_ge_cases p (i - k)) as [Hp|Hp].
    + rewrite nth_error_app1, nth_error_slice in H0 by lia.
      assert (Hno : matchAt HTML_TAG_PATTERN t (k + p) = None)
        by (apply Hnone; lia).
      apply (tagAt_match t (k + p)); [|exact Hno].
      split; [exact H0|]. split.
      * destruct (Nat.lt_ge_cases (S p) (i - k)) as [Hsp|Hsp].
        -- rewrite nth_error_app1, nth_error_slice in H1 by lia.
           exists c. replace (S (k + p)) with (k + S p) by lia. auto.
        -- exists (ch "<"). replace (S (k + p)) with i by lia.
           split; [exact Hlt|discriminate].
      * exists (endIndex y - 1). split; [lia|exact Hgt].
    + rewrite nth_error_app2 in H0 by lia. rewrite HA in H0.
      destruct (p - (i - k)) as [|p'] eqn:Ep; [discriminate H0|].
      cbn [app nth_error] in H0.
      apply (HB p'). split; [exact H0|]. split.
      * exists c. split; [|exact Hc].
        rewrite nth_error_app2 in H1 by lia. rewrite HA in H1.
        replace (S p - (i - k)) with (S (S p')) in H1 by lia. exact H1.
      * exists (e - (i - k) - 1). split; [lia|].
        rewrite nth_error_app2 in H2 by lia. rewrite HA in H2.
        replace (e - (i - k)) with (S (e - (i - k) - 1)) in H2 by lia.
        exact H2.
  - intros (H0 & (c & H1 & Hc) & (e & Hpe & H2)).
    rewrite nth_error_skipn in H0, H1, H2.
    assert (Hlen : k + p < length t) by (apply nth_error_Some; congruence).
    apply (tagAt_match t (k + p)).
    + split; [exact H0|]. split.
      * exists c. replace (S (k + p)) with (k + S p) by lia. auto.
      * exists (k + e). split; [lia|exact H2].
    + apply (proj1 (exec_none _ _ _) E). lia.
Qed.

Lemma html_replace_clean t :
  ~ hasTagSpan (replace t HTML_TAG_PATTERN (codeUnits " ")).
Proof.
  intros H. apply tagLike_iff, tagLike_tagAt in H as [p Hp].
  revert Hp. apply html_replaceLoop_clean; lia.
Qed.

(** ** The report does not depend on the order of insertion *)

Lemma strLtb_antisym : forall a b,
  strLtb a b = false -> strLtb b a = false -> a = b.
Proof.
  induction a as [|x a IH]; intros [|y b] H1 H2; simpl in *;
    try reflexivity; try discriminate.
  destruct (N.ltb_spec x y); [discriminate|].
  destruct (N.ltb_spec y x); [discriminate|].
  f_equal; [lia|now apply IH].
Qed.

Lemma sorted_perm_unique (l l' : list str) :
  StronglySorted (fun a b => strLtb b a = false) l ->
  StronglySorted (fun a b => strLtb b a = false) l' ->
  Permutation l l' -> l = l'.
Proof.
  intros Hl. revert l'. induction Hl as [|a l Hl IH Ha]; intros l' Hl' Hp.
  - apply Permutation_nil in Hp. now subst.
  - destruct Hl' as [|b l' Hl' Hb].
    + apply Permutation_sym, Permutation_nil in Hp. discriminate.
    + assert (Hab : a = b).
      { rewrite Forall_forall in Ha, Hb.
        assert (Hin1 : In a (b :: l'))
          by (eapply Permutation_in; [exact Hp|now left]).
        assert (Hin2 : In b (a :: l))
          by (eapply Permutation_in; [apply Permutation_sym, Hp|now left]).
        destruct Hin1 as [->|Hin1]; [reflexivity|].
        destruct Hin2 as [->|Hin2]; [reflexivity|].
        apply strLtb_antisym; [apply Hb, Hin1|apply Ha, Hin2]. }
      subst b. f_equal. apply IH; [exact Hl'|].
      eapply Permutation_cons_inv, Hp.
Qed.

Lemma sort_perm_eq l l' : Permutation l l' -> sort l = sort l'.
Proof.
  intros H. apply sorted_perm_unique; try apply sort_sorted.
  rewrite (sort_perm l), H. symmetry. apply sort_perm.
Qed.

Lemma mapGet_unique occ p v :
  NoDup (mapKeys occ) -> In (p, v) occ -> mapGet occ p = Some v.
Proof.
  induction occ as [|[k w] occ IH]; intros Hnd Hin; [destruct Hin|].
  simpl in Hnd. inversion Hnd as [|? ? Hk Hnd']; subst. simpl.
  destruct (strEqb p k) eqn:E.
  - apply strEqb_eq in E. subst k. destruct Hin as [[= ->]|Hin]; [reflexivity|].
    exfalso. apply Hk. change p with (fst (p, v)). now apply in_map.
  - destruct Hin as [[= -> ->]|Hin]; [now rewrite strEqb_refl in E|].
    now apply IH.
Qed.

Lemma mapGet_perm occ occ' p :
  NoDup (mapKeys occ) -> Permutation occ occ' -> mapGet occ p = mapGet occ' p.
Proof.
  intros Hnd Hp.
  assert (Hnd' : NoDup (mapKeys occ')).
  { eapply Permutation_NoDup; [|exact Hnd]. now apply Permutation_map. }
  destruct (mapGet occ p) as [v|] eqn:E.
  - symmetry. apply mapGet_unique; [exact Hnd'|].
    eapply Permutation_in; [exact Hp|]. now apply mapGet_In.
  - destruct (mapGet occ' p) as [v'|] eqn:E'; [|reflexivity].
    apply mapGet_In in E'.
    apply (Permutation_in _ (Permutation_sym Hp)) in E'.
    apply (mapGet_unique _ _ _ Hnd) in E'. congruence.
Qed.

Lemma reportOf_perm occ occ' :
  NoDup (mapKeys occ) -> Permutation occ occ' -> reportOf occ = reportOf occ'.
Proof.
  intros Hnd Hp. unfold reportOf, reportedPhrases.
  rewrite (Permutation_length Hp).
  rewrite (sort_perm_eq (mapKeys occ) (mapKeys occ'))
    by now apply Permutation_map.
  assert (Hl : forall p, linesOf occ p = linesOf occ' p).
  { intros p. unfold linesOf. now rewrite (mapGet_perm occ occ' p Hnd Hp). }
  destruct (0 <? length occ'); [|reflexivity].
  f_equal. f_equal.
  rewrite (filter_ext _ (fun p => 0 <? length (linesOf occ' p)))
    by (intros p; now rewrite Hl).
  apply map_ext. intros p. now rewrite Hl.
Qed.

(** ** More on pass 1 and on the record *)

Lemma collectLine_no_annotation fuel line known known' :
  ~ containsAnnotation line ->
  collectLine fuel line known = Some known' -> known' = known.
Proof.
  intros Hno. unfold collectLine. destruct fuel as [|fuel]; [discriminate|].
  simpl. destruct (exec WRAPPED_PHRASE_EXTRACTION_PATTERN line 0) eqn:E.
  - exfalso. apply Hno, containsAnnotation_exec. congruence.
  - now intros [= <-].
Qed.

Lemma mapKeys_recordMatch phrase n occ :
  mapKeys (recordMatch phrase n occ)
  = if mapHas occ phrase then mapKeys occ else mapKeys occ ++ [phrase].
Proof.
  rewrite recordMatch_spec. unfold mapHas.
  destruct (mapGet occ phrase) as [existing|] eqn:E.
  - destruct (lastElement existing) as [x|].
    + destruct (x =? n); [reflexivity|]. now apply mapKeys_mapSet with (w := existing).
    + now apply mapKeys_mapSet with (w := existing).
  - unfold mapKeys. now rewrite map_app.
Qed.

Lemma recordOk_lists known n occ :
  recordOk known n occ -> Forall (fun e => snd e <> []) occ.
Proof.
  intros [_ H]. apply Forall_forall. intros [p ls] Hin. simpl.
  apply H in Hin as [_ (_ & _ & Hne)]. exact Hne.
Qed.

Lemma recordOk_keys known n occ p :
  recordOk known n occ -> In p (mapKeys occ) -> In p known.
Proof.
  intros [_ H] Hin. apply in_map_iff in Hin as ([q ls] & <- & Hin).
  now apply H in Hin as [Hk _].
Qed.

Lemma linesOf_key occ p : linesOf occ p <> [] -> In p (mapKeys occ).
Proof.
  unfold linesOf. destruct (mapGet occ p) as [ls|] eqn:E; [|congruence].
  intros _. apply mapGet_In in E. change p with (fst (p, ls)). now apply in_map.
Qed.

Lemma key_linesOf known n occ p :
  recordOk known n occ -> In p (mapKeys occ) -> linesOf occ p <> [].
Proof.
  intros Hok Hin. destruct Hok as [Hnd H].
  apply in_map_iff in Hin as ([q ls] & Hq & Hin). simpl in Hq. subst q.
  unfold linesOf. rewrite (mapGet_unique occ p ls Hnd Hin).
  now apply H in Hin as [_ (_ & _ & Hne)].
Qed.

(** ** A pattern without look-behind matches a suffix as it matches the
    string from there on *)

Lemma add_eqb_cancel n a b : (n + a =? n + b) = (a =? b).
Proof.
  destruct (Nat.eqb_spec a b) as [->|Hne].
  - apply Nat.eqb_refl.
  - apply Nat.eqb_neq. lia.
Qed.

Lemma lazyRepeat_shift n m m' ns ns' fuel :
  (forall c c' x x', endIndex x = n + endIndex x' ->
     (forall y y', endIndex y = n + endIndex y' -> shiftedEnd n (c y) (c' y')) ->
     shiftedEnd n (m c x) (m' c' x')) ->
  forall c c' x x', endIndex x = n + endIndex x' ->
    (forall y y', endIndex y = n + endIndex y' -> shiftedEnd n (c y) (c' y')) ->
    shiftedEnd n (lazyRepeat m ns fuel c x) (lazyRepeat m' ns' fuel c' x').
Proof.
  intros Hm. induction fuel as [|fuel IH]; intros c c' x x' Hx Hc; simpl;
    pose proof (Hc x x' Hx) as H0;
    destruct (c x) as [z|], (c' x') as [z'|]; simpl in H0; try contradiction;
    try exact H0.
  apply Hm; [simpl; exact Hx|].
  intros y y' Hy. rewrite Hy, Hx, add_eqb_cancel.
  destruct (endIndex y' =? endIndex x'); [exact I|]. now apply IH.
Qed.

Lemma matcher_shift icase (p t : str) r :
  lookbehindFree r = true ->
  forall c c' x x',
    endIndex x = length p + endIndex x' ->
    (forall y y', endIndex y = length p + endIndex y' ->
                  shiftedEnd (length p) (c y) (c' y')) ->
    shiftedEnd (length p) (matcher icase (p ++ t) r c x) (matcher icase t r c' x').
Proof.
  assert (Hstep : forall accept c c' x x',
            endIndex x = length p + endIndex x' ->
            (forall y y', endIndex y = length p + endIndex y' ->
                          shiftedEnd (length p) (c y) (c' y')) ->
            shiftedEnd (length p) (step (p ++ t) accept c x) (step t accept c' x')).
  { intros accept c c' x x' Hx Hc. unfold step. rewrite Hx.
    rewrite nth_error_app2 by lia.
    replace (length p + endIndex x' - length p) with (endIndex x') by lia.
    destruct (nth_error t (endIndex x')) as [cc|]; [|exact I].
    destruct (accept cc); [|exact I]. apply Hc. simpl. lia. }
  induction r as [|a| |inv cs| |r1 IH1 r2 IH2|r1 IH1 r2 IH2|k r1 IH1|r1 IH1|r1 IH1];
    intros Hfree c c' x x' Hx Hc; simpl in Hfree |- *.
  - now apply Hc.
  - now apply Hstep.
  - now apply Hstep.
  - now apply Hstep.
  - discriminate Hfree.
  - apply andb_true_iff in Hfree as [H1 H2].
    apply IH1; [exact H1|exact Hx|]. intros y y' Hy. now apply IH2.
  - apply andb_true_iff in Hfree as [H1 H2].
    pose proof (IH1 H1 c c' x x' Hx Hc) as Hr.
    destruct (matcher icase (p ++ t) r1 c x), (matcher icase t r1 c' x');
      simpl in Hr; try contradiction; [exact Hr|].
    now apply IH2.
  - apply IH1; [exact Hfree|exact Hx|]. intros y y' Hy. apply Hc. exact Hy.
  - replace (length (p ++ t) - endIndex x) with (length t - endIndex x')
      by (rewrite length_app; lia).
    apply lazyRepeat_shift; [|exact Hx|exact Hc].
    intros d d' z z'. now apply IH1.
  - apply IH1; [exact Hfree|simpl; exact Hx|]. intros y y' Hy.
    replace (length (p ++ t) - endIndex y) with (length t - endIndex y')
      by (rewrite length_app; lia).
    apply lazyRepeat_shift; [|exact Hy|exact Hc].
    intros d d' z z'. now apply IH1.
Qed.

Lemma matchAt_shift re (p t : str) i :
  lookbehindFree (pattern re) = true ->
  shiftedEnd (length p) (matchAt re (p ++ t) (length p + i)) (matchAt re t i).
Proof.
  intros Hfree. unfold matchAt. apply matcher_shift; [exact Hfree|reflexivity|].
  intros y y' Hy. exact Hy.
Qed.

Lemma searchFrom_shift re (p t : str) :
  lookbehindFree (pattern re) = true ->
  forall n i, shiftedSpan (length p) (searchFrom re (p ++ t) n (length p + i))
                          (searchFrom re t n i).
Proof.
  intros Hfree. induction n as [|n IH]; intros i; simpl;
    pose proof (matchAt_shift re p t i Hfree) as Hi;
    destruct (matchAt re (p ++ t) (length p + i)), (matchAt re t i);
    simpl in Hi; try contradiction; simpl; auto.
  rewrite <- Nat.add_succ_r. apply IH.
Qed.

Lemma exec_shift re (p t : str) lastIndex :
  lookbehindFree (pattern re) = true ->
  shiftedSpan (length p) (exec re (p ++ t) (length p + lastIndex))
                         (exec re t lastIndex).
Proof.
  intros Hfree. unfold exec. rewrite length_app.
  replace (length p + length t <? length p + lastIndex) with (length t <? lastIndex).
  2:{ destruct (Nat.ltb_spec (length t) lastIndex);
      symmetry; [apply Nat.ltb_lt|apply Nat.ltb_ge]; lia. }
  destruct (length t <? lastIndex); [exact I|].
  replace (length p + length t - (length p + lastIndex))
    with (length t - lastIndex) by lia.
  now apply searchFrom_shift.
Qed.

Lemma skipn_shift (p t : str) a : skipn (length p + a) (p ++ t) = skipn a t.
Proof.
  rewrite skipn_app. rewrite skipn_all2 by lia.
  replace (length p + a - length p) with a by lia. reflexivity.
Qed.

Lemma slice_shift (p t : str) a b :
  slice (p ++ t) (length p + a) (length p + b) = slice t a b.
Proof.
  unfold slice. rewrite skipn_shift. f_equal. lia.
Qed.

Lemma replaceLoop_shift re (p t repl : str) :
  lookbehindFree (pattern re) = true ->
  forall fuel lastIndex nsp,
    replaceLoop re (p ++ t) repl fuel (length p + lastIndex) (length p + nsp)
    = replaceLoop re t repl fuel lastIndex nsp.
Proof.
  intros Hfree. induction fuel as [|fuel IH]; intros lastIndex nsp; simpl.
  - apply skipn_shift.
  - pose proof (exec_shift re p t lastIndex Hfree) as He.
    destruct (exec re (p ++ t) (length p + lastIndex)) as [[i y]|],
             (exec re t lastIndex) as [[i' y']|]; simpl in He;
      try contradiction; [|apply skipn_shift].
    destruct He as [-> ->].
    rewrite add_eqb_cancel, !slice_shift.
    replace (length p + i' <? length p + nsp) with (i' <? nsp).
    2:{ destruct (Nat.ltb_spec i' nsp);
        symmetry; [apply Nat.ltb_lt|apply Nat.ltb_ge]; lia. }
    destruct (endIndex y' =? i'); destruct (i' <? nsp);
      rewrite <- ?Nat.add_succ_r, !IH; reflexivity.
Qed.

(** The first round of a replacement, and the rest of the string. *)
Lemma replace_first re (s repl : str) i y :
  lookbehindFree (pattern re) = true ->
  exec re s 0 = Some (i, y) -> i < endIndex y ->
  replace s re repl
  = firstn i s ++ GetSubstitution (slice s i (endIndex y)) repl
      ++ replace (skipn (endIndex y) s) re repl.
Proof.
  intros Hfree He Hlt. unfold replace at 1. cbn [replaceLoop]. rewrite He.
  apply exec_some in He as (_ & _ & _ & Hle).
  destruct (endIndex y =? i) eqn:E; [apply Nat.eqb_eq in E; lia|].
  change (i <? 0) with false. cbv iota.
  unfold slice at 1. rewrite Nat.sub_0_r. cbn [skipn].
  do 2 f_equal.
  set (e := endIndex y) in *.
  assert (Hlen : length (firstn e s) = e) by (rewrite length_firstn; lia).
  pose proof (replaceLoop_shift re (firstn e s) (skipn e s) repl Hfree
                (length s) 0 0) as Hsh.
  rewrite firstn_skipn, Hlen, Nat.add_0_r in Hsh. rewrite Hsh.
  unfold replace. apply replaceLoop_fuel_enough; rewrite length_skipn; lia.
Qed.

(** ** The cleaner on a line that begins with plain text and a span *)

Lemma exec_first re s lastIndex i y :
  lastIndex <= i <= length s ->
  (forall k, lastIndex <= k < i -> matchAt re s k = None) ->
  matchAt re s i = Some y ->
  exec re s lastIndex = Some (i, y).
Proof.
  intros Hi Hnone Hm.
  destruct (exec re s lastIndex) as [[j z]|] eqn:E.
  - apply exec_some in E as (Hj & Hmj & Hbefore & _).
    destruct (Nat.lt_trichotomy j i) as [Hlt|[->|Hgt]].
    + rewrite Hnone in Hmj by lia. discriminate.
    + congruence.
    + rewrite Hbefore in Hm by lia. discriminate.
  - rewrite (proj1 (exec_none _ _ _) E) in Hm by lia. discriminate.
Qed.

Lemma nth_error_third (a b c : str) x d :
  nth_error (a ++ b ++ c ++ x :: d) (length a + length b + length c) = Some x.
Proof.
  rewrite nth_error_app2 by lia. rewrite nth_error_app2 by lia.
  rewrite nth_error_app2 by lia.
  replace (length a + length b + length c - length a - length b - length c)
    with 0 by lia.
  reflexivity.
Qed.

Lemma nth_error_third_in (a b c : str) x d j :
  length a + length b <= j < length a + length b + length c ->
  exists cc, nth_error (a ++ b ++ c ++ x :: d) j = Some cc /\ In cc c.
Proof.
  intros Hj. rewrite nth_error_app2 by lia. rewrite nth_error_app2 by lia.
  rewrite nth_error_app1 by lia.
  destruct (nth_error c (j - length a - length b)) as [cc|] eqn:E.
  - exists cc. split; [reflexivity|]. eapply nth_error_In, E.
  - apply nth_error_None in E. lia.
Qed.

Lemma payload_end pre marker payload post x z :
  Forall (fun c => isLineTerminator c = false /\ c <> ch "]") payload ->
  S x = length pre + length marker ->
  matcher true (pre ++ marker ++ payload ++ ch "]" :: post) (seqs payloadTail)
          Some (mkState x []) = Some z ->
  endIndex z = length pre + length marker + length payload + 1.
Proof.
  intros Hp Hx H.
  apply payloadTail_first in H as (e & Hle & _ & Hdots & Hclose & Hend & _).
  cbn [endIndex] in *. rewrite Forall_forall in Hp.
  destruct (Nat.lt_trichotomy e (length pre + length marker + length payload))
    as [Hlt|[->|Hgt]].
  - destruct (nth_error_third_in pre marker payload (ch "]") post e)
      as (cc & Hn & Hin); [lia|].
    rewrite Hn in Hclose. injection Hclose as ->.
    now apply Hp in Hin as [_ Hne].
  - lia.
  - destruct (Hdots (length pre + length marker + length payload))
      as (cc & Hn & _ & Hne); [lia|].
    rewrite nth_error_third in Hn. congruence.
Qed.

Lemma extraction_at_annotation pre marker payload post :
  (ciEqual marker (codeUnits "@[static#")
   \/ ciEqual marker (codeUnits "@[static-header#")) ->
  Forall (fun c => isLineTerminator c = false /\ c <> ch "]") payload ->
  exists y,
    matchAt WRAPPED_PHRASE_EXTRACTION_PATTERN
            (pre ++ marker ++ payload ++ [ch "]"] ++ post) (length pre) = Some y
    /\ endIndex y = length pre + length marker + length payload + 1.
Proof.
  intros Hci Hp.
  assert (Hp' : Forall (fun c => isLineTerminator c = false) payload).
  { eapply Forall_impl; [|exact Hp]. now intros c [Hc _]. }
  rewrite extraction_unfold. cbv zeta.
  destruct Hci as [Hci|Hci].
  - destruct (keyword_complete pre marker payload post (codeUnits "static")
                Hci Hp') as (H1 & H2 & H3).
    rewrite H1, H2. change (length (codeUnits "static")) with 6 in H3.
    destruct (matcher true _ (seqs payloadTail) Some _) as [z|] eqn:M;
      [|contradiction].
    exists z. split; [reflexivity|].
    apply (payload_end pre marker payload post (length pre + 2 + 6) z Hp);
      [|exact M].
    apply ciEqual_length in Hci. rewrite Hci. simpl. lia.
  - destruct (keyword_complete pre marker payload post
                (codeUnits "static-header") Hci Hp') as (H1 & H2 & H3).
    rewrite H1, H2. change (length (codeUnits "static-header")) with 13 in H3.
    assert (Hother :
              (if litMatches true (pre ++ marker ++ payload ++ [ch "]"] ++ post)
                             (codeUnits "static") (length pre + 2)
               then matcher true (pre ++ marker ++ payload ++ [ch "]"] ++ post)
                            (seqs payloadTail) Some
                            (mkState (length pre + 2 + 6) [])
               else None) = None).
    { destruct (litMatches true _ (codeUnits "static") _); [|reflexivity].
      destruct (matcher true _ (seqs payloadTail) Some
                        (mkState (length pre + 2 + 6) [])) as [z|] eqn:M;
        [|reflexivity].
      exfalso. apply payloadTail_inv in M as (_ & _ & Hhash & _).
      cbn [endIndex] in Hhash.
      change (codeUnits "static-header")
        with (codeUnits "static" ++ codeUnits "-header") in H2.
      rewrite litMatches_app in H2. apply andb_true_iff in H2 as [_ H2].
      change (length (codeUnits "static")) with 6 in H2.
      change (codeUnits "-header") with (ch "-" :: codeUnits "header") in H2.
      cbn [litMatches] in H2. rewrite Hhash in H2.
      apply andb_true_iff in H2 as [H2 _]. vm_compute in H2. discriminate H2. }
    rewrite Hother.
    destruct (matcher true _ (seqs payloadTail) Some _) as [z|] eqn:M;
      [|contradiction].
    exists z. split; [reflexivity|].
    apply (payload_end pre marker payload post (length pre + 2 + 13) z Hp);
      [|exact M].
    apply ciEqual_length in Hci. rewrite Hci. simpl. lia.
Qed.

Lemma firstn_prefix (a b : str) : firstn (length a) (a ++ b) = a.
Proof.
  rewrite firstn_app, Nat.sub_diag, firstn_all. simpl. apply app_nil_r.
Qed.

Lemma skipn_prefix (a b : str) : skipn (length a) (a ++ b) = b.
Proof.
  rewrite skipn_app, Nat.sub_diag, skipn_all. reflexivity.
Qed.

Lemma removal_first_annotation pre marker payload post :
  ~ In (ch "@") pre ->
  (ciEqual marker (codeUnits "@[static#")
   \/ ciEqual marker (codeUnits "@[static-header#")) ->
  Forall (fun c => isLineTerminator c = false /\ c <> ch "]") payload ->
  replace (pre ++ marker ++ payload ++ [ch "]"] ++ post)
          WRAPPED_PATTERN_REMOVAL_PATTERN []
  = pre ++ replace post WRAPPED_PATTERN_REMOVAL_PATTERN [].
Proof.
  intros Hpre Hci Hp.
  destruct (extraction_at_annotation pre marker payload post Hci Hp)
    as (x & Hx & Hend).
  set (s := pre ++ marker ++ payload ++ [ch "]"] ++ post) in *.
  pose proof (removal_extraction s (length pre)) as Hsame. rewrite Hx in Hsame.
  destruct (matchAt WRAPPED_PATTERN_REMOVAL_PATTERN s (length pre)) as [y|] eqn:Hy;
    simpl in Hsame; [|contradiction].
  assert (Hex : exec WRAPPED_PATTERN_REMOVAL_PATTERN s 0 = Some (length pre, y)).
  { apply exec_first; [| |exact Hy].
    - unfold s. rewrite length_app. lia.
    - intros k Hk.
      destruct (matchAt WRAPPED_PATTERN_REMOVAL_PATTERN s k) as [z|] eqn:Hz;
        [|reflexivity].
      exfalso. apply Hpre. apply removal_match in Hz as [Hn _].
      unfold s in Hn. rewrite nth_error_app1 in Hn by lia.
      eapply nth_error_In, Hn. }
  rewrite (replace_first WRAPPED_PATTERN_REMOVAL_PATTERN s [] (length pre) y)
    by (try reflexivity; try exact Hex; lia).
  cbn [GetSubstitution app]. unfold s at 1. rewrite firstn_prefix. f_equal.
  f_equal. rewrite <- Hsame, Hend. unfold s.
  replace (pre ++ marker ++ payload ++ [ch "]"] ++ post)
    with ((pre ++ marker ++ payload ++ [ch "]"]) ++ post)
    by (now rewrite <- !app_assoc).
  replace (length pre + length marker + length payload + 1)
    with (length (pre ++ marker ++ payload ++ [ch "]"]))
    by (rewrite !length_app; simpl; lia).
  now rewrite skipn_prefix.
Qed.

Lemma html_match_first t i y :
  matchAt HTML_TAG_PATTERN t i = Some y ->
  exists e, endIndex y = S e /\ S (S i) <= e
            /\ nth_error t e = Some (ch ">")
            /\ forall j, S i <= j < e ->
                 exists cc, nth_error t j = Some cc /\ cc <> ch ">".
Proof.
  unfold matchAt, HTML_TAG_PATTERN. cbn [pattern ignoreCase seqs fold_right matcher].
  intros H. apply step_inv in H as (c0 & Hn0 & Hc0 & H).
  apply step_inv in H as (c1 & Hn1 & Hc1 & H). simpl in Hn1.
  apply lazyRepeat_step_inv in H as (e & H & Hle & Hbody). simpl in Hle, Hbody.
  apply step_inv in H as (c2 & Hn2 & Hc2 & H).
  apply N.eqb_eq in Hc2. simpl in Hc2. subst c2.
  injection H as <-. exists (endIndex e). simpl.
  split; [reflexivity|]. split; [lia|]. split; [exact Hn2|].
  intros j Hj. destruct (Nat.eq_dec j (S i)) as [->|Hne].
  - exists c1. split; [exact Hn1|]. now apply notGt_accept.
  - destruct (Hbody j) as (cc & Hn & Hacc); [lia|].
    exists cc. split; [exact Hn|]. now apply notGt_accept.
Qed.

Lemma html_first_tag pre body post :
  ~ In (ch "<") pre -> body <> [] -> Forall (fun c => c <> ch ">") body ->
  replace (pre ++ [ch "<"] ++ body ++ [ch ">"] ++ post)
          HTML_TAG_PATTERN (codeUnits " ")
  = pre ++ [ch " "] ++ replace post HTML_TAG_PATTERN (codeUnits " ").
Proof.
  intros Hpre Hne Hbody.
  set (s := pre ++ [ch "<"] ++ body ++ [ch ">"] ++ post).
  assert (Hclose : nth_error s (length pre + 1 + length body) = Some (ch ">"))
    by apply (nth_error_third pre [ch "<"] body (ch ">") post).
  assert (Hin : forall j, length pre + 1 <= j < length pre + 1 + length body ->
                  exists cc, nth_error s j = Some cc /\ cc <> ch ">").
  { intros j Hj.
    destruct (nth_error_third_in pre [ch "<"] body (ch ">") post j Hj)
      as (cc & Hn & Hc).
    exists cc. split; [exact Hn|]. rewrite Forall_forall in Hbody. auto. }
  assert (Hopen : nth_error s (length pre) = Some (ch "<"))
    by apply nth_error_decomp.
  assert (Htag : tagAt s (length pre)).
  { split; [exact Hopen|]. split.
    - destruct body as [|c body]; [contradiction|].
      destruct (Hin (S (length pre))) as (cc & Hn & Hc); [simpl; lia|].
      now exists cc.
    - exists (length pre + 1 + length body). split; [|exact Hclose].
      destruct body; [contradiction|simpl; lia]. }
  apply tagAt_match in Htag.
  destruct (matchAt HTML_TAG_PATTERN s (length pre)) as [y|] eqn:Hy;
    [|contradiction].
  assert (Hend : endIndex y = length pre + 1 + length body + 1).
  { destruct (html_match_first s (length pre) y Hy) as (e & He & Hle & Hgt & Hnot).
    destruct (Nat.lt_trichotomy e (length pre + 1 + length body))
      as [Hlt|[->|Hgt']].
    - destruct (Hin e) as (cc & Hn & Hc); [lia|]. congruence.
    - lia.
    - destruct (Hnot (length pre + 1 + length body)) as (cc & Hn & Hc);
        [lia|].
      congruence. }
  assert (Hex : exec HTML_TAG_PATTERN s 0 = Some (length pre, y)).
  { apply exec_first; [| |exact Hy].
    - unfold s. rewrite length_app. lia.
    - intros k Hk.
      destruct (matchAt HTML_TAG_PATTERN s k) as [z|] eqn:Hz; [|reflexivity].
      exfalso. apply Hpre. apply html_match in Hz as [Hn _].
      unfold s in Hn. rewrite nth_error_app1 in Hn by lia.
      eapply nth_error_In, Hn. }
  rewrite (replace_first HTML_TAG_PATTERN s (codeUnits " ") (length pre) y)
    by (try reflexivity; try exact Hex; lia).
  change (GetSubstitution (slice s (length pre) (endIndex y)) (codeUnits " "))
    with [ch " "].
  unfold s at 1. rewrite firstn_prefix. do 2 f_equal.
  rewrite Hend. unfold s.
  replace (pre ++ [ch "<"] ++ body ++ [ch ">"] ++ post)
    with ((pre ++ [ch "<"] ++ body ++ [ch ">"]) ++ post)
    by (now rewrite <- !app_assoc).
  replace (length pre + 1 + length body + 1)
    with (length (pre ++ [ch "<"] ++ body ++ [ch ">"]))
    by (rewrite !length_app; simpl; lia).
  now rewrite skipn_prefix.
Qed.

Lemma containsAnnotation_app p s :
  containsAnnotation s -> containsAnnotation (p ++ s).
Proof.
  intros (pre & marker & payload & post & -> & Hci & Hp).
  exists (p ++ pre), marker, payload, post.
  split; [now rewrite app_assoc|auto].
Qed.

(** Two bounds under which pass 1 ends give the same set. *)
Lemma passOne_fuel_agree fuel1 fuel2 doc known1 known2 :
  passOne fuel1 doc = Some known1 -> passOne fuel2 doc = Some known2 ->
  known1 = known2.
Proof.
  intros H1 H2. destruct (Nat.le_ge_cases fuel1 fuel2) as [Hle|Hle].
  - apply (passOne_more_fuel fuel1 fuel2 doc known1 Hle) in H1. congruence.
  - apply (passOne_more_fuel fuel2 fuel1 doc known2 Hle) in H2. congruence.
Qed.

(** * The claims *)

(** C1: on the three-line document about Home, pass 1 finds the Known
    Phrase set {Home} and the scan returns the Occurrence Record
    {Home: [2, 3]}; line 3 is cleaned to a line without its tags, on which
    the phrase matches once, at the link text. *)
Theorem C1_home_scenario (fuel : nat) :
  knownPhrases (S (S fuel)) homeDocument = Some (Normal [codeUnits "Home"])
  /\ scanDocument Part000 (S (S fuel)) homeDocument
     = Some (Normal [(codeUnits "Home", [2; 3])])
  /\ cleanLine Part000 homeLine3 = codeUnits " Home  link"
  /\ exists re, barePhrasePattern (codeUnits "Home") = Some re
       /\ exec re (cleanLine Part000 homeLine3) 0 = Some (1, mkState 5 [])
       /\ exec re (cleanLine Part000 homeLine3) 5 = None.
Proof.
  split; [vm_compute; reflexivity|].
  split; [vm_compute; reflexivity|].
  split; [vm_compute; reflexivity|].
  eexists. split; [vm_compute; reflexivity|].
  split; vm_compute; reflexivity.
Qed.

(** C2, on the code: with the annotation of zero-length payload the empty
    phrase becomes a known phrase; its pattern matches the empty string at
    index 0 of the line "a" and leaves [lastIndex] at 0; the first round of
    the loop gives the empty phrase an entry; and the scan never returns,
    whatever the fuel. *)
Theorem C2_empty_payload_never_returns rev fuel :
  knownPhrases (S (S fuel)) emptyPayloadDocument = Some (Normal [[]])
  /\ barePhrasePattern [] = Some (barePattern [])
  /\ exec (barePattern []) (codeUnits "a") 0 = Some (0, mkState 0 [])
  /\ recordMatch [] 2 [] = [([], [2])]
  /\ scanDocument rev fuel emptyPayloadDocument = None
  /\ runProcess rev fuel (Some documentPath) (documentFile emptyPayloadDocument)
     = None.
Proof.
  split; [vm_compute; reflexivity|].
  split; [apply barePhrasePattern_spec|].
  split; [vm_compute; reflexivity|].
  split; [reflexivity|].
  assert (Hclean : cleanLine rev (codeUnits "a") = codeUnits "a")
    by (destruct rev; vm_compute; reflexivity).
  assert (Hstuck : forall n occ,
            searchPhrasePure fuel (codeUnits "a") n [] occ = None).
  { intros n occ. unfold searchPhrasePure.
    apply execLoop_stuck with (j := 0) (y := mkState 0 []);
      vm_compute; reflexivity. }
  assert (Hfind : forall path k,
            findUnwrappedPhraseOccurrences rev fuel
              (documentFile emptyPayloadDocument) path k = None).
  { intros path k. rewrite findUnwrapped_spec by reflexivity.
    cbn [documentFile createReadStream documentStream streamLines streamError].
    destruct fuel as [|[|f]]; [reflexivity|reflexivity|].
    replace (passOne (S (S f)) emptyPayloadDocument) with (Some [@nil char])
      by (vm_compute; reflexivity).
    cbv zeta. cbn [length Nat.eqb].
    unfold passTwo, emptyPayloadDocument. cbn [foldOption].
    destruct (scanLinePure rev (S (S f)) [[]] (codeUnits "@[static#]") (0, []));
      [|reflexivity].
    unfold scanLinePure. rewrite Hclean. cbn [foldOption].
    now rewrite Hstuck. }
  split.
  - unfold scanDocument, result. now rewrite Hfind.
  - change documentPath with (ch "d" :: codeUnits "ocument.txt").
    now rewrite runProcess_path, Hfind.
Qed.

(** C3, on the code: the known phrase "C++" stands at the start of the
    line "C++ rocks", between the string edge and a blank, and neither
    revision records the line; on the line "C++x" the phrase is followed by
    a letter, and both revisions record the line.  On both lines the scan
    does the opposite of what the whole-word rule says, whatever the bound
    on its loops. *)
Theorem C3_whole_word_missed rev :
  knownPhrases 14 cppDocument = Some (Normal [codeUnits "C++"])
  /\ cleanLine rev (codeUnits "C++ rocks") = codeUnits "C++ rocks"
  /\ wholeWordOccurrence (codeUnits "C++") (codeUnits "C++ rocks")
  /\ scanDocument rev 14 cppDocument = Some (Normal [])
  /\ (forall fuel occ,
        scanDocument rev fuel cppDocument = Some (Normal occ) ->
        ~ In 2 (linesOf occ (codeUnits "C++")))
  /\ knownPhrases 14 plusDocument = Some (Normal [codeUnits "C++"])
  /\ cleanLine rev (codeUnits "C++x") = codeUnits "C++x"
  /\ ~ wholeWordOccurrence (codeUnits "C++") (codeUnits "C++x")
  /\ scanDocument rev 14 plusDocument
     = Some (Normal [(codeUnits "C++", [2])])
  /\ (forall fuel occ,
        scanDocument rev fuel plusDocument = Some (Normal occ) ->
        In 2 (linesOf occ (codeUnits "C++"))).
Proof.
  split; [vm_compute; reflexivity|].
  split; [destruct rev; vm_compute; reflexivity|].
  split.
  { exists [], (codeUnits "C++"), (codeUnits " rocks").
    repeat split; reflexivity. }
  split; [destruct rev; vm_compute; reflexivity|].
  split.
  { intros fuel occ Hscan.
    destruct (scanDocument_ok rev fuel cppDocument occ Hscan) as (known & Hk & _).
    rewrite (scanDocument_lines rev fuel cppDocument occ known Hscan Hk).
    destruct (setHas known (codeUnits "C++")); [|intros []].
    replace (matchingLines rev (codeUnits "C++") cppDocument 1) with (@nil nat)
      by (destruct rev; vm_compute; reflexivity).
    intros []. }
  split; [vm_compute; reflexivity|].
  split; [destruct rev; vm_compute; reflexivity|].
  split.
  { intros (pre & w & post & Hs & Hci & _ & Hr).
    pose proof (ciEqual_length _ _ Hci) as Hlen.
    pose proof (f_equal (@length char) Hs) as Hl.
    rewrite !length_app, Hlen in Hl.
    destruct pre as [|a [|b pre]]; [| |simpl in Hl; lia].
    - destruct w as [|w1 [|w2 [|w3 [|w4 w]]]]; try discriminate Hlen.
      injection Hs as _ _ _ Hpost. subst post. vm_compute in Hr. discriminate Hr.
    - destruct w as [|w1 [|w2 [|w3 [|w4 w]]]]; try discriminate Hlen.
      injection Hs as _ <- <- <- _. vm_compute in Hci. discriminate Hci. }
  split; [destruct rev; vm_compute; reflexivity|].
  intros fuel occ Hscan.
  destruct (scanDocument_ok rev fuel plusDocument occ Hscan) as (known & Hk & _).
  rewrite (scanDocument_lines rev fuel plusDocument occ known Hscan Hk).
  apply knownPhrases_passOne in Hk.
  assert (H14 : passOne 14 plusDocument = Some [codeUnits "C++"])
    by (vm_compute; reflexivity).
  rewrite (passOne_fuel_agree fuel 14 plusDocument known _ Hk H14).
  replace (matchingLines rev (codeUnits "C++") plusDocument 1) with [2]
    by (destruct rev; vm_compute; reflexivity).
  change (setHas [codeUnits "C++"] (codeUnits "C++")) with true.
  now left.
Qed.

(** C4, amended: (a) without a file path argument the usage text goes to
    the standard output and the status is 1; (b) when the path does not
    exist an error message goes to the error stream and the status is 1;
    in neither case does a pass run.  (c, d) On an existing path, a run
    that ends does so either with status 1 and, as its last output, a
    message on the error stream that carries the cause of a failed read,
    or, when no read fails, with status 0 after the report, with nothing
    on the error stream.  (e) The run ends when the fuel exceeds the
    length of every line and no known phrase is empty. *)
Theorem C4_exit_status rev fuel argv2 fs :
  (argv2 = None \/ argv2 = Some [] ->
   runProcess rev fuel argv2 fs
   = Some ([(Stdout, usageLine rev); (Stdout, msgPleaseProvide)], 1))
  /\ (forall path,
        argv2 = Some path -> path <> [] -> existsSync fs path = false ->
        runProcess rev fuel argv2 fs
        = Some ([(Stdout, msgSearching path); (Stderr, msgNotFound path)], 1))
  /\ (forall path k code,
        argv2 = Some path -> path <> [] -> existsSync fs path = true ->
        runProcess rev fuel argv2 fs = Some (k, code) ->
        (exists msg k',
            readFailure fuel fs path msg /\ code = 1
            /\ k = k' ++ [(Stderr, msgUnexpected path msg)] /\ onlyStdout k')
        \/ ((forall msg, ~ readFailure fuel fs path msg) /\ code = 0
            /\ onlyStdout k /\ exists k' occ, k = k' ++ reportOf occ))
  /\ (forall path,
        argv2 = Some path -> path <> [] -> existsSync fs path = true ->
        enoughFuel fuel (streamLines (createReadStream fs path 0)) ->
        enoughFuel fuel (streamLines (createReadStream fs path 1)) ->
        (forall known,
            passOne fuel (streamLines (createReadStream fs path 0)) = Some known ->
            ~ In [] known) ->
        exists k code, runProcess rev fuel argv2 fs = Some (k, code)).
Proof.
  split; [|split; [|split]].
  - intros [->| ->]; reflexivity.
  - intros [|c path] -> Hne Hex; [contradiction|].
    rewrite runProcess_path.
    unfold findUnwrappedPhraseOccurrences, tryCatch, bind. now rewrite Hex.
  - intros [|c path] k code -> Hne Hex Hrun; [contradiction|].
    rewrite runProcess_path, (findUnwrapped_spec _ _ _ _ _ Hex) in Hrun.
    cbv zeta in Hrun.
    destruct (passOne fuel _) as [known|] eqn:P1; [|discriminate].
    destruct (streamError (createReadStream fs (c :: path) 0)) as [msg|] eqn:E1.
    { injection Hrun as <- <-. left.
      exists msg, [(Stdout, msgSearching (c :: path)); (Stdout, msgPass1)].
      split; [now apply failsInPass1|]. split; [reflexivity|].
      split; [reflexivity|]. stdout_only. }
    destruct (length known =? 0) eqn:L.
    { injection Hrun as <- <-. right. split; [|split; [reflexivity|split]].
      - intros msg [H|known' _ H2 H3 _]; [congruence|].
        rewrite P1 in H2. injection H2 as <-.
        apply Nat.eqb_eq in L. now destruct known.
      - stdout_only.
      - exists [(Stdout, msgSearching (c :: path)); (Stdout, msgPass1);
                (Stdout, msgFound (length known));
                (Stdout, msgNothingToMonitor)], [].
        reflexivity. }
    destruct (passTwo rev fuel known _) as [st|] eqn:P2; [|discriminate].
    destruct (streamError (createReadStream fs (c :: path) 1)) as [msg|] eqn:E2.
    { injection Hrun as <- <-. left.
      exists msg, [(Stdout, msgSearching (c :: path)); (Stdout, msgPass1);
                   (Stdout, msgFound (length known));
                   (Stdout, pass2Announcement rev)].
      split; [|split; [reflexivity|split; [reflexivity|]]].
      - apply failsInPass2 with (known := known); auto.
        intros ->. discriminate L.
      - stdout_only. }
    injection Hrun as <- <-. right. split; [|split; [reflexivity|split]].
    + intros msg [H|known' _ _ _ H4]; congruence.
    + stdout_only.
    + exists [(Stdout, msgSearching (c :: path)); (Stdout, msgPass1);
              (Stdout, msgFound (length known));
              (Stdout, pass2Announcement rev)], (snd st).
      reflexivity.
  - intros [|c path] -> Hne Hex Hf1 Hf2 Hknown; [contradiction|].
    rewrite runProcess_path, (findUnwrapped_spec _ _ _ _ _ Hex). cbv zeta.
    destruct (passOne_total fuel _ Hf1) as [known P1]. rewrite P1.
    destruct (streamError (createReadStream fs (c :: path) 0)); [eauto|].
    destruct (length known =? 0); [eauto|].
    destruct (passTwo_total rev fuel known _ Hf2 (Hknown known P1)) as [st ->].
    destruct (streamError (createReadStream fs (c :: path) 1)); eauto.
Qed.

(** C5: in the Occurrence Record of any document, the line numbers of a
    phrase are 1-indexed (between 1 and the number of lines) and strictly
    increasing, so a line number stands at most once under a phrase,
    however often the phrase matches on that line. *)
Theorem C5_line_numbers_increasing rev fuel doc occ phrase ls :
  scanDocument rev fuel doc = Some (Normal occ) ->
  mapGet occ phrase = Some ls ->
  StronglySorted lt ls
  /\ Forall (fun n => 1 <= n <= length doc) ls
  /\ NoDup ls.
Proof.
  intros Hscan Hget. apply scanDocument_ok in Hscan as (known & _ & _ & Hall).
  destruct (Hall phrase ls (mapGet_In _ _ _ Hget)) as (_ & Hs & Hb & _).
  split; [exact Hs|]. split; [exact Hb|]. now apply sorted_NoDup.
Qed.

(** C6: every key of the Occurrence Record the scan returns is a member
    of the Known Phrase set of pass 1. *)
Theorem C6_keys_are_known rev fuel doc occ known phrase :
  scanDocument rev fuel doc = Some (Normal occ) ->
  knownPhrases fuel doc = Some (Normal known) ->
  In phrase (mapKeys occ) -> In phrase known.
Proof.
  intros Hscan Hknown Hin.
  apply scanDocument_ok in Hscan as (known' & Hk' & _ & Hall).
  rewrite Hknown in Hk'. injection Hk' as <-.
  apply in_map_iff in Hin as ([p l] & <- & Hin). now apply (Hall p l).
Qed.

(** C7: when no line of the document contains an annotation, pass 1 ends
    with the empty Known Phrase set, the scan returns the empty Occurrence
    Record without opening the second stream, and the reporter states that
    no unwrapped instances of known phrases were found. *)
Theorem C7_no_annotations rev fuel fs path doc :
  path <> [] ->
  existsSync fs path = true ->
  createReadStream fs path 0 = documentStream doc ->
  (forall line, In line doc -> ~ containsAnnotation line) ->
  knownPhrases (S fuel) doc = Some (Normal [])
  /\ scanDocument rev (S fuel) doc = Some (Normal [])
  /\ findUnwrappedPhraseOccurrences rev (S fuel) fs path []
     = Some ([(Stdout, msgPass1); (Stdout, msgFound 0);
              (Stdout, msgNothingToMonitor)], Normal [])
  /\ runProcess rev (S fuel) (Some path) fs
     = Some ([(Stdout, msgSearching path); (Stdout, msgPass1);
              (Stdout, msgFound 0); (Stdout, msgNothingToMonitor);
              (Stdout, msgNoneFound)], 0).
Proof.
  intros Hne Hex Hrl Hno.
  pose proof (passOne_no_annotation fuel doc Hno) as Hp.
  split; [now rewrite knownPhrases_spec, Hp|].
  split; [now rewrite scanDocument_spec, Hp|].
  assert (Hfind : forall k,
            findUnwrappedPhraseOccurrences rev (S fuel) fs path k
            = Some (((k ++ [(Stdout, msgPass1)]) ++ [(Stdout, msgFound 0)])
                      ++ [(Stdout, msgNothingToMonitor)], Normal [])).
  { intros k. rewrite (findUnwrapped_spec rev (S fuel) fs path k Hex), Hrl.
    cbn [documentStream streamLines streamError]. now rewrite Hp. }
  split; [apply Hfind|].
  destruct path as [|c path]; [contradiction|].
  now rewrite runProcess_path, Hfind.
Qed.

(** C8, amended: for a non-empty Occurrence Record the reporter prints,
    between its header and footer, the phrases sorted lexicographically by
    UTF-16 code unit, each followed by its line numbers in their order, and
    leaves the Record as it was. *)
Theorem C8_report_sorted occ k :
  0 < length occ ->
  Forall (fun e => snd e <> []) occ ->
  processResults occ k
  = Some (k ++ [(Stdout, msgReportHeader)]
            ++ map (fun p => (Stdout, reportLine p (linesOf occ p)))
                   (sort (mapKeys occ))
            ++ [(Stdout, msgReportFooter)],
          Normal occ)
  /\ StronglySorted (fun a b => strLtb b a = false) (sort (mapKeys occ))
  /\ Permutation (sort (mapKeys occ)) (mapKeys occ).
Proof.
  intros Hlen Hne. split; [|split; [apply sort_sorted|apply sort_perm]].
  rewrite processResults_spec. unfold reportOf.
  apply Nat.ltb_lt in Hlen. rewrite Hlen.
  now rewrite (reportedPhrases_all occ Hne).
Qed.

(** C9: the Tag-Aware Cleaner (annotation spans removed, then every
    HTML-like tag span replaced by one blank) never returns a line that is
    longer than the raw line. *)
Theorem C9_cleaned_line_not_longer (line : str) :
  length (cleanLine Part000 line) <= length line.
Proof. apply cleanLine_length. Qed.

(** C10: on a document none of whose lines contains an HTML-like tag span,
    the two shipped revisions return the same Occurrence Record (and
    neither returns when the other does not). *)
Theorem C10_revisions_agree_without_tags fuel doc :
  (forall line, In line doc -> ~ hasTagSpan line) ->
  scanDocument IndexJs fuel doc = scanDocument Part000 fuel doc.
Proof.
  intros Hno. rewrite !scanDocument_spec.
  destruct (passOne fuel doc) as [known|]; [|reflexivity].
  destruct (length known =? 0); [reflexivity|].
  unfold passTwo.
  rewrite (foldOption_ext _ _ (scanLinePure IndexJs fuel known)
                          (scanLinePure Part000 fuel known)); [reflexivity|].
  intros line st Hin. unfold scanLinePure.
  now rewrite (cleanLine_agree line (Hno line Hin)).
Qed.

(** * Further properties of the code *)

(** X1: [escapeRegExp] puts a backslash before every character of its
    class (the fourteen syntax characters) and copies every other character;
    the result is between one and two times as long as the argument, and a
    string without such characters comes back unchanged. *)
Theorem X1_escapeRegExp_backslashes (s : str) :
  escapeRegExp s
  = flat_map (fun c => if isSyntaxCharacter c then [ch "\"; c] else [c]) s
  /\ length s <= length (escapeRegExp s) <= 2 * length s
  /\ (forallb (fun c => negb (isSyntaxCharacter c)) s = true
      -> escapeRegExp s = s).
Proof.
  rewrite escapeRegExp_spec. split; [reflexivity|]. split.
  - induction s as [|c s IH]; simpl; [lia|].
    rewrite length_app. unfold escapeChar at 1 3.
    destruct (isSyntaxCharacter c); simpl; lia.
  - intros H. apply flat_map_escape_id. intros c Hc.
    rewrite forallb_forall in H. apply H in Hc. now apply negb_true_iff.
Qed.

(** X2: for every phrase the pattern source that pass 2 builds from the
    escaped phrase is accepted by the RegExp constructor, and the pattern is
    the phrase, read character by character, between two word-boundary
    assertions.  Escaping loses nothing: two phrases with the same escaped
    text are equal.  A match of the pattern spans as many code units as the
    phrase has and equals the phrase up to case. *)
Theorem X2_bare_pattern_literal (phrase : str) :
  parseTerms (escapeRegExp phrase) = Some (map Chr phrase)
  /\ barePhrasePattern phrase
     = Some (mkRegExp (seqs (WordBoundary :: map Chr phrase ++ [WordBoundary]))
                      true)
  /\ (forall other, escapeRegExp other = escapeRegExp phrase -> other = phrase)
  /\ forall re s i y,
       barePhrasePattern phrase = Some re -> matchAt re s i = Some y ->
       endIndex y = i + length phrase
       /\ ciEqual (slice s i (i + length phrase)) phrase.
Proof.
  assert (Hparse : forall p, parseTerms (escapeRegExp p) = Some (map Chr p)).
  { intros p. rewrite escapeRegExp_spec.
    rewrite <- (app_nil_r (flat_map escapeChar p)), parseTerms_escaped.
    simpl. now rewrite app_nil_r. }
  split; [apply Hparse|]. split; [apply barePhrasePattern_spec|]. split.
  - intros other H. pose proof (Hparse other) as Ho. rewrite H, Hparse in Ho.
    injection Ho as Ho. clear H. revert other Ho.
    induction phrase as [|a p IH]; intros [|b q] H; simpl in H;
      try discriminate; [reflexivity|].
    injection H as <- H. f_equal. now apply IH.
  - intros re s i y Hre Hm. rewrite barePhrasePattern_spec in Hre.
    injection Hre as <-. rewrite barePattern_match in Hm.
    destruct (atWordBoundary s i); [|discriminate].
    destruct (litMatches true s phrase i) eqn:L; [|discriminate].
    destruct (atWordBoundary s (i + length phrase)); [|discriminate].
    injection Hm as <-. split; [reflexivity|].
    now apply (litMatches_slice true).
Qed.

(** X3: for every known phrase, whatever its first and last character, a
    line number stands under the phrase in the record exactly when the
    cleaned line contains the phrase, compared case-insensitively, with a
    word boundary at its start and at its end: at each of the two positions
    exactly one of the neighbouring characters is a word constituent. *)
Theorem X3_recorded_iff_bounded rev fuel doc occ known phrase n :
  scanDocument rev fuel doc = Some (Normal occ) ->
  knownPhrases fuel doc = Some (Normal known) ->
  In phrase known ->
  (In n (linesOf occ phrase)
   <-> exists line, nth_error doc (n - 1) = Some line /\ 1 <= n
                    /\ boundedOccurrence phrase (cleanLine rev line)).
Proof.
  intros Hscan Hknown Hin.
  rewrite (scanDocument_lines rev fuel doc occ known Hscan Hknown phrase).
  rewrite (proj2 (setHas_In known phrase) Hin), In_matchingLines.
  split; intros (line & Hn & Hle & Hm); exists line;
    (split; [exact Hn|]); (split; [exact Hle|]); now apply hasMatch_bounded.
Qed.

(** X4: two known phrases that differ in case only are searched for with
    patterns that match at the same places, so the record gives both the same
    line numbers. *)
Theorem X4_case_variants_agree rev fuel doc occ known p q :
  scanDocument rev fuel doc = Some (Normal occ) ->
  knownPhrases fuel doc = Some (Normal known) ->
  In p known -> In q known -> ciEqual p q ->
  linesOf occ p = linesOf occ q
  /\ forall s i, matchAt (barePattern p) s i = matchAt (barePattern q) s i.
Proof.
  intros Hscan Hknown Hp Hq Hci. split.
  - rewrite !(scanDocument_lines rev fuel doc occ known Hscan Hknown).
    rewrite (proj2 (setHas_In known p) Hp), (proj2 (setHas_In known q) Hq).
    now apply matchingLines_ci.
  - intros s i. now apply barePattern_ci.
Qed.

(** X5: the phrases that pass 1 collects are pairwise different, and each
    of them is the payload of an annotation of some line: it stands between
    the marker with one of the two keywords and a closing bracket, and it
    holds neither a closing bracket nor a line terminator. *)
Theorem X5_known_phrases_are_payloads fuel doc known :
  knownPhrases fuel doc = Some (Normal known) ->
  NoDup known
  /\ forall p, In p known -> exists line, In line doc /\ annotates line p.
Proof.
  intros H. apply knownPhrases_passOne in H.
  apply passOne_sound in H as [Hnd Hin]. split; [apply Hnd; constructor|].
  intros p Hp. destruct (Hin p Hp) as [[]|Hl]. exact Hl.
Qed.

(** X6: pass 1 ends with the empty set exactly when no line of the
    document contains an annotation. *)
Theorem X6_no_phrase_iff_no_annotation fuel doc known :
  knownPhrases fuel doc = Some (Normal known) ->
  (known = [] <-> forall line, In line doc -> ~ containsAnnotation line).
Proof.
  intros H. apply knownPhrases_passOne in H. split.
  - intros -> line Hl Hc.
    apply (passOne_nonempty fuel doc [] [] H); [|reflexivity].
    right. now exists line.
  - intros Hno. revert H. unfold passOne.
    apply (foldOption_invariant _ _ (fun k : PhraseSet => k = []));
      [|reflexivity].
    intros line s s' Hl -> Hs.
    now apply (collectLine_no_annotation fuel line [] s' (Hno line Hl)).
Qed.

(** X7: pass 1 ends on every document once the bound on its loop exceeds
    the length of every line, and a larger bound gives the same set. *)
Theorem X7_pass1_ends fuel doc :
  enoughFuel fuel doc ->
  exists known, forall fuel', fuel <= fuel' ->
    knownPhrases fuel' doc = Some (Normal known).
Proof.
  intros Hf. destruct (passOne_total fuel doc Hf) as [known Hk].
  exists known. intros fuel' Hle. apply knownPhrases_passOne.
  now apply (passOne_more_fuel fuel fuel').
Qed.

(** X8: with a bound beyond the length of every line, the scan returns a
    record unless the empty phrase is known and some cleaned line holds a
    word constituent; in that case it does not return. *)
Theorem X8_scan_returns_iff rev fuel doc known :
  enoughFuel fuel doc ->
  knownPhrases fuel doc = Some (Normal known) ->
  ((exists occ, scanDocument rev fuel doc = Some (Normal occ))
   <-> (In [] known ->
        forall line, In line doc ->
          existsb isWordChar (cleanLine rev line) = false)).
Proof.
  intros Hf Hk. split.
  - intros [occ Hocc] Hin line Hl.
    destruct (existsb isWordChar (cleanLine rev line)) eqn:E; [|reflexivity].
    rewrite <- emptyPhrase_match in E.
    pose proof (scan_diverges_on_empty_phrase rev fuel doc known line
                  Hk Hin Hl E) as Hnone.
    congruence.
  - intros Hguard. rewrite scanDocument_spec.
    apply knownPhrases_passOne in Hk. rewrite Hk.
    destruct (length known =? 0); [eauto|].
    destruct (passTwo_total_guarded rev fuel known doc Hf) as [st ->];
      [|simpl; eauto].
    intros Hin line Hl. rewrite emptyPhrase_match. now apply Hguard.
Qed.

(** X9: the record of a scan has pairwise different keys, at most as many
    as there are known phrases, and no empty list of line numbers; a phrase
    is a key exactly when it is known and occurs, between word boundaries, in
    some cleaned line. *)
Theorem X9_record_keys rev fuel doc occ known :
  scanDocument rev fuel doc = Some (Normal occ) ->
  knownPhrases fuel doc = Some (Normal known) ->
  NoDup (mapKeys occ)
  /\ Forall (fun e => snd e <> []) occ
  /\ length occ <= length known
  /\ forall p, In p (mapKeys occ)
               <-> In p known
                   /\ exists line, In line doc
                        /\ boundedOccurrence p (cleanLine rev line).
Proof.
  intros Hscan Hknown.
  destruct (scanDocument_ok rev fuel doc occ Hscan) as (known' & Hk' & Hok).
  assert (known' = known) by congruence. subst known'.
  pose proof (scanDocument_lines rev fuel doc occ known Hscan Hknown) as Hlines.
  split; [apply Hok|]. split; [now apply (recordOk_lists known (length doc))|].
  split.
  - unfold mapKeys in *. rewrite <- (length_map fst occ).
    apply NoDup_incl_length; [apply Hok|].
    intros p Hp. now apply (recordOk_keys known (length doc) occ).
  - intros p. split.
    + intros Hp. pose proof (recordOk_keys known (length doc) occ p Hok Hp) as Hin.
      split; [exact Hin|].
      pose proof (key_linesOf known (length doc) occ p Hok Hp) as Hne.
      rewrite Hlines, (proj2 (setHas_In known p) Hin) in Hne.
      destruct (matchingLines rev p doc 1) as [|n ls] eqn:E; [congruence|].
      assert (Hn : In n (matchingLines rev p doc 1)) by (rewrite E; now left).
      apply In_matchingLines in Hn as (line & Hnth & _ & Hm).
      exists line. split; [eapply nth_error_In, Hnth|].
      now apply hasMatch_bounded.
    + intros (Hin & line & Hl & Hb). apply linesOf_key.
      rewrite Hlines, (proj2 (setHas_In known p) Hin).
      apply In_nth_error in Hl as [i Hi].
      assert (Hn : In (S i) (matchingLines rev p doc 1)).
      { apply In_matchingLines. exists line.
        replace (S i - 1) with i by lia. split; [exact Hi|]. split; [lia|].
        now apply hasMatch_bounded. }
      intros E. rewrite E in Hn. destruct Hn.
Qed.

(** X10: the extraction pattern of pass 1 and the removal pattern of
    pass 2 find the same spans: from any [lastIndex], both fail or both match
    from the same index to the same end, and the matched text is an
    annotation of at least ten characters. *)
Theorem X10_patterns_find_same_spans (s : str) (lastIndex : nat) :
  (exec WRAPPED_PHRASE_EXTRACTION_PATTERN s lastIndex = None
   <-> exec WRAPPED_PATTERN_REMOVAL_PATTERN s lastIndex = None)
  /\ forall i x,
       exec WRAPPED_PHRASE_EXTRACTION_PATTERN s lastIndex = Some (i, x) ->
       exists y, exec WRAPPED_PATTERN_REMOVAL_PATTERN s lastIndex = Some (i, y)
                 /\ endIndex y = endIndex x
                 /\ i + 10 <= endIndex x
                 /\ annotates s (capture1 s (i, x)).
Proof.
  pose proof (removal_exec_extraction s lastIndex) as H.
  destruct (exec WRAPPED_PHRASE_EXTRACTION_PATTERN s lastIndex) as [[i x]|] eqn:E,
           (exec WRAPPED_PATTERN_REMOVAL_PATTERN s lastIndex) as [[j y]|];
    simpl in H; try contradiction.
  - destruct H as [<- He]. split; [split; discriminate|].
    intros i' x' [= <- <-]. exists y. split; [reflexivity|].
    apply exec_some in E as (_ & Hm & _).
    split; [now symmetry|]. split; [now apply (extraction_span s)|].
    now apply annotates_capture.
  - split; [split; reflexivity|]. intros i x. discriminate.
Qed.

(** X11: the cleaner of the first revision returns the line as it is
    exactly when the line contains no annotation; the tag-aware cleaner does
    so exactly when the line contains neither an annotation nor a tag span. *)
Theorem X11_cleaner_fixed_points (line : str) :
  (cleanLine IndexJs line = line <-> ~ containsAnnotation line)
  /\ (cleanLine Part000 line = line
      <-> ~ containsAnnotation line /\ ~ hasTagSpan line).
Proof.
  cbn [cleanLine]. split; split.
  - intros H Hc. apply removal_shorter in Hc. rewrite H in Hc. lia.
  - apply removal_fixed.
  - intros H.
    assert (Hno : ~ containsAnnotation line).
    { intros Hc. apply removal_shorter in Hc.
      pose proof (html_length (replace line WRAPPED_PATTERN_REMOVAL_PATTERN []))
        as Hl.
      rewrite H in Hl. lia. }
    split; [exact Hno|]. intros Ht.
    rewrite (removal_fixed line Hno) in H.
    apply html_shorter in Ht. rewrite H in Ht. lia.
  - intros [Hno Ht]. rewrite (removal_fixed line Hno). now apply html_fixed.
Qed.

(** X12: a line that contains an annotation is cleaned, in both
    revisions, to a line that is shorter by ten characters or more. *)
Theorem X12_annotation_shortens rev line :
  containsAnnotation line -> length (cleanLine rev line) + 10 <= length line.
Proof.
  intros Hc. apply removal_shorter in Hc. destruct rev; cbn [cleanLine].
  - exact Hc.
  - pose proof (html_length (replace line WRAPPED_PATTERN_REMOVAL_PATTERN [])).
    lia.
Qed.

(** X13: the tag-aware cleaner leaves no tag span in the line, so
    replacing tag spans once more changes nothing; every tag span it replaces
    makes the line shorter. *)
Theorem X13_no_tag_span_left (line : str) :
  ~ hasTagSpan (cleanLine Part000 line)
  /\ replace (cleanLine Part000 line) HTML_TAG_PATTERN (codeUnits " ")
     = cleanLine Part000 line
  /\ (hasTagSpan (cleanLine IndexJs line)
      -> length (cleanLine Part000 line) + 2 <= length (cleanLine IndexJs line)).
Proof.
  cbn [cleanLine]. split; [apply html_replace_clean|].
  split; [apply html_fixed, html_replace_clean|apply html_shorter].
Qed.

(** X14: the reporter prints the same lines for two maps with the same
    entries in a different order of insertion. *)
Theorem X14_report_ignores_insertion_order occ occ' k :
  NoDup (mapKeys occ) -> Permutation occ occ' ->
  exists out, processResults occ k = Some (out, Normal occ)
              /\ processResults occ' k = Some (out, Normal occ').
Proof.
  intros Hnd Hp. exists (k ++ reportOf occ). rewrite !processResults_spec.
  split; [reflexivity|]. now rewrite (reportOf_perm occ occ' Hnd Hp).
Qed.

(** X15: the body of the inner loop, run again for the same phrase and
    line, changes nothing; it leaves the line numbers of every other phrase
    alone; and it keeps the keys in their order, adding the phrase at the end
    when it is new. *)
Theorem X15_recordMatch_once phrase n occ :
  recordMatch phrase n (recordMatch phrase n occ) = recordMatch phrase n occ
  /\ (forall q, q <> phrase -> linesOf (recordMatch phrase n occ) q = linesOf occ q)
  /\ mapKeys (recordMatch phrase n occ)
     = (if mapHas occ phrase then mapKeys occ else mapKeys occ ++ [phrase])
  /\ lastElement (linesOf (recordMatch phrase n occ) phrase) = Some n.
Proof.
  split; [apply recordMatch_idempotent|].
  split; [intros q Hq; now apply linesOf_recordMatch_other|].
  split; [apply mapKeys_recordMatch|].
  destruct (recordMatch_last phrase n occ) as (l & Hl & Hlast).
  unfold linesOf. now rewrite Hl.
Qed.

(** X16: for the non-empty record of a scan the reporter prints, between
    header and footer, one line for every key, in sorted order, with the
    numbers of the lines on which the phrase matches after cleaning: the
    test for an empty list of line numbers never fails. *)
Theorem X16_report_of_scan rev fuel doc occ k :
  scanDocument rev fuel doc = Some (Normal occ) -> occ <> [] ->
  processResults occ k
  = Some (k ++ [(Stdout, msgReportHeader)]
            ++ map (fun p => (Stdout, reportLine p (matchingLines rev p doc 1)))
                   (sort (mapKeys occ))
            ++ [(Stdout, msgReportFooter)],
          Normal occ).
Proof.
  intros Hscan Hne. rewrite processResults_spec. unfold reportOf.
  destruct (scanDocument_ok rev fuel doc occ Hscan) as (known & Hknown & Hok).
  destruct occ as [|e occ]; [contradiction|].
  change (0 <? length (e :: occ)) with true. cbv iota.
  rewrite (reportedPhrases_all (e :: occ)
             (recordOk_lists known (length doc) (e :: occ) Hok)).
  do 5 f_equal. apply map_ext_in. intros p Hp.
  apply (Permutation_in _ (sort_perm (mapKeys (e :: occ)))) in Hp.
  apply (recordOk_keys known (length doc) (e :: occ) p Hok) in Hp.
  rewrite (scanDocument_lines rev fuel doc (e :: occ) known Hscan Hknown p).
  now rewrite (proj2 (setHas_In known p) Hp).
Qed.

(** X17: on a line that begins with text without an at sign, followed by
    an annotation whose payload holds no closing bracket and no line
    terminator, the removal of pass 2 keeps the text, drops the annotation
    with its payload and goes on with the rest of the line. *)
Theorem X17_cleaner_drops_annotation pre marker payload post :
  ~ In (ch "@") pre ->
  (ciEqual marker (codeUnits "@[static#")
   \/ ciEqual marker (codeUnits "@[static-header#")) ->
  Forall (fun c => isLineTerminator c = false /\ c <> ch "]") payload ->
  cleanLine IndexJs (pre ++ marker ++ payload ++ [ch "]"] ++ post)
  = pre ++ cleanLine IndexJs post.
Proof.
  intros Hpre Hci Hp. cbn [cleanLine].
  now apply removal_first_annotation.
Qed.

(** X18: on a line without annotations that begins with text without
    [<], followed by a tag span, the tag-aware cleaner keeps the text, puts
    one blank in the place of the tag span and goes on with the rest of the
    line. *)
Theorem X18_cleaner_blanks_tag pre body post :
  ~ containsAnnotation (pre ++ [ch "<"] ++ body ++ [ch ">"] ++ post) ->
  ~ In (ch "<") pre -> body <> [] -> Forall (fun c => c <> ch ">") body ->
  cleanLine Part000 (pre ++ [ch "<"] ++ body ++ [ch ">"] ++ post)
  = pre ++ [ch " "] ++ cleanLine Part000 post.
Proof.
  intros Hno Hpre Hne Hbody. cbn [cleanLine].
  rewrite (removal_fixed _ Hno).
  rewrite (removal_fixed post).
  - now apply html_first_tag.
  - intros Hc. apply Hno.
    replace (pre ++ [ch "<"] ++ body ++ [ch ">"] ++ post)
      with ((pre ++ [ch "<"] ++ body ++ [ch ">"]) ++ post)
      by (now rewrite <- !app_assoc).
    now apply containsAnnotation_app.
Qed.

(** X19: the removal of annotations only drops characters: every
    character of the cleaned line is a character of the line, and a tag span
    in the cleaned line shows a tag span in the line. *)
Theorem X19_removal_only_drops (line : str) :
  (forall c, In c (cleanLine IndexJs line) -> In c line)
  /\ (hasTagSpan (cleanLine IndexJs line) -> hasTagSpan line).
Proof.
  cbn [cleanLine]. split.
  - intros c. apply (stripped_In (ch "@")). apply removal_stripped.
  - intros H. apply tagLike_iff.
    eapply stripped_tagLike; [|apply removal_stripped|].
    + discriminate.
    + now apply tagLike_iff.
Qed.

(** X20: a run on an existing file whose two streams end without an
    error, with at least one phrase found by pass 1 and with a second pass
    that ends, prints the four progress messages and then the report, all on
    the standard output, and exits with status 0; the second pass works on
    the lines of the second stream. *)
Theorem X20_run_prints_progress_then_report rev fuel fs path known st :
  path <> [] -> existsSync fs path = true ->
  streamError (createReadStream fs path 0) = None ->
  passOne fuel (streamLines (createReadStream fs path 0)) = Some known ->
  known <> [] ->
  streamError (createReadStream fs path 1) = None ->
  passTwo rev fuel known (streamLines (createReadStream fs path 1)) = Some st ->
  runProcess rev fuel (Some path) fs
  = Some ([(Stdout, msgSearching path); (Stdout, msgPass1);
           (Stdout, msgFound (length known)); (Stdout, pass2Announcement rev)]
            ++ reportOf (snd st), 0).
Proof.
  intros Hpath Hex Herr0 Hone Hne Herr1 Htwo.
  destruct path as [|c path]; [contradiction|].
  rewrite runProcess_path, (findUnwrapped_spec rev fuel fs (c :: path) _ Hex).
  cbv zeta. rewrite Hone, Herr0.
  destruct (length known =? 0) eqn:E.
  { apply Nat.eqb_eq in E. destruct known; [contradiction|discriminate]. }
  rewrite Htwo, Herr1. reflexivity.
Qed.

(** X21: for a known phrase that begins and ends with a word character
    of the pattern language (an ASCII letter, a digit or the underscore), a
    line number stands under the phrase in the record exactly when the phrase
    occurs in that line after cleaning, compared case-insensitively, with a
    string edge or a character that is no such word character on either
    side. *)
Theorem X21_word_edged_phrase_recorded rev fuel doc occ known phrase n :
  scanDocument rev fuel doc = Some (Normal occ) ->
  knownPhrases fuel doc = Some (Normal known) ->
  In phrase known -> wordEdged phrase = true ->
  (In n (linesOf occ phrase)
   <-> exists line, nth_error doc (n - 1) = Some line /\ 1 <= n
                    /\ wholeWordOccurrence phrase (cleanLine rev line)).
Proof.
  intros Hscan Hknown Hin Hedge.
  rewrite (scanDocument_lines rev fuel doc occ known Hscan Hknown phrase).
  rewrite (proj2 (setHas_In known phrase) Hin), In_matchingLines.
  split; intros (line & Hn & Hle & Hm); exists line;
    (split; [exact Hn|split; [exact Hle|]]);
    now apply (hasMatch_occurrence phrase _ Hedge).
Qed.

End Runtime.

(** * The theorems at sample inputs *)

Lemma C5_witness :
  scanDocument latin1Upper Part000 30 homeDocument
  = Some (Normal [(codeUnits "Home", [2; 3])])
  /\ mapGet [(codeUnits "Home", [2; 3])] (codeUnits "Home") = Some [2; 3]
  /\ (StronglySorted lt [2; 3]
      /\ Forall (fun n => 1 <= n <= length homeDocument) [2; 3]
      /\ NoDup [2; 3]).
Proof.
  split; [vm_compute; reflexivity|].
  split; [vm_compute; reflexivity|].
  apply (C5_line_numbers_increasing latin1Upper Part000 30 homeDocument
           [(codeUnits "Home", [2; 3])] (codeUnits "Home") [2; 3]);
    vm_compute; reflexivity.
Defined.

Lemma C6_witness :
  scanDocument latin1Upper Part000 30 homeDocument
  = Some (Normal [(codeUnits "Home", [2; 3])])
  /\ knownPhrases latin1Upper 30 homeDocument = Some (Normal [codeUnits "Home"])
  /\ In (codeUnits "Home") (mapKeys [(codeUnits "Home", [2; 3])])
  /\ In (codeUnits "Home") [codeUnits "Home"].
Proof.
  split; [vm_compute; reflexivity|].
  split; [vm_compute; reflexivity|].
  split; [now left|].
  apply (C6_keys_are_known latin1Upper Part000 30 homeDocument
           [(codeUnits "Home", [2; 3])] [codeUnits "Home"] (codeUnits "Home")).
  - vm_compute; reflexivity.
  - vm_compute; reflexivity.
  - now left.
Defined.

Lemma C7_witness :
  (forall line, In line plainDocument -> ~ containsAnnotation latin1Upper line)
  /\ knownPhrases latin1Upper 1 plainDocument = Some (Normal [])
  /\ scanDocument latin1Upper Part000 1 plainDocument = Some (Normal [])
  /\ runProcess latin1Upper Part000 1 (Some documentPath) (documentFile plainDocument)
     = Some ([(Stdout, msgSearching documentPath); (Stdout, msgPass1);
              (Stdout, msgFound 0); (Stdout, msgNothingToMonitor);
              (Stdout, msgNoneFound)], 0).
Proof.
  assert (Hno : forall line, In line plainDocument ->
                             ~ containsAnnotation latin1Upper line).
  { intros line [<-|[<-|[]]]; rewrite containsAnnotation_exec;
      vm_compute; intros H; now apply H. }
  split; [exact Hno|].
  destruct (C7_no_annotations latin1Upper Part000 0 (documentFile plainDocument)
              documentPath plainDocument)
    as (H1 & H2 & _ & H4); try reflexivity; try discriminate; auto.
Defined.

Lemma C10_witness :
  (forall line, In line taglessDocument -> ~ hasTagSpan line)
  /\ scanDocument latin1Upper IndexJs 30 taglessDocument
     = scanDocument latin1Upper Part000 30 taglessDocument.
Proof.
  assert (Hno : forall line, In line taglessDocument -> ~ hasTagSpan line).
  { intros line [<-|[<-|[]]]; rewrite (hasTagSpan_exec latin1Upper);
      vm_compute; intros H; now apply H. }
  split; [exact Hno|].
  apply (C10_revisions_agree_without_tags latin1Upper 30 taglessDocument Hno).
Defined.

Lemma C8_witness :
  processResults [(codeUnits "cat", [3; 6]); (codeUnits "Alpha", [5; 6])] []
  = Some ([(Stdout, msgReportHeader);
           (Stdout, reportLine (codeUnits "Alpha") [5; 6]);
           (Stdout, reportLine (codeUnits "cat") [3; 6]);
           (Stdout, msgReportFooter)],
          Normal [(codeUnits "cat", [3; 6]); (codeUnits "Alpha", [5; 6])]).
Proof.
  apply (proj1 (C8_report_sorted
                  [(codeUnits "cat", [3; 6]); (codeUnits "Alpha", [5; 6])] []
                  ltac:(vm_compute; lia)
                  ltac:(repeat constructor; discriminate))).
Defined.

(** U+FF5E comes before U+1F600 by code point, yet the reporter prints the
    phrase U+1F600 first: its first code unit, D83D, is below FF5E. *)
Lemma C8_counterexample :
  scanDocument latin1Upper Part000 40 astralDocument = Some (Normal astralRecord)
  /\ processResults astralRecord []
     = Some ([(Stdout, msgReportHeader);
              (Stdout, reportLine grinningFace [2]);
              (Stdout, reportLine fullwidthTilde [2]);
              (Stdout, msgReportFooter)],
             Normal astralRecord)
  /\ codePointLtb fullwidthTilde grinningFace = true.
Proof. repeat split; vm_compute; reflexivity. Qed.

Lemma C4_witness :
  runProcess latin1Upper Part000 30 None missingFile
  = Some ([(Stdout, usageLine Part000); (Stdout, msgPleaseProvide)], 1)
  /\ runProcess latin1Upper Part000 30 (Some documentPath) missingFile
     = Some ([(Stdout, msgSearching documentPath);
              (Stderr, msgNotFound documentPath)], 1)
  /\ runProcess latin1Upper Part000 30 (Some documentPath) brokenFile
     = Some ([(Stdout, msgSearching documentPath); (Stdout, msgPass1);
              (Stdout, msgFound 1); (Stdout, pass2Announcement Part000);
              (Stderr, msgUnexpected documentPath (codeUnits "EIO: i/o error"))],
             1)
  /\ (exists msg, readFailure latin1Upper 30 brokenFile documentPath msg)
  /\ exists k code,
       runProcess latin1Upper Part000 30 (Some documentPath)
                  (documentFile homeDocument) = Some (k, code).
Proof.
  pose proof (C4_exit_status latin1Upper Part000 30) as H.
  split; [|split; [|split; [|split]]].
  - apply (proj1 (H None missingFile)). now left.
  - apply (proj1 (proj2 (H (Some documentPath) missingFile)) documentPath);
      [reflexivity|discriminate|reflexivity].
  - vm_compute; reflexivity.
  - destruct (proj1 (proj2 (proj2 (H (Some documentPath) brokenFile)))
                documentPath
                [(Stdout, msgSearching documentPath); (Stdout, msgPass1);
                 (Stdout, msgFound 1); (Stdout, pass2Announcement Part000);
                 (Stderr, msgUnexpected documentPath
                                        (codeUnits "EIO: i/o error"))]
                1 eq_refl ltac:(discriminate) eq_refl
                ltac:(vm_compute; reflexivity))
      as [(msg & k' & Hfail & _)|(_ & Hcode & _)].
    + now exists msg.
    + discriminate Hcode.
  - apply (proj2 (proj2 (proj2 (H (Some documentPath)
                                  (documentFile homeDocument))))
             documentPath);
      [reflexivity|discriminate|reflexivity| | |].
    + repeat constructor; vm_compute; lia.
    + repeat constructor; vm_compute; lia.
    + intros known Hk. vm_compute in Hk. injection Hk as <-.
      intros [Hk|[]]. discriminate Hk.
Defined.

(** Without an argument the run ends with status 1 and nothing at all has
    been written to the error stream. *)
Lemma C4_counterexample :
  exists k,
    runProcess latin1Upper Part000 30 None missingFile = Some (k, 1)
    /\ k <> [] /\ Forall (fun e => fst e = Stdout) k.
Proof.
  eexists. split; [vm_compute; reflexivity|].
  split; [discriminate|repeat constructor].
Qed.

(** * The further properties at sample inputs *)

(** The phrase "C++" ends with characters that are no word constituents;
    on the line "C++x" it is followed by a letter, which makes the word
    boundary, and the line is recorded. *)
Lemma X3_witness :
  scanDocument latin1Upper IndexJs 20 plusDocument
  = Some (Normal [(codeUnits "C++", [2])])
  /\ knownPhrases latin1Upper 20 plusDocument = Some (Normal [codeUnits "C++"])
  /\ wordEdged (codeUnits "C++") = false
  /\ exists line, nth_error plusDocument (2 - 1) = Some line /\ 1 <= 2
       /\ boundedOccurrence latin1Upper (codeUnits "C++")
                            (cleanLine latin1Upper IndexJs line).
Proof.
  assert (Hscan : scanDocument latin1Upper IndexJs 20 plusDocument
                  = Some (Normal [(codeUnits "C++", [2])]))
    by (vm_compute; reflexivity).
  assert (Hknown : knownPhrases latin1Upper 20 plusDocument
                   = Some (Normal [codeUnits "C++"]))
    by (vm_compute; reflexivity).
  split; [exact Hscan|]. split; [exact Hknown|]. split; [reflexivity|].
  apply (proj1 (X3_recorded_iff_bounded latin1Upper IndexJs 20 plusDocument
                  [(codeUnits "C++", [2])] [codeUnits "C++"] (codeUnits "C++") 2
                  Hscan Hknown (or_introl eq_refl))).
  now left.
Defined.

Lemma X4_witness :
  scanDocument latin1Upper Part000 40 caseDocument
  = Some (Normal [(codeUnits "Home", [2]); (codeUnits "HOME", [2])])
  /\ knownPhrases latin1Upper 40 caseDocument
     = Some (Normal [codeUnits "Home"; codeUnits "HOME"])
  /\ ciEqual latin1Upper (codeUnits "Home") (codeUnits "HOME")
  /\ linesOf [(codeUnits "Home", [2]); (codeUnits "HOME", [2])] (codeUnits "Home")
     = linesOf [(codeUnits "Home", [2]); (codeUnits "HOME", [2])] (codeUnits "HOME").
Proof.
  assert (Hscan : scanDocument latin1Upper Part000 40 caseDocument
                  = Some (Normal [(codeUnits "Home", [2]); (codeUnits "HOME", [2])]))
    by (vm_compute; reflexivity).
  assert (Hknown : knownPhrases latin1Upper 40 caseDocument
                   = Some (Normal [codeUnits "Home"; codeUnits "HOME"]))
    by (vm_compute; reflexivity).
  assert (Hci : ciEqual latin1Upper (codeUnits "Home") (codeUnits "HOME"))
    by (vm_compute; reflexivity).
  split; [exact Hscan|]. split; [exact Hknown|]. split; [exact Hci|].
  apply (proj1 (X4_case_variants_agree latin1Upper Part000 40 caseDocument
                  [(codeUnits "Home", [2]); (codeUnits "HOME", [2])]
                  [codeUnits "Home"; codeUnits "HOME"]
                  (codeUnits "Home") (codeUnits "HOME")
                  Hscan Hknown (or_introl eq_refl) (or_intror (or_introl eq_refl))
                  Hci)).
Defined.

Lemma X5_witness :
  knownPhrases latin1Upper 30 homeDocument = Some (Normal [codeUnits "Home"])
  /\ NoDup [codeUnits "Home"]
  /\ forall p, In p [codeUnits "Home"] ->
       exists line, In line homeDocument /\ annotates latin1Upper line p.
Proof.
  assert (Hknown : knownPhrases latin1Upper 30 homeDocument
                   = Some (Normal [codeUnits "Home"]))
    by (vm_compute; reflexivity).
  split; [exact Hknown|].
  apply (X5_known_phrases_are_payloads latin1Upper 30 homeDocument
           [codeUnits "Home"] Hknown).
Defined.

Lemma X6_witness :
  knownPhrases latin1Upper 1 plainDocument = Some (Normal [])
  /\ forall line, In line plainDocument -> ~ containsAnnotation latin1Upper line.
Proof.
  assert (Hknown : knownPhrases latin1Upper 1 plainDocument = Some (Normal []))
    by (vm_compute; reflexivity).
  split; [exact Hknown|].
  apply (proj1 (X6_no_phrase_iff_no_annotation latin1Upper 1 plainDocument []
                  Hknown)).
  reflexivity.
Defined.

Lemma X7_witness :
  enoughFuel 30 homeDocument
  /\ exists known, forall fuel', 30 <= fuel' ->
       knownPhrases latin1Upper fuel' homeDocument = Some (Normal known).
Proof.
  assert (Hf : enoughFuel 30 homeDocument)
    by (repeat constructor; vm_compute; lia).
  split; [exact Hf|].
  apply (X7_pass1_ends latin1Upper 30 homeDocument Hf).
Defined.

(** The empty phrase is known and the second line holds a letter: the
    scan does not return. *)
Lemma X8_witness :
  enoughFuel 11 emptyPayloadDocument
  /\ knownPhrases latin1Upper 11 emptyPayloadDocument = Some (Normal [[]])
  /\ ~ exists occ,
         scanDocument latin1Upper Part000 11 emptyPayloadDocument
         = Some (Normal occ).
Proof.
  assert (Hf : enoughFuel 11 emptyPayloadDocument)
    by (repeat constructor; vm_compute; lia).
  assert (Hknown : knownPhrases latin1Upper 11 emptyPayloadDocument
                   = Some (Normal [[]]))
    by (vm_compute; reflexivity).
  split; [exact Hf|]. split; [exact Hknown|].
  intros Hex.
  pose proof (proj1 (X8_scan_returns_iff latin1Upper Part000 11
                       emptyPayloadDocument [[]] Hf Hknown)
                    Hex (or_introl eq_refl) (codeUnits "a")
                    (or_intror (or_introl eq_refl))) as H.
  vm_compute in H. discriminate H.
Defined.

Lemma X9_witness :
  scanDocument latin1Upper Part000 20 catDocument
  = Some (Normal [(codeUnits "cat", [3])])
  /\ knownPhrases latin1Upper 20 catDocument = Some (Normal [codeUnits "cat"])
  /\ NoDup (mapKeys [(codeUnits "cat", [3])])
  /\ Forall (fun e => snd e <> []) [(codeUnits "cat", [3])]
  /\ length [(codeUnits "cat", [3])] <= length [codeUnits "cat"]
  /\ forall p, In p (mapKeys [(codeUnits "cat", [3])])
               <-> In p [codeUnits "cat"]
                   /\ exists line, In line catDocument
                        /\ boundedOccurrence latin1Upper p
                                             (cleanLine latin1Upper Part000 line).
Proof.
  assert (Hscan : scanDocument latin1Upper Part000 20 catDocument
                  = Some (Normal [(codeUnits "cat", [3])]))
    by (vm_compute; reflexivity).
  assert (Hknown : knownPhrases latin1Upper 20 catDocument
                   = Some (Normal [codeUnits "cat"]))
    by (vm_compute; reflexivity).
  split; [exact Hscan|]. split; [exact Hknown|].
  apply (X9_record_keys latin1Upper Part000 20 catDocument
           [(codeUnits "cat", [3])] [codeUnits "cat"] Hscan Hknown).
Defined.

Lemma X12_witness :
  containsAnnotation latin1Upper homeLine1
  /\ length (cleanLine latin1Upper Part000 homeLine1) + 10 <= length homeLine1.
Proof.
  assert (Hc : containsAnnotation latin1Upper homeLine1)
    by (apply containsAnnotation_exec; vm_compute; discriminate).
  split; [exact Hc|].
  apply (X12_annotation_shortens latin1Upper Part000 homeLine1 Hc).
Defined.

Lemma X14_witness :
  NoDup (mapKeys astralRecord)
  /\ Permutation astralRecord (rev astralRecord)
  /\ exists out,
       processResults astralRecord [] = Some (out, Normal astralRecord)
       /\ processResults (rev astralRecord) []
          = Some (out, Normal (rev astralRecord)).
Proof.
  assert (Hnd : NoDup (mapKeys astralRecord)).
  { repeat constructor; simpl; intuition discriminate. }
  split; [exact Hnd|]. split; [apply Permutation_rev|].
  apply (X14_report_ignores_insertion_order astralRecord (rev astralRecord) []
           Hnd (Permutation_rev astralRecord)).
Defined.

Lemma X16_witness :
  scanDocument latin1Upper Part000 30 homeDocument
  = Some (Normal [(codeUnits "Home", [2; 3])])
  /\ processResults [(codeUnits "Home", [2; 3])] []
     = Some ([(Stdout, msgReportHeader);
              (Stdout, reportLine (codeUnits "Home") [2; 3]);
              (Stdout, msgReportFooter)],
             Normal [(codeUnits "Home", [2; 3])]).
Proof.
  assert (Hscan : scanDocument latin1Upper Part000 30 homeDocument
                  = Some (Normal [(codeUnits "Home", [2; 3])]))
    by (vm_compute; reflexivity).
  split; [exact Hscan|].
  rewrite (X16_report_of_scan latin1Upper Part000 30 homeDocument
             [(codeUnits "Home", [2; 3])] [] Hscan ltac:(discriminate)).
  vm_compute. reflexivity.
Defined.

Lemma X17_witness :
  ~ In (ch "@") []
  /\ ciEqual latin1Upper (codeUnits "@[static#") (codeUnits "@[static#")
  /\ Forall (fun c => isLineTerminator c = false /\ c <> ch "]") (codeUnits "Home")
  /\ cleanLine latin1Upper IndexJs homeLine1
     = cleanLine latin1Upper IndexJs (codeUnits " is great.").
Proof.
  assert (Hp : Forall (fun c => isLineTerminator c = false /\ c <> ch "]")
                      (codeUnits "Home")).
  { repeat constructor; discriminate. }
  split; [intros []|]. split; [reflexivity|]. split; [exact Hp|].
  apply (X17_cleaner_drops_annotation latin1Upper [] (codeUnits "@[static#")
           (codeUnits "Home") (codeUnits " is great.")
           (fun H => H) (or_introl eq_refl) Hp).
Defined.

Lemma X18_witness :
  ~ containsAnnotation latin1Upper homeLine3
  /\ cleanLine latin1Upper Part000 homeLine3
     = [ch " "] ++ cleanLine latin1Upper Part000 (codeUnits "Home</a> link").
Proof.
  assert (Hno : ~ containsAnnotation latin1Upper homeLine3).
  { rewrite containsAnnotation_exec. vm_compute. intros H. now apply H. }
  split; [exact Hno|].
  apply (X18_cleaner_blanks_tag latin1Upper []
           (codeUnits "a href=" ++ [dquote] ++ codeUnits "Home" ++ [dquote])
           (codeUnits "Home</a> link") Hno (fun H => H)).
  - discriminate.
  - repeat constructor; discriminate.
Defined.

Lemma X20_witness :
  runProcess latin1Upper Part000 30 (Some documentPath) (documentFile homeDocument)
  = Some ([(Stdout, msgSearching documentPath); (Stdout, msgPass1);
           (Stdout, msgFound 1); (Stdout, pass2Announcement Part000)]
            ++ reportOf [(codeUnits "Home", [2; 3])], 0).
Proof.
  apply (X20_run_prints_progress_then_report latin1Upper Part000 30
           (documentFile homeDocument) documentPath [codeUnits "Home"]
           (3, [(codeUnits "Home", [2; 3])])).
  - discriminate.
  - reflexivity.
  - reflexivity.
  - vm_compute. reflexivity.
  - discriminate.
  - reflexivity.
  - vm_compute. reflexivity.
Defined.

(** The two examples of the whole-word rule: "cat" in "the cat sat" is
    recorded, "cat" inside "category" is not. *)
Lemma X21_witness :
  scanDocument latin1Upper Part000 20 catDocument
  = Some (Normal [(codeUnits "cat", [3])])
  /\ knownPhrases latin1Upper 20 catDocument = Some (Normal [codeUnits "cat"])
  /\ wordEdged (codeUnits "cat") = true
  /\ (exists line, nth_error catDocument (3 - 1) = Some line /\ 1 <= 3
        /\ wholeWordOccurrence latin1Upper (codeUnits "cat")
                               (cleanLine latin1Upper Part000 line))
  /\ ~ (exists line, nth_error catDocument (2 - 1) = Some line /\ 1 <= 2
          /\ wholeWordOccurrence latin1Upper (codeUnits "cat")
                                 (cleanLine latin1Upper Part000 line)).
Proof.
  assert (Hscan : scanDocument latin1Upper Part000 20 catDocument
                  = Some (Normal [(codeUnits "cat", [3])]))
    by (vm_compute; reflexivity).
  assert (Hknown : knownPhrases latin1Upper 20 catDocument
                   = Some (Normal [codeUnits "cat"]))
    by (vm_compute; reflexivity).
  pose proof (fun n => X21_word_edged_phrase_recorded
                         latin1Upper Part000 20 catDocument
                         [(codeUnits "cat", [3])] [codeUnits "cat"]
                         (codeUnits "cat") n Hscan Hknown
                         (or_introl eq_refl) eq_refl) as H.
  split; [exact Hscan|]. split; [exact Hknown|]. split; [reflexivity|].
  split.
  - apply (proj1 (H 3)). now left.
  - intros Hex. apply (proj2 (H 2)) in Hex. destruct Hex as [Hex|[]].
    discriminate Hex.
Defined.
